(** * kb-api: retrieval-and-ranking pipeline, verified against its specification

    A shallow embedding of the ranking core of the knowledge-base API
    (app/services/{retrieve,rrf,reranker,mmr,hybrid_search,cache}.py and the
    cache use of app/routers/ask.py), with the properties the specification
    states about it.

    Conventions of the embedding.
    - A Python [float] is a binary64 number, held as the rational [Q] it
      stands for.  The fusion, the BM25 normalization and the cosine of
      hybrid_search.py round every sum, product and quotient to binary64
      ([Float.round]); the thresholds, the reranker and the vector search
      only compare and store scores.  The numpy arithmetic of mmr.py is
      read over the reals [R], without rounding.
    - Python [int] is [Z]; a list index or rank from [enumerate] is [nat].
    - Python [str] is a list of characters, [Py.str]; a character is read as
      the code point of the same number, so the model covers text of code
      points below 256.
    - A Python [dict] whose iteration order matters is an association list
      in insertion order.
    - An operation that may raise returns [option] or a sum. *)

From Stdlib Require Import ZArith NArith QArith Qminmax Lia List Bool String Ascii.
From Stdlib Require Import DecimalString.
From Stdlib Require DecimalZ Lqa.
From Stdlib Require Floats.
From Stdlib Require Import Qpower.
From Stdlib Require Import Permutation Sorted.
From Stdlib Require Import Reals Lra.
Import ListNotations.

Set Implicit Arguments.

(* ===================================================================== *)
(** * Python built-ins used by the services *)
(* ===================================================================== *)

Module Py.

(** [x < y] on rationals as a boolean, for the [if]s of the code. *)
Definition Qltb (x y : Q) : bool := negb (Qle_bool y x).

(** [l[:n]] for a Python integer [n]: the first [n] items when [n >= 0],
    all but the last [-n] when [n < 0]. *)
Definition slice_to {A : Type} (l : list A) (n : Z) : list A :=
  if (0 <=? n)%Z then firstn (Z.to_nat n) l
  else firstn (Z.to_nat (Z.of_nat (List.length l) + n)) l.

(** [enumerate(l)], counting from [start]. *)
Fixpoint enumerate_from {A : Type} (start : nat) (l : list A) : list (nat * A) :=
  match l with
  | [] => []
  | x :: l' => (start, x) :: enumerate_from (S start) l'
  end.

Definition enumerate {A : Type} (l : list A) : list (nat * A) :=
  enumerate_from 0 l.

(** [sorted(l, key=key, reverse=True)]: a stable sort, descending by key.
    Python keeps items of equal key in their original order also when
    [reverse=True].  An insertion sort with the same result: the new item
    goes in front of the first item whose key is not greater. *)
Section SortedReverse.
Variable A : Type.
Variable key : A -> Q.

Fixpoint insert_desc (x : A) (l : list A) : list A :=
  match l with
  | [] => [x]
  | y :: l' =>
      if Qltb (key x) (key y) then y :: insert_desc x l'
      else x :: y :: l'
  end.

Fixpoint sorted_reverse (l : list A) : list A :=
  match l with
  | [] => []
  | x :: l' => insert_desc x (sorted_reverse l')
  end.
End SortedReverse.

(** A [dict] in insertion order. *)
Section Dict.
Variables K V : Type.
Variable eqb : K -> K -> bool.

Definition dict := list (K * V).

(** [d.get(k)] *)
Fixpoint get (d : dict) (k : K) : option V :=
  match d with
  | [] => None
  | (k', v) :: d' => if eqb k' k then Some v else get d' k
  end.

(** [k in d] *)
Definition contains (d : dict) (k : K) : bool :=
  match get d k with Some _ => true | None => false end.

(** [d[k] = v]: an existing key keeps its place, a new key goes last. *)
Fixpoint setitem (d : dict) (k : K) (v : V) : dict :=
  match d with
  | [] => [(k, v)]
  | (k', v') :: d' =>
      if eqb k' k then (k', v) :: d' else (k', v') :: setitem d' k v
  end.

(** [del d[k]] for a key that is present. *)
Fixpoint delitem (d : dict) (k : K) : dict :=
  match d with
  | [] => []
  | (k', v') :: d' => if eqb k' k then d' else (k', v') :: delitem d' k
  end.

(** [next(iter(d))]: the first key in insertion order; raises
    [StopIteration] on an empty dict. *)
Definition first_key (d : dict) : option K :=
  match d with
  | [] => None
  | (k, _) :: _ => Some k
  end.

Definition keys (d : dict) : list K := map fst d.
End Dict.

(** ** [str] *)

Definition str := list ascii.

(** A literal. *)
Definition lit (s : string) : str := list_ascii_of_string s.

Definition code (c : ascii) : N := N_of_ascii c.

(** [c.isspace()] for a code point below 256: TAB..CR, FS..US, space,
    NEL and the no-break space. *)
Definition isspace (c : ascii) : bool :=
  let n := code c in
  ((9 <=? n) && (n <=? 13) || (28 <=? n) && (n <=? 32)
   || (n =? 133) || (n =? 160))%N.

(** [c.lower()] for a code point below 256: A..Z and the Latin-1 capitals
    (all of 0xC0..0xDE but the multiplication sign 0xD7) move up by 32. *)
Definition lower_char (c : ascii) : ascii :=
  let n := code c in
  if ((65 <=? n) && (n <=? 90)
      || (192 <=? n) && (n <=? 222) && negb (n =? 215))%N
  then ascii_of_N (n + 32) else c.

(** [s.lower()] *)
Definition lower (s : str) : str := map lower_char s.

(** [s.lstrip()] *)
Fixpoint lstrip (s : str) : str :=
  match s with
  | [] => []
  | c :: s' => if isspace c then lstrip s' else s
  end.

(** [s.rstrip()] *)
Fixpoint rstrip (s : str) : str :=
  match s with
  | [] => []
  | c :: s' =>
      match rstrip s' with
      | [] => if isspace c then [] else [c]
      | r => c :: r
      end
  end.

(** [s.strip()] *)
Definition strip (s : str) : str := rstrip (lstrip s).

(** [s.split()]: the maximal runs of non-space characters. *)
Fixpoint split_from (cur : str) (s : str) : list str :=
  match s with
  | [] => match cur with [] => [] | _ => [rev cur] end
  | c :: s' =>
      if isspace c
      then match cur with [] => split_from [] s' | _ => rev cur :: split_from [] s' end
      else split_from (c :: cur) s'
  end.

Definition split (s : str) : list str := split_from [] s.

(** [a == b] and [a < b] on [str]: by code point, a proper prefix first. *)
Definition str_eqb (a b : str) : bool :=
  if list_eq_dec ascii_dec a b then true else false.

Fixpoint str_ltb (a b : str) : bool :=
  match a, b with
  | _, [] => false
  | [], _ :: _ => true
  | x :: a', y :: b' =>
      if (code x <? code y)%N then true
      else if (code x =? code y)%N then str_ltb a' b'
      else false
  end.

(** [sorted(l)]: a stable ascending sort that, like Python's, only asks
    whether one item is less than another. *)
Section Sorted.
Variable A : Type.
Variable ltb : A -> A -> bool.

Fixpoint insert_asc (x : A) (l : list A) : list A :=
  match l with
  | [] => [x]
  | y :: l' => if ltb y x then y :: insert_asc x l' else x :: y :: l'
  end.

Fixpoint sorted (l : list A) : list A :=
  match l with
  | [] => []
  | x :: l' => insert_asc x (sorted l')
  end.
End Sorted.

(** [str(n)] for an [int]. *)
Definition str_of_int (n : Z) : str :=
  list_ascii_of_string (NilZero.string_of_int (Z.to_int n)).

End Py.

(* ===================================================================== *)
(** * Python floats *)
(* ===================================================================== *)

(** A finite Python [float] is a binary64 number, which is a rational; the
    result of an arithmetic operation is the exact result rounded to the
    nearest binary64 number, ties to the even mantissa.  [round] is that
    rounding for a rational in the range of binary64 (overflow to infinity
    is not modelled; the scores of the pipeline stay far below it).  Its
    result is a fraction in lowest terms. *)
Module Float.
Local Open Scope Z_scope.

(** The integer nearest to [a / b] for [b > 0], ties to even. *)
Definition round_half_even (a b : Z) : Z :=
  let q := a / b in
  let r := a mod b in
  match Z.compare (2 * r) b with
  | Lt => q
  | Gt => q + 1
  | Eq => if Z.even q then q else q + 1
  end.

(** The [l] with [2^l <= n / d < 2^(l+1)]. *)
Definition floor_log2 (n d : positive) : Z :=
  let l := Z.log2 (Zpos n) - Z.log2 (Zpos d) in
  if 0 <=? l
  then (if Zpos d * 2 ^ l <=? Zpos n then l else l - 1)
  else (if Zpos d <=? Zpos n * 2 ^ (- l) then l else l - 1).

(** The binary64 number nearest to [n / d]: a 53-bit mantissa times
    [2^e], where [e] is at least -1074 (the subnormal numbers). *)
Definition round_pos (n d : positive) : Q :=
  let e := Z.max (floor_log2 n d - 52) (-1074) in
  if 0 <=? e
  then inject_Z (round_half_even (Zpos n) (Zpos d * 2 ^ e) * 2 ^ e)
  else Qred (round_half_even (Zpos n * 2 ^ (- e)) (Zpos d)
             # Z.to_pos (2 ^ (- e))).

Definition round (x : Q) : Q :=
  match Qnum x with
  | Z0 => 0%Q
  | Zpos n => round_pos n (Qden x)
  | Zneg n => Qopp (round_pos n (Qden x))
  end.

(** [x + y], [x * y] and [x / y] on floats. *)
Definition add (x y : Q) : Q := round (x + y)%Q.
Definition mul (x y : Q) : Q := round (x * y)%Q.
Definition div (x y : Q) : Q := round (x / y)%Q.

(** The rational that a binary64 number of the kernel stands for
    ([None] for an infinity or a NaN), to compare [round] with the
    arithmetic of the machine. *)
Definition of_binary64 (f : PrimFloat.float) : option Q :=
  match FloatOps.Prim2SF f with
  | SpecFloat.S754_zero _ => Some 0%Q
  | SpecFloat.S754_finite s m e =>
      let z := if s then Zneg m else Zpos m in
      Some (Qred (if 0 <=? e then inject_Z (z * 2 ^ e)
                  else z # Z.to_pos (2 ^ (- e))))
  | _ => None
  end.

(** A Python [int] as a binary64 number. *)
Definition binary64_of_int (n : Z) : PrimFloat.float :=
  PrimFloat.of_uint63 (Uint63.of_Z n).

End Float.

(* ===================================================================== *)
(** * app/services/retrieve.py: the adaptive threshold *)
(* ===================================================================== *)

Module Retrieve.
Local Open Scope Q_scope.

(** The default of the [base_threshold] argument. *)
Definition default_base_threshold : Q := 0.3.

(** [calculate_adaptive_threshold(scores, base_threshold)] *)
Definition calculate_adaptive_threshold (scores : list Q) (base_threshold : Q) : Q :=
  match scores with
  | [] => base_threshold
  | top_score :: _ =>
      if Py.Qltb 0.7 top_score then 0.5
      else if Py.Qltb top_score 0.4 then 0.2
      else base_threshold
  end.

End Retrieve.

(* ===================================================================== *)
(** * hashlib.sha256 *)
(* ===================================================================== *)

Module Sha256.
Local Open Scope Z_scope.

Definition w32 (x : Z) : Z := Z.land x 0xffffffff.
Definition add32 (x y : Z) : Z := w32 (x + y).
Definition rotr (n x : Z) : Z :=
  Z.lor (Z.shiftr x n) (w32 (Z.shiftl x (32 - n))).
Definition Ch (x y z : Z) : Z :=
  Z.lxor (Z.land x y) (Z.land (Z.lxor x 0xffffffff) z).
Definition Maj (x y z : Z) : Z :=
  Z.lxor (Z.lxor (Z.land x y) (Z.land x z)) (Z.land y z).
Definition Sigma0 (x : Z) : Z :=
  Z.lxor (Z.lxor (rotr 2 x) (rotr 13 x)) (rotr 22 x).
Definition Sigma1 (x : Z) : Z :=
  Z.lxor (Z.lxor (rotr 6 x) (rotr 11 x)) (rotr 25 x).
Definition sigma0 (x : Z) : Z :=
  Z.lxor (Z.lxor (rotr 7 x) (rotr 18 x)) (Z.shiftr x 3).
Definition sigma1 (x : Z) : Z :=
  Z.lxor (Z.lxor (rotr 17 x) (rotr 19 x)) (Z.shiftr x 10).

(** The round constants and the initial hash value of FIPS 180-4, written
    in decimal. *)
Definition K256 : list Z :=
  [1116352408; 1899447441; 3049323471; 3921009573;
   961987163; 1508970993; 2453635748; 2870763221;
   3624381080; 310598401; 607225278; 1426881987;
   1925078388; 2162078206; 2614888103; 3248222580;
   3835390401; 4022224774; 264347078; 604807628;
   770255983; 1249150122; 1555081692; 1996064986;
   2554220882; 2821834349; 2952996808; 3210313671;
   3336571891; 3584528711; 113926993; 338241895;
   666307205; 773529912; 1294757372; 1396182291;
   1695183700; 1986661051; 2177026350; 2456956037;
   2730485921; 2820302411; 3259730800; 3345764771;
   3516065817; 3600352804; 4094571909; 275423344;
   430227734; 506948616; 659060556; 883997877;
   958139571; 1322822218; 1537002063; 1747873779;
   1955562222; 2024104815; 2227730452; 2361852424;
   2428436474; 2756734187; 3204031479; 3329325298].

Definition H0 : list Z :=
  [1779033703; 3144134277; 1013904242; 2773480762;
   1359893119; 2600822924; 528734635; 1541459225].

Definition be_bytes (n : nat) (x : Z) : list Z :=
  map (fun i => Z.land (Z.shiftr x (8 * Z.of_nat i)) 0xff) (rev (seq 0 n)).

(** Padding: a 0x80 byte, zero bytes up to 56 modulo 64, then the length in
    bits as 8 big-endian bytes. *)
Definition pad (msg : list Z) : list Z :=
  let len := Z.of_nat (List.length msg) in
  let zeros := Z.to_nat ((55 - len) mod 64) in
  msg ++ [0x80] ++ repeat 0 zeros ++ be_bytes 8 (8 * len).

Definition be_word (b : list Z) : Z :=
  fold_left (fun acc x => Z.lor (Z.shiftl acc 8) x) b 0.

(** The first [n] big-endian 32-bit words of a byte list. *)
Fixpoint words (n : nat) (b : list Z) : list Z :=
  match n with
  | O => []
  | S n' => be_word (firstn 4 b) :: words n' (skipn 4 b)
  end.

(** The message schedule, extended by [n] words; most recent word first. *)
Fixpoint schedule (n : nat) (w : list Z) : list Z :=
  match n with
  | O => w
  | S n' =>
      let wt := add32 (add32 (sigma1 (nth 1 w 0)) (nth 6 w 0))
                      (add32 (sigma0 (nth 14 w 0)) (nth 15 w 0)) in
      schedule n' (wt :: w)
  end.

Definition round (s : list Z) (kw : Z * Z) : list Z :=
  match s with
  | [a; b; c; d; e; f; g; h] =>
      let t1 := add32 (add32 (add32 h (Sigma1 e)) (add32 (Ch e f g) (fst kw)))
                      (snd kw) in
      let t2 := add32 (Sigma0 a) (Maj a b c) in
      [add32 t1 t2; a; b; c; add32 d t1; e; f; g]
  | _ => s
  end.

Definition compress (h : list Z) (block : list Z) : list Z :=
  let w := rev (schedule 48 (rev (words 16 block))) in
  let s := fold_left round (combine K256 w) h in
  map (fun p => add32 (fst p) (snd p)) (combine h s).

Fixpoint blocks (n : nat) (h : list Z) (b : list Z) : list Z :=
  match n with
  | O => h
  | S n' => blocks n' (compress h (firstn 64 b)) (skipn 64 b)
  end.

Definition digest (msg : list Z) : list Z :=
  let p := pad msg in
  blocks (List.length p / 64) H0 p.

Definition hex_digit (x : Z) : ascii :=
  if x <? 10 then ascii_of_N (Z.to_N (48 + x))
  else ascii_of_N (Z.to_N (87 + x)).

Definition hex_word (x : Z) : Py.str :=
  map (fun i => hex_digit (Z.land (Z.shiftr x (4 * Z.of_nat i)) 0xf))
      (rev (seq 0 8)).

(** [s.encode()] for text that is ASCII, which the output of [json.dumps]
    always is: one byte per character. *)
Definition encode (s : Py.str) : list Z :=
  map (fun c => Z.of_N (Py.code c)) s.

(** [hashlib.sha256(b).hexdigest()] *)
Definition hexdigest (b : list Z) : Py.str :=
  flat_map hex_word (digest b).

End Sha256.

(* ===================================================================== *)
(** * json.dumps, as the cache uses it *)
(* ===================================================================== *)

Module Json.
Import Py.

Definition dquote : ascii := "034"%char.
Definition backslash : ascii := "092"%char.

Definition hex_digit (n : N) : ascii :=
  if (n <? 10)%N then ascii_of_N (48 + n) else ascii_of_N (87 + n).

(** One character of a string under [ensure_ascii=True]: the quote and the
    backslash are escaped, five control characters have a short escape,
    the printable ASCII characters stand for themselves and every other
    code point is written [\u00xx]. *)
Definition escape_char (c : ascii) : str :=
  let n := code c in
  if (n =? 34)%N then [backslash; dquote]
  else if (n =? 92)%N then [backslash; backslash]
  else if (n =? 10)%N then [backslash; "n"%char]
  else if (n =? 13)%N then [backslash; "r"%char]
  else if (n =? 9)%N then [backslash; "t"%char]
  else if (n =? 8)%N then [backslash; "b"%char]
  else if (n =? 12)%N then [backslash; "f"%char]
  else if ((32 <=? n) && (n <=? 126))%N then [c]
  else [backslash; "u"%char; "0"%char; "0"%char;
        hex_digit (n / 16); hex_digit (n mod 16)].

Definition dumps_str (s : str) : str :=
  dquote :: flat_map escape_char s ++ [dquote].

(** [sep.join(l)] *)
Fixpoint join (sep : str) (l : list str) : str :=
  match l with
  | [] => []
  | [x] => x
  | x :: l' => x ++ sep ++ join sep l'
  end.

Definition dumps_str_list (l : list str) : str :=
  lit "[" ++ join (lit ", ") (map dumps_str l) ++ lit "]".

Definition dumps_int (n : Z) : str := str_of_int n.

(** The [key_data] dict of the cache. *)
Record key_data := {
  kd_query : str;
  kd_doc_ids : list str;
  kd_top_k : Z
}.

(** [json.dumps(key_data, sort_keys=True)]: the keys in the order
    [doc_ids], [query], [top_k], with the default separators. *)
Definition dumps_key_data (kd : key_data) : str :=
  lit "{" ++ dumps_str (lit "doc_ids") ++ lit ": "
    ++ dumps_str_list (kd_doc_ids kd)
    ++ lit ", " ++ dumps_str (lit "query") ++ lit ": "
    ++ dumps_str (kd_query kd)
    ++ lit ", " ++ dumps_str (lit "top_k") ++ lit ": "
    ++ dumps_int (kd_top_k kd) ++ lit "}".

End Json.

(* ===================================================================== *)
(** * app/services/cache.py: the response cache *)
(* ===================================================================== *)

Module Cache.
Import Py.

(** A [datetime] is a number of microseconds; [timedelta(hours=h)]. *)
Definition datetime := Z.
Definition timedelta_hours (h : Z) : Z := (h * 3600000000)%Z.

Section ResponseCache.
Variable Response : Type.

(** A cache entry, [{"response": ..., "cached_at": ...}]. *)
Record entry := {
  response : Response;
  cached_at : datetime
}.

(** The object state: [self.cache], [self.max_size], [self.ttl_hours]. *)
Record ResponseCache := {
  cache : dict str entry;
  max_size : Z;
  ttl_hours : Z
}.

(** [ResponseCache(max_size, ttl_hours)] *)
Definition init (max_size ttl_hours : Z) : ResponseCache :=
  {| cache := []; max_size := max_size; ttl_hours := ttl_hours |}.

Definition with_cache (c : ResponseCache) (d : dict str entry) : ResponseCache :=
  {| cache := d; max_size := max_size c; ttl_hours := ttl_hours c |}.

(** The dict that is hashed. *)
Definition key_data_of (query : str) (doc_ids : option (list str)) (top_k : Z)
  : Json.key_data :=
  let normalized_query := strip (lower query) in
  let sorted_doc_ids :=
    match doc_ids with
    | None | Some [] => []
    | Some ids => sorted str_ltb ids
    end in
  {| Json.kd_query := normalized_query;
     Json.kd_doc_ids := sorted_doc_ids;
     Json.kd_top_k := top_k |}.

Definition key_string (query : str) (doc_ids : option (list str)) (top_k : Z)
  : str :=
  Json.dumps_key_data (key_data_of query doc_ids top_k).

(** [_generate_cache_key(query, doc_ids, top_k)] *)
Definition _generate_cache_key
  (query : str) (doc_ids : option (list str)) (top_k : Z) : str :=
  Sha256.hexdigest (Sha256.encode (key_string query doc_ids top_k)).

(** [get(query, doc_ids, top_k)] at the time [now]: the returned value and
    the cache afterwards. *)
Definition get (c : ResponseCache) (now : datetime)
  (query : str) (doc_ids : option (list str)) (top_k : Z)
  : option Response * ResponseCache :=
  let cache_key := _generate_cache_key query doc_ids top_k in
  match Py.get str_eqb (cache c) cache_key with
  | Some cached_item =>
      let expiry_time := (cached_at cached_item + timedelta_hours (ttl_hours c))%Z in
      if (now <? expiry_time)%Z then (Some (response cached_item), c)
      else (None, with_cache c (delitem str_eqb (cache c) cache_key))
  | None => (None, c)
  end.

(** [set(query, doc_ids, top_k, response)] at the time [now]: the cache
    afterwards, or [None] when [next(iter(self.cache))] raises because the
    dict is empty. *)
Definition set (c : ResponseCache) (now : datetime)
  (query : str) (doc_ids : option (list str)) (top_k : Z) (r : Response)
  : option ResponseCache :=
  let cache_key := _generate_cache_key query doc_ids top_k in
  let item := {| response := r; cached_at := now |} in
  if (Z.of_nat (List.length (cache c)) >=? max_size c)%Z then
    match first_key (cache c) with
    | None => None
    | Some oldest_key =>
        Some (with_cache c
                (setitem str_eqb (delitem str_eqb (cache c) oldest_key)
                         cache_key item))
    end
  else Some (with_cache c (setitem str_eqb (cache c) cache_key item)).

(** [clear()] *)
Definition clear (c : ResponseCache) : ResponseCache := with_cache c [].

(** [get_stats()]: size, max_size, ttl_hours. *)
Definition get_stats (c : ResponseCache) : Z * Z * Z :=
  (Z.of_nat (List.length (cache c)), max_size c, ttl_hours c).

End ResponseCache.

(** The global instance. *)
Definition _cache (Response : Type) : ResponseCache Response := init Response 500 24.

End Cache.

(* ===================================================================== *)
(** * app/routers/ask.py: how a request reaches the cache *)
(* ===================================================================== *)

Module Ask.
Import Py.

(** The fields of [AskRequest] that select the pipeline.  A flag is kept
    by its truth value: [None] and [False] take the same branch. *)
Record flags := {
  use_hybrid : bool;
  use_reranker : bool;
  use_mmr : bool
}.

(** [cache_key_suffix] *)
Definition cache_key_suffix (f : flags) : str :=
  ((if use_hybrid f then lit "_hybrid" else lit "")
     ++ (if use_reranker f then lit "_reranker" else lit ""))
    ++ (if use_mmr f then lit "_mmr" else lit "").

(** The [query] argument of both [cache.get] and [cache.set]. *)
Definition cache_query (preprocessed_query : str) (f : flags) : str :=
  preprocessed_query ++ cache_key_suffix f.

Section Router.
Variable Response : Type.

Definition cache_get (c : Cache.ResponseCache Response) (now : Cache.datetime)
  (preprocessed_query : str) (f : flags)
  (doc_ids : option (list str)) (top_k : Z) :=
  Cache.get c now (cache_query preprocessed_query f) doc_ids top_k.

Definition cache_set (c : Cache.ResponseCache Response) (now : Cache.datetime)
  (preprocessed_query : str) (f : flags)
  (doc_ids : option (list str)) (top_k : Z) (cache_data : Response) :=
  Cache.set c now (cache_query preprocessed_query f) doc_ids top_k cache_data.
End Router.

End Ask.

(* ===================================================================== *)
(** * Chunks *)
(* ===================================================================== *)

(** A chunk is a dict in the code.  The record keeps the keys the ranking
    stages read or write; a key that may be missing is an [option].  The
    display fields ([doc_id], [page], [title], [filename]) are never read
    by the ranking and are left out.  [num] is the type of the scores. *)
Module Chunks.

Record chunk (num : Type) := {
  id : Z;
  text : Py.str;
  embedding : option (list num);
  score : option num;
  vector_rank : option nat;
  bm25_rank : option nat;
  rrf_score : option num;
  reranker_score : option num;
  original_score : option num;
  mmr_score : option num
}.

Section Setters.
Variable num : Type.
Implicit Types c : chunk num.

Definition set_score c (v : num) : chunk num :=
  {| id := id c; text := text c; embedding := embedding c;
     score := Some v; vector_rank := vector_rank c; bm25_rank := bm25_rank c;
     rrf_score := rrf_score c; reranker_score := reranker_score c;
     original_score := original_score c; mmr_score := mmr_score c |}.

Definition set_vector_rank c (r : nat) : chunk num :=
  {| id := id c; text := text c; embedding := embedding c;
     score := score c; vector_rank := Some r; bm25_rank := bm25_rank c;
     rrf_score := rrf_score c; reranker_score := reranker_score c;
     original_score := original_score c; mmr_score := mmr_score c |}.

Definition set_bm25_rank c (r : nat) : chunk num :=
  {| id := id c; text := text c; embedding := embedding c;
     score := score c; vector_rank := vector_rank c; bm25_rank := Some r;
     rrf_score := rrf_score c; reranker_score := reranker_score c;
     original_score := original_score c; mmr_score := mmr_score c |}.

Definition set_rrf_score c (v : num) : chunk num :=
  {| id := id c; text := text c; embedding := embedding c;
     score := score c; vector_rank := vector_rank c; bm25_rank := bm25_rank c;
     rrf_score := Some v; reranker_score := reranker_score c;
     original_score := original_score c; mmr_score := mmr_score c |}.

Definition set_reranker_score c (v : num) : chunk num :=
  {| id := id c; text := text c; embedding := embedding c;
     score := score c; vector_rank := vector_rank c; bm25_rank := bm25_rank c;
     rrf_score := rrf_score c; reranker_score := Some v;
     original_score := original_score c; mmr_score := mmr_score c |}.

Definition set_original_score c (v : num) : chunk num :=
  {| id := id c; text := text c; embedding := embedding c;
     score := score c; vector_rank := vector_rank c; bm25_rank := bm25_rank c;
     rrf_score := rrf_score c; reranker_score := reranker_score c;
     original_score := Some v; mmr_score := mmr_score c |}.

Definition set_mmr_score c (v : num) : chunk num :=
  {| id := id c; text := text c; embedding := embedding c;
     score := score c; vector_rank := vector_rank c; bm25_rank := bm25_rank c;
     rrf_score := rrf_score c; reranker_score := reranker_score c;
     original_score := original_score c; mmr_score := Some v |}.

(** [c.get("score", default)] *)
Definition get_score c (default : num) : num :=
  match score c with
  | Some v => v
  | None => default
  end.

End Setters.

(** A chunk as it comes from the database. *)
Definition fresh (num : Type) (i : Z) (t : Py.str) (e : option (list num))
  : chunk num :=
  {| id := i; text := t; embedding := e; score := None;
     vector_rank := None; bm25_rank := None; rrf_score := None;
     reranker_score := None; original_score := None; mmr_score := None |}.

End Chunks.

(* ===================================================================== *)
(** * app/services/rrf.py: reciprocal rank fusion *)
(* ===================================================================== *)

Module Rrf.
Import Py Chunks.
Local Open Scope Q_scope.

Definition chunk := Chunks.chunk Q.

(** [1 / n] for a positive [int] [n]: the binary64 quotient. *)
Definition reciprocal (n : nat) : Q := Float.div 1 (inject_Z (Z.of_nat n)).

(** [d[k] += v] on a [defaultdict(float)]: a float addition, to 0.0 when
    the key is new. *)
Definition defaultdict_add (d : dict Z Q) (k : Z) (v : Q) : dict Z Q :=
  setitem Z.eqb d k (match get Z.eqb d k with
                     | Some x => Float.add x v
                     | None => Float.add 0 v
                     end).

Section Fusion.
(** The constant [k]; every caller passes a natural number (60), so the
    denominators are positive and the division does not raise. *)
Variable k : nat.

(** The state of the two loops: [rrf_scores] and [chunk_data].  The lists
    are taken to hold distinct dict objects. *)
Definition state : Type := dict Z Q * dict Z chunk.

(** One pass of the loop over [enumerate(vector_results)]. *)
Definition vector_step (st : state) (rc : nat * chunk) : state :=
  let '(rrf_scores, chunk_data) := st in
  let '(rank, c) := rc in
  let chunk_id := id c in
  let c' := match vector_rank c with
            | None => set_vector_rank c (rank + 1)
            | Some _ => c
            end in
  (defaultdict_add rrf_scores chunk_id (reciprocal (k + rank + 1)),
   setitem Z.eqb chunk_data chunk_id c').

(** One pass of the loop over [enumerate(bm25_results)]. *)
Definition bm25_step (st : state) (rc : nat * chunk) : state :=
  let '(rrf_scores, chunk_data) := st in
  let '(rank, c) := rc in
  let chunk_id := id c in
  let stored := match get Z.eqb chunk_data chunk_id with
                | Some c0 => c0
                | None => c
                end in
  (defaultdict_add rrf_scores chunk_id (reciprocal (k + rank + 1)),
   setitem Z.eqb chunk_data chunk_id (set_bm25_rank stored (rank + 1))).

Definition accumulate (vector_results bm25_results : list chunk) : state :=
  fold_left bm25_step (enumerate bm25_results)
            (fold_left vector_step (enumerate vector_results) ([], [])).

(** The final loop: the chunk of each id, with its fused score. *)
Definition build (chunk_data : dict Z chunk) (sorted_ids : list (Z * Q))
  : list chunk :=
  flat_map (fun it : Z * Q =>
              match get Z.eqb chunk_data (fst it) with
              | Some c => [set_score (set_rrf_score c (snd it)) (snd it)]
              | None => []
              end) sorted_ids.

(** [reciprocal_rank_fusion(vector_results, bm25_results, k)] *)
Definition reciprocal_rank_fusion (vector_results bm25_results : list chunk)
  : list chunk :=
  let '(rrf_scores, chunk_data) := accumulate vector_results bm25_results in
  let sorted_ids := sorted_reverse (@snd Z Q) rrf_scores in
  build chunk_data sorted_ids.

End Fusion.
End Rrf.

(* ===================================================================== *)
(** * app/services/reranker.py: cross-encoder reranking *)
(* ===================================================================== *)

Module Reranker.
Import Py Chunks.
Local Open Scope Q_scope.

Definition chunk := Chunks.chunk Q.

(** The cross-encoder of the sentence_transformers package: [predict]
    scores a batch of (query, text) pairs; [None] is a raised exception. *)
Record CrossEncoder := {
  predict : list (str * str) -> option (list Q)
}.

(** What the loop over [zip(chunks, scores)] does to one chunk. *)
Definition rescore (c : chunk) (s : Q) : chunk :=
  set_score (set_original_score (set_reranker_score c s) (get_score c 0)) s.

(** The list [chunks] after the loop: the chunks that met a score are
    rescored in place, the others are as they were. *)
Fixpoint rescore_all (chunks : list chunk) (scores : list Q) : list chunk :=
  match chunks, scores with
  | c :: cs, s :: ss => rescore c s :: rescore_all cs ss
  | _, _ => chunks
  end.

(** [sorted(chunks, key=lambda x: x["reranker_score"], reverse=True)];
    the key lookup raises on a chunk without [reranker_score]. *)
Definition sort_by_reranker_score (chunks : list chunk) : option (list chunk) :=
  if forallb (fun c => match reranker_score c with
                       | Some _ => true
                       | None => false
                       end) chunks
  then Some (sorted_reverse
               (fun c => match reranker_score c with
                         | Some s => s
                         | None => 0
                         end) chunks)
  else None.

Section Rerank.
(** [get_reranker()]: the loaded model, or [None] when loading it raises. *)
Variable get_reranker : option CrossEncoder.

(** [rerank_chunks(query, chunks, top_k)].  Every exception inside the
    [try] ends in [chunks[:top_k]], where [chunks] is the list as the loop
    left it. *)
Definition rerank_chunks (query : str) (chunks : list chunk) (top_k : Z)
  : list chunk :=
  match chunks with
  | [] => []
  | _ :: _ =>
      match get_reranker with
      | None => slice_to chunks top_k
      | Some reranker =>
          let pairs := map (fun c => (query, text c)) chunks in
          match predict reranker pairs with
          | None => slice_to chunks top_k
          | Some scores =>
              let chunks' := rescore_all chunks scores in
              match sort_by_reranker_score chunks' with
              | None => slice_to chunks' top_k
              | Some all_sorted =>
                  match slice_to all_sorted top_k with
                  | [] => slice_to chunks' top_k
                  | reranked => reranked
                  end
              end
          end
      end
  end.

End Rerank.
End Reranker.

(* ===================================================================== *)
(** * app/services/hybrid_search.py: BM25 scores *)
(* ===================================================================== *)

Module HybridSearch.
Import Py Chunks.
Local Open Scope Q_scope.

Definition chunk := Chunks.chunk Q.

(** [max(l)]: the first greatest item; raises on an empty list. *)
Definition py_max (l : list Q) : option Q :=
  match l with
  | [] => None
  | x :: l' => Some (fold_left (fun m y => if Qltb m y then y else m) l' x)
  end.

Section Bm25.
(** [BM25Okapi(tokenized_corpus).get_scores(tokenized_query)] of the
    rank_bm25 package: one raw score per document. *)
Variable get_scores : list (list str) -> list str -> list Q.

(** [_compute_bm25_scores(query, chunks)]; [None] when [max] raises.  The
    quotient [score / max_score] is the binary64 one. *)
Definition _compute_bm25_scores (query : str) (chunks : list chunk)
  : option (list Q) :=
  let tokenized_corpus := map (fun c => split (lower (text c))) chunks in
  let tokenized_query := split (lower query) in
  let raw_scores := get_scores tokenized_corpus tokenized_query in
  match py_max raw_scores with
  | None => None
  | Some m =>
      let max_score := if Qltb 0 m then m else 1 in
      Some (map (fun s => Float.div s max_score) raw_scores)
  end.

End Bm25.

Section CosineSimilarity.
(** The built-in [sum] on a list of floats and [x ** y] on floats.  What
    they return depends on the interpreter and on the C library ([sum] adds
    from left to right, with a compensated sum since Python 3.12; [**] is
    the [pow] of the C library), so both are taken as given. *)
Variable py_sum : list Q -> Q.
Variable py_pow : Q -> Q -> Q.

(** [_cosine_similarity(vec1, vec2)], for vectors given as lists of floats.
    [None] when the division raises: the product of two magnitudes that are
    not 0.0 can round to 0.0. *)
Definition _cosine_similarity (vec1 vec2 : list Q) : option Q :=
  let dot_product :=
    py_sum (map (fun p => Float.mul (fst p) (snd p)) (combine vec1 vec2)) in
  let magnitude1 := py_pow (py_sum (map (fun a => Float.mul a a) vec1)) 0.5 in
  let magnitude2 := py_pow (py_sum (map (fun b => Float.mul b b) vec2)) 0.5 in
  if Qeq_bool magnitude1 0 || Qeq_bool magnitude2 0 then Some 0
  else
    let product := Float.mul magnitude1 magnitude2 in
    if Qeq_bool product 0 then None
    else
      let similarity := Float.div dot_product product in
      (* min(1.0, similarity), then max(0.0, ...) *)
      let capped := if Qltb similarity 1 then similarity else 1 in
      Some (if Qltb 0 capped then capped else 0).

End CosineSimilarity.
End HybridSearch.

(* ===================================================================== *)
(** * app/services/mmr.py: cosine similarity *)
(* ===================================================================== *)

(** The arithmetic of numpy is read over the reals: a sum of products for
    [np.dot], the square root of a sum of squares for [np.linalg.norm].
    Its rounding is not modelled; what is stated about MMR concerns which
    scores are compared, chosen and stored. *)
Module Cosine.
Local Open Scope R_scope.

(** The sum of a list, from left to right. *)
Definition py_sum (l : list R) : R := fold_left Rplus l 0.

(** [np.dot(v1, v2)] and the square of [np.linalg.norm(v)] *)
Definition dot (vec1 vec2 : list R) : R :=
  py_sum (map (fun p => fst p * snd p) (combine vec1 vec2)).

Definition sum_squares (vec : list R) : R :=
  py_sum (map (fun a => a * a) vec).

(** [cosine_similarity_np(vec1, vec2)] of mmr.py; [None] when [np.dot]
    raises because the lengths differ. *)
Definition cosine_similarity_np (vec1 vec2 : list R) : option R :=
  if Nat.eqb (List.length vec1) (List.length vec2) then
    let dot_product := dot vec1 vec2 in
    let norm1 := sqrt (sum_squares vec1) in
    let norm2 := sqrt (sum_squares vec2) in
    if Req_dec_T norm1 0 then Some 0
    else if Req_dec_T norm2 0 then Some 0
    else Some (dot_product / (norm1 * norm2))
  else None.

End Cosine.

(* ===================================================================== *)
(** * app/services/mmr.py: maximal marginal relevance *)
(* ===================================================================== *)

Module Mmr.
Import Py Chunks Cosine.
Local Open Scope R_scope.

Definition chunk := Chunks.chunk R.

(** [max(l)] for a non-empty list, and [np.argmax(l)]: the first greatest
    item and its index. *)
Definition max_of (x : R) (l : list R) : R :=
  fold_left (fun m y => if Rlt_dec m y then y else m) l x.

Fixpoint argmax_from (best : nat) (best_v : R) (i : nat) (l : list R) : nat :=
  match l with
  | [] => best
  | x :: l' =>
      if Rlt_dec best_v x then argmax_from i x (S i) l'
      else argmax_from best best_v (S i) l'
  end.

Definition argmax (l : list R) : nat :=
  match l with
  | [] => O
  | x :: l' => argmax_from 0 x 1 l'
  end.

(** A list comprehension whose body may raise. *)
Fixpoint traverse (A B : Type) (f : A -> option B) (l : list A)
  : option (list B) :=
  match l with
  | [] => Some []
  | x :: l' =>
      match f x with
      | None => None
      | Some y =>
          match traverse f l' with
          | None => None
          | Some ys => Some (y :: ys)
          end
      end
  end.

(** [s.get("embedding", [])] *)
Definition embedding_or_empty (s : chunk) : list R :=
  match embedding s with
  | Some e => e
  | None => []
  end.

(** [l.pop(i)]: the list without its item at [i]. *)
Fixpoint remove_at (A : Type) (i : nat) (l : list A) : list A :=
  match l, i with
  | [], _ => []
  | _ :: l', O => l'
  | x :: l', S i' => x :: remove_at i' l'
  end.

Section Diversify.
Variable query_embedding : list R.
Variable lambda_param : R.

(** The body of the loop over [remaining]: the MMR score of one chunk. *)
Definition mmr_score_of (selected : list chunk) (c : chunk) : option R :=
  match embedding c with
  | None | Some [] => Some (get_score c 0)
  | Some chunk_emb =>
      match cosine_similarity_np query_embedding chunk_emb with
      | None => None
      | Some relevance =>
          match selected with
          | [] => Some (lambda_param * relevance - (1 - lambda_param) * 0)
          | s0 :: ss =>
              match traverse
                      (fun s => cosine_similarity_np chunk_emb (embedding_or_empty s))
                      selected with
              | None => None
              | Some [] => Some (lambda_param * relevance - (1 - lambda_param) * 0)
              | Some (x :: xs) =>
                  Some (lambda_param * relevance
                        - (1 - lambda_param) * max_of x xs)
              end
          end
      end
  end.

(** The [while] loop.  A chunk travels with its place in [chunks], so that
    the marks made before an exception can be put back on the input list.
    The result is the list [selected] and whether the loop ran to its end
    ([true]) or raised ([false]). *)
Fixpoint mmr_loop (fuel : nat) (selected remaining : list (nat * chunk))
  : bool * list (nat * chunk) :=
  match fuel, remaining with
  | O, _ => (true, selected)
  | _, [] => (true, selected)
  | S fuel', r0 :: _ =>
      match traverse (mmr_score_of (map snd selected)) (map snd remaining) with
      | None => (false, selected)
      | Some mmr_scores =>
          let best_idx := argmax mmr_scores in
          let best := nth best_idx remaining r0 in
          let best_chunk :=
            set_mmr_score (snd best) (nth best_idx mmr_scores 0) in
          mmr_loop fuel' (selected ++ [(fst best, best_chunk)])
                   (remove_at best_idx remaining)
      end
  end.

(** The input list as the loop left it: a selected chunk carries its
    [mmr_score]. *)
Definition marked (chunks : list chunk) (selected : list (nat * chunk))
  : list chunk :=
  map (fun ic : nat * chunk =>
         match find (fun s : nat * chunk => Nat.eqb (fst s) (fst ic)) selected with
         | Some s => snd s
         | None => snd ic
         end)
      (enumerate chunks).

(** [mmr_diversify(chunks, query_embedding, top_k, lambda_param)] *)
Definition mmr_diversify (chunks : list chunk) (top_k : Z) : list chunk :=
  match chunks, query_embedding with
  | [], _ | _, [] => slice_to chunks top_k
  | _ :: _, _ :: _ =>
      if (Z.of_nat (List.length chunks) <=? top_k)%Z then chunks
      else
        match mmr_loop (Z.to_nat top_k) [] (enumerate chunks) with
        | (true, selected) => map snd selected
        | (false, selected) => slice_to (marked chunks selected) top_k
        end
  end.

End Diversify.
End Mmr.

(* ===================================================================== *)
(** * app/services/retrieve.py: vector search *)
(* ===================================================================== *)

Module Search.
Import Py Retrieve.
Local Open Scope Q_scope.

Definition chunk := Chunks.chunk Q.

(** [[r["score"] for r in all_results]]; a row without the key raises
    [KeyError]. *)
Fixpoint scores_of (all_results : list chunk) : option (list Q) :=
  match all_results with
  | [] => Some []
  | r :: rest =>
      match Chunks.score r, scores_of rest with
      | Some s, Some l => Some (s :: l)
      | _, _ => None
      end
  end.

(** [[r for r in all_results if r["score"] >= adaptive_threshold]] *)
Fixpoint above (adaptive_threshold : Q) (all_results : list chunk)
  : option (list chunk) :=
  match all_results with
  | [] => Some []
  | r :: rest =>
      match Chunks.score r, above adaptive_threshold rest with
      | Some s, Some l =>
          Some (if Qle_bool adaptive_threshold s then r :: l else l)
      | _, _ => None
      end
  end.

Section SearchTopK.
(** The query embedding, [embed_query], and the database: the rows that the
    query returns for an embedding, a document filter and a limit.  Both may
    raise. *)
Variable Vec : Type.
Variable embed_query : str -> option Vec.
Variable execute : Vec -> option (list str) -> Z -> option (list chunk).
(** [settings.MIN_SIMILARITY_SCORE] *)
Variable MIN_SIMILARITY_SCORE : Q.

(** [search_top_k(query, k, doc_ids, min_score)]; [None] when an exception
    leaves the function. *)
Definition search_top_k
  (query : str) (k : Z) (doc_ids : option (list str)) (min_score : option Q)
  : option (list chunk) :=
  let min_score :=
    match min_score with
    | None => MIN_SIMILARITY_SCORE
    | Some m => m
    end in
  match embed_query query with
  | None => None
  | Some query_vec =>
      let where_doc_ids :=
        match doc_ids with
        | Some (d :: ds) => Some (d :: ds)
        | _ => None
        end in
      match execute query_vec where_doc_ids k with
      | None => None
      | Some all_results =>
          match scores_of all_results with
          | None => None
          | Some scores =>
              let adaptive_threshold :=
                calculate_adaptive_threshold scores min_score in
              above adaptive_threshold all_results
          end
      end
  end.

End SearchTopK.
End Search.

(* ===================================================================== *)
(** * app/services/hybrid_search.py: the hybrid search *)
(* ===================================================================== *)

Module Hybrid.
Import Py Chunks HybridSearch.

(** [[(chunks[i], scores[i]) for i in range(len(chunks))]]: an
    [IndexError] when there are fewer scores than chunks. *)
Fixpoint pair_up (S : Type) (chunks : list chunk) (scores : list S)
  : option (list (chunk * S)) :=
  match chunks, scores with
  | [], _ => Some []
  | c :: cs, s :: ss =>
      match pair_up cs ss with
      | Some l => Some ((c, s) :: l)
      | None => None
      end
  | _ :: _, [] => None
  end.

Section HybridSearch.
(** The database ([_fetch_all_chunks], which returns [[]] when the query
    fails), the BM25 index of the rank_bm25 package, the embedding model
    ([None] when it raises), and the [sum] and [**] of the interpreter. *)
Variable _fetch_all_chunks : option (list str) -> list chunk.
Variable get_scores : list (list str) -> list str -> list Q.
Variable embed_query : str -> option (list Q).
Variable py_sum : list Q -> Q.
Variable py_pow : Q -> Q -> Q.

(** [_compute_vector_scores(query, chunks)].  A chunk whose embedding is
    missing or [None] makes the function raise, and so does a similarity
    that raises. *)
Definition _compute_vector_scores (query : str) (chunks : list chunk)
  : option (list Q) :=
  match embed_query query with
  | None => None
  | Some query_vec =>
      Mmr.traverse
        (fun c : chunk =>
           match embedding c with
           | Some chunk_vec =>
               _cosine_similarity py_sum py_pow query_vec chunk_vec
           | None => None
           end)
        chunks
  end.

(** [hybrid_search(query, k, doc_ids, vector_weight, bm25_weight,
    min_score)].  The two weights and [min_score] are never read after
    [min_score] has been given its default. *)
Definition hybrid_search
  (query : str) (k : Z) (doc_ids : option (list str))
  (vector_weight bm25_weight : Q) (min_score : option Q)
  : option (list chunk) :=
  let chunks := _fetch_all_chunks doc_ids in
  match chunks with
  | [] => Some []
  | _ :: _ =>
      match _compute_bm25_scores get_scores query chunks with
      | None => None
      | Some bm25_scores =>
          match pair_up chunks bm25_scores with
          | None => None
          | Some bm25_ranked =>
              let bm25_results :=
                map fst (sorted_reverse (@snd chunk Q) bm25_ranked) in
              match _compute_vector_scores query chunks with
              | None => None
              | Some vector_scores =>
                  match pair_up chunks vector_scores with
                  | None => None
                  | Some vector_ranked =>
                      let vector_results :=
                        map fst (sorted_reverse (@snd chunk Q) vector_ranked) in
                      let combined_results :=
                        Rrf.reciprocal_rank_fusion 60 vector_results bm25_results in
                      Some (slice_to combined_results k)
                  end
              end
          end
      end
  end.

End HybridSearch.
End Hybrid.

(* ===================================================================== *)
(** * Vocabulary of the statements *)
(* ===================================================================== *)

Module FloatSpec.

(** The same fraction, numerator and denominator. *)
Definition same (x y : Q) : bool :=
  (Qnum x =? Qnum y)%Z && (Qden x =? Qden y)%positive.

(** The integers [start], [start + 1], ..., [n] of them. *)
Fixpoint upto (start : Z) (n : nat) : list Z :=
  match n with
  | O => []
  | S n' => start :: upto (start + 1)%Z n'
  end.

End FloatSpec.

(** What the statements about the cache key call equal requests. *)
Module KeySpec.
Import Py.

(** A string of white space only. *)
Definition all_space (w : str) : Prop := Forall (fun c => isspace c = true) w.

(** The same text up to the case of its letters. *)
Definition same_letters (a b : str) : Prop :=
  Forall2 (fun x y => lower_char x = lower_char y) a b.

(** The same query up to surrounding white space and letter case. *)
Definition same_query (q1 q2 : str) : Prop :=
  exists l1 c1 r1 l2 c2 r2,
    q1 = l1 ++ c1 ++ r1 /\ q2 = l2 ++ c2 ++ r2 /\
    all_space l1 /\ all_space r1 /\ all_space l2 /\ all_space r2 /\
    same_letters c1 c2.

(** The document ids of a request; a missing list counts as empty. *)
Definition ids_of (d : option (list str)) : list str :=
  match d with
  | None => []
  | Some l => l
  end.

(** The same ids as sets: order and repetition do not count. *)
Definition same_id_set (d1 d2 : option (list str)) : Prop :=
  forall x, In x (ids_of d1) <-> In x (ids_of d2).

(** The same ids in any order, each as often in one list as in the other. *)
Definition same_ids_reordered (d1 d2 : option (list str)) : Prop :=
  Permutation (ids_of d1) (ids_of d2).

(** A reader for the head of an escaped JSON string: the first character
    and what follows it, [None] at the closing quote. *)
Definition hex_value (c : ascii) : N :=
  let n := code c in
  if (n <? 58)%N then (n - 48)%N else (n - 87)%N.

Definition unescape_head (s : str) : option (ascii * str) :=
  match s with
  | [] => None
  | c :: s' =>
      if (code c =? 92)%N then
        match s' with
        | [] => None
        | e :: s'' =>
            let m := code e in
            if (m =? 34)%N then Some (Json.dquote, s'')
            else if (m =? 92)%N then Some (Json.backslash, s'')
            else if (m =? 110)%N then Some (ascii_of_N 10, s'')
            else if (m =? 114)%N then Some (ascii_of_N 13, s'')
            else if (m =? 116)%N then Some (ascii_of_N 9, s'')
            else if (m =? 98)%N then Some (ascii_of_N 8, s'')
            else if (m =? 102)%N then Some (ascii_of_N 12, s'')
            else
              match s'' with
              | _ :: _ :: h :: l :: s3 =>
                  Some (ascii_of_N (16 * hex_value h + hex_value l), s3)
              | _ => None
              end
        end
      else if (code c =? 34)%N then None
      else Some (c, s')
  end.

End KeySpec.

(** What the specification says of rank fusion. *)
Module RrfSpec.
Import Py.
Local Open Scope Q_scope.

(** The 0-based place of the first [i] in [l]. *)
Fixpoint index_of (i : Z) (l : list Z) : option nat :=
  match l with
  | [] => None
  | x :: l' =>
      if Z.eqb x i then Some O
      else match index_of i l' with
           | Some n => Some (S n)
           | None => None
           end
  end.

(** What one ranked list gives to [i]: the float [1/(k + rank)] at its
    1-indexed rank, nothing when [i] is not in the list. *)
Definition rank_term (k : nat) (l : list Z) (i : Z) : option Q :=
  match index_of i l with
  | Some n => Some (Rrf.reciprocal (k + n + 1))
  | None => None
  end.

(** [acc += share] for an entry that springs from 0.0. *)
Definition add_share (acc share : option Q) : option Q :=
  match share with
  | Some s => Some (Float.add match acc with Some x => x | None => 0 end s)
  | None => acc
  end.

(** The fused score of [i] as the code computes it: the share of the
    vector list is added to 0.0 first, then the share of the BM25 list. *)
Definition rrf (k : nat) (vector_ids bm25_ids : list Z) (i : Z) : Q :=
  match add_share (add_share None (rank_term k vector_ids i))
                  (rank_term k bm25_ids i) with
  | Some s => s
  | None => 0
  end.

(** The fused score of [i] as a sum of exact fractions. *)
Definition rrf_exact (k : nat) (vector_ids bm25_ids : list Z) (i : Z) : Q :=
  match index_of i vector_ids with
  | Some n => 1 # Pos.of_nat (k + n + 1)
  | None => 0
  end
  + match index_of i bm25_ids with
    | Some n => 1 # Pos.of_nat (k + n + 1)
    | None => 0
    end.

(** The ids in the order of their first appearance, skipping those in
    [seen]. *)
Fixpoint first_seen_from (seen : list Z) (l : list Z) : list Z :=
  match l with
  | [] => []
  | x :: l' =>
      if existsb (Z.eqb x) seen then first_seen_from seen l'
      else x :: first_seen_from (x :: seen) l'
  end.

(** The order in which the two loops first meet each id: the vector list,
    then the BM25 list. *)
Definition first_seen (vector_ids bm25_ids : list Z) : list Z :=
  first_seen_from [] (vector_ids ++ bm25_ids).

(** The fused score a result carries. *)
Definition fused (c : Rrf.chunk) : Q :=
  match Chunks.rrf_score c with
  | Some s => s
  | None => 0
  end.

(** The pairs (id, share) that the loop over one enumerated list adds to
    [rrf_scores], and the dict after adding a list of them. *)
Definition shares (k : nat) (rcs : list (nat * Rrf.chunk)) : list (Z * Q) :=
  map (fun rc => (Chunks.id (snd rc), Rrf.reciprocal (k + fst rc + 1))) rcs.

Definition add_all (d : dict Z Q) (cs : list (Z * Q)) : dict Z Q :=
  fold_left (fun d it => Rrf.defaultdict_add d (fst it) (snd it)) cs d.

(** The entry of [i] after the shares of a list of pairs have been added
    to it, one after the other. *)
Fixpoint sum_for (i : Z) (cs : list (Z * Q)) (acc : option Q) : option Q :=
  match cs with
  | [] => acc
  | it :: cs' =>
      sum_for i cs' (if Z.eqb (fst it) i then add_share acc (Some (snd it))
                     else acc)
  end.

(** Every scored id has its chunk in [chunk_data], filed under its id. *)
Definition data_ok (st : Rrf.state) : Prop :=
  (forall i, In i (keys (fst st)) -> get Z.eqb (snd st) i <> None) /\
  (forall i c, get Z.eqb (snd st) i = Some c -> Chunks.id c = i).

(** The chunks of the specification's example. *)
Definition chunk_A : Rrf.chunk := Chunks.fresh 1 (lit "A") None.
Definition chunk_B : Rrf.chunk := Chunks.fresh 2 (lit "B") None.
Definition chunk_C : Rrf.chunk := Chunks.fresh 3 (lit "C") None.

(** A ranked list of chunks with the given ids. *)
Definition ranked (ids : list Z) : list Rrf.chunk :=
  map (fun i => Chunks.fresh i [] None) ids.

(** Two rankings in which the ids 12 and 39 have the same exact fused
    score, 1/72 + 1/88 = 1/99 + 1/66: id 12 at the ranks 12 and 28, id 39
    at the ranks 39 and 6. *)
Definition tie_vector : list Z :=
  [1; 2; 3; 4; 5; 6; 7; 8; 9; 10; 11; 12; 13; 14; 15; 16; 17; 18; 19; 20;
   21; 22; 23; 24; 25; 26; 27; 28; 29; 30; 31; 32; 33; 34; 35; 36; 37; 38;
   39]%Z.
Definition tie_bm25 : list Z :=
  [40; 41; 42; 43; 44; 39; 45; 46; 47; 48; 49; 50; 51; 52; 53; 54; 55; 56;
   57; 58; 59; 60; 61; 62; 63; 64; 65; 12]%Z.

End RrfSpec.

(** What the statements about MMR speak of. *)
Module MmrSpec.
Import Py Chunks.
Local Open Scope R_scope.

(** A chunk whose [embedding] is missing, [None] or empty: the case
    [not chunk_emb] of the code. *)
Definition no_embedding (c : Mmr.chunk) : Prop :=
  embedding c = None \/ embedding c = Some [].

(** A chunk as a selected item of the result: the input chunk with its
    prior score (0.0 when it has none) recorded as [mmr_score]. *)
Definition picked (c0 : Mmr.chunk) : Mmr.chunk :=
  set_mmr_score c0 (get_score c0 0).

(** Two candidates without embeddings, with prior scores 0.5 and 0.2. *)
Definition plain_1 : Mmr.chunk := set_score (fresh 1 (lit "first") None) 0.5.
Definition plain_2 : Mmr.chunk := set_score (fresh 2 (lit "second") None) 0.2.

End MmrSpec.

(** Sequences of calls to the cache. *)
Module CacheRuns.
Import Py Cache.

Section Runs.
Variable Response : Type.

(** One request together with the time it arrives and the response that
    is stored for it. *)
Record call := {
  at_time : datetime;
  query : str;
  doc_ids : option (list str);
  top_k : Z;
  payload : Response
}.

Definition key_of (x : call) : str :=
  _generate_cache_key (query x) (doc_ids x) (top_k x).

Definition set_call (c : ResponseCache Response) (x : call)
  : option (ResponseCache Response) :=
  set c (at_time x) (query x) (doc_ids x) (top_k x) (payload x).

Definition get_call (c : ResponseCache Response) (now : datetime) (x : call)
  : option Response * ResponseCache Response :=
  get c now (query x) (doc_ids x) (top_k x).

(** The calls of a list, one [set] after the other. *)
Fixpoint set_many (c : ResponseCache Response) (l : list call)
  : option (ResponseCache Response) :=
  match l with
  | [] => Some c
  | x :: l' =>
      match set_call c x with
      | Some c' => set_many c' l'
      | None => None
      end
  end.

End Runs.
End CacheRuns.

(** Any use of one cache: a sequence of [get], [set] and [clear] calls. *)
Module CacheOps.
Import Py Cache.

Section Ops.
Variable Response : Type.

Inductive op :=
| Get (now : datetime) (query : str) (doc_ids : option (list str)) (top_k : Z)
| Put (now : datetime) (query : str) (doc_ids : option (list str)) (top_k : Z)
      (r : Response)
| Clear.

(** One call; [None] when it raises. *)
Definition step (c : ResponseCache Response) (o : op)
  : option (ResponseCache Response) :=
  match o with
  | Get now q d k => Some (snd (get c now q d k))
  | Put now q d k r => set c now q d k r
  | Clear => Some (clear c)
  end.

Fixpoint run (c : ResponseCache Response) (l : list op)
  : option (ResponseCache Response) :=
  match l with
  | [] => Some c
  | o :: l' =>
      match step c o with
      | Some c' => run c' l'
      | None => None
      end
  end.

(** What every call keeps true of a cache created with [max_size = m] and
    [ttl_hours = ttl]. *)
Definition well_formed (m ttl : Z) (c : ResponseCache Response) : Prop :=
  max_size c = m /\ ttl_hours c = ttl /\
  (Z.of_nat (List.length (cache c)) <= m)%Z /\ NoDup (keys (cache c)).

End Ops.
End CacheOps.

(** Rows as the database returns them for [ORDER BY distance]: every row has
    a score and the scores do not increase. *)
Module SearchSpec.
Import Search.
Local Open Scope Q_scope.

Fixpoint descending (rows : list chunk) : Prop :=
  match rows with
  | [] => True
  | r :: rest =>
      (exists s, Chunks.score r = Some s /\
                 forall r', In r' rest ->
                            exists s', Chunks.score r' = Some s' /\ s' <= s)
      /\ descending rest
  end.

(** A row with a score and nothing else, for examples. *)
Definition row (i : Z) (s : Q) : chunk :=
  Chunks.set_score (@Chunks.fresh Q i [] None) s.

End SearchSpec.

(** What the result of the MMR selection is made of. *)
Module MmrShape.
Import Chunks.
Local Open Scope R_scope.

(** [c] is the input chunk [c0], possibly with an [mmr_score] written by
    the loop. *)
Definition marked_copy (c0 c : Mmr.chunk) : Prop :=
  c = c0 \/ exists v, c = set_mmr_score c0 v.

(** Every chunk of [result] is a copy of the chunk at some place of
    [chunks], and no place is used twice. *)
Definition drawn_from (chunks result : list Mmr.chunk) : Prop :=
  exists places : list nat,
    NoDup places /\
    Forall2 (fun i c => exists c0, nth_error chunks i = Some c0 /\
                                   marked_copy c0 c)
            places result.

(** Chunks in descending order of their [score] (0.0 when missing). *)
Definition by_score_descending (chunks : list Mmr.chunk) : Prop :=
  StronglySorted (fun a b => get_score b 0 <= get_score a 0) chunks.

End MmrShape.

(** How the two input rankings and the fused ranking place two ids. *)
Module RrfOrder.
Import RrfSpec.

(** [a] stands somewhere before [b] in [l]. *)
Definition precedes (l : list Z) (a b : Z) : Prop :=
  exists l1 l2 l3, l = l1 ++ a :: l2 ++ b :: l3.

(** The ranking [l] puts [a] above [b]: [a] is in [l], and [b] is further
    down or not in [l] at all. *)
Definition ranked_above (l : list Z) (a b : Z) : Prop :=
  exists n, index_of a l = Some n /\
            match index_of b l with
            | Some m => (n < m)%nat
            | None => True
            end.

(** The chunk as the vector loop stores it at 0-based place [n]: the rank is
    written only when the chunk has none. *)
Definition with_vector_rank (n : nat) (c : Rrf.chunk) : Rrf.chunk :=
  match Chunks.vector_rank c with
  | None => Chunks.set_vector_rank c (n + 1)
  | Some _ => c
  end.

End RrfOrder.

(* ===================================================================== *)
(** * Properties *)
(* ===================================================================== *)

(** ** The rounding of floats *)

Module FloatFacts.

Local Open Scope Z_scope.

Lemma round_half_even_mono (a b a' b' : Z) :
  0 < b -> 0 < b' -> a * b' <= a' * b ->
  Float.round_half_even a b <= Float.round_half_even a' b'.
Proof.
  intros Hb Hb' H. unfold Float.round_half_even. cbv zeta.
  pose proof (Z.div_mod a b ltac:(lia)) as Ea.
  pose proof (Z.div_mod a' b' ltac:(lia)) as Ea'.
  pose proof (Z.mod_pos_bound a b Hb) as Ra.
  pose proof (Z.mod_pos_bound a' b' Hb') as Ra'.
  set (q := a / b) in *. set (r := a mod b) in *.
  set (q' := a' / b') in *. set (r' := a' mod b') in *.
  assert (Hbb : 0 < b * b') by (apply Z.mul_pos_pos; assumption).
  assert (Hrb : 0 <= r * b') by (apply Z.mul_nonneg_nonneg; lia).
  assert (Hrb' : r' * b < b' * b) by (apply Z.mul_lt_mono_pos_r; lia).
  assert (Hrb2 : 0 <= r' * b) by (apply Z.mul_nonneg_nonneg; lia).
  assert (Hrb3 : r * b' < b * b') by (apply Z.mul_lt_mono_pos_r; lia).
  rewrite Ea, Ea' in H.
  assert (Hq : q <= q').
  { destruct (Z_le_gt_dec q q') as [|G]; [assumption|exfalso].
    assert (b * b' * (q' + 1) <= b * b' * q)
      by (apply Z.mul_le_mono_nonneg_l; lia).
    lia. }
  destruct (Z.eq_dec q q') as [E|N].
  - rewrite <- E in *.
    assert (Hr : r * b' <= r' * b) by lia.
    destruct (Z.compare_spec (2 * r) b) as [C|C|C];
      destruct (Z.compare_spec (2 * r') b') as [C'|C'|C'];
      try destruct (Z.even q); try lia; exfalso;
      try (assert (2 * r' * b < b' * b) by (apply Z.mul_lt_mono_pos_r; lia));
      try (assert (b * b' < 2 * r * b') by (apply Z.mul_lt_mono_pos_r; lia));
      try (assert (2 * r' * b = b' * b) by (rewrite C'; reflexivity));
      try (assert (b * b' = 2 * r * b') by (rewrite C; reflexivity));
      lia.
  - assert (q + 1 <= q') by lia.
    destruct (Z.compare_spec (2 * r) b) as [C|C|C];
      destruct (Z.compare_spec (2 * r') b') as [C'|C'|C'];
      try destruct (Z.even q); try destruct (Z.even q'); lia.
Qed.


Lemma round_half_even_exact (m b : Z) :
  0 < b -> Float.round_half_even (m * b) b = m.
Proof.
  intro Hb. unfold Float.round_half_even. cbv zeta.
  rewrite Z.div_mul, Z.mod_mul by lia.
  destruct (Z.compare_spec (2 * 0) b); lia.
Qed.

Local Open Scope Q_scope.

(** The integer nearest to a rational. *)
Local Abbreviation nearest q := (Float.round_half_even (Qnum q) (Zpos (Qden q))).

Lemma nearest_mono (x y : Q) : x <= y -> (nearest x <= nearest y)%Z.
Proof. intro H. apply round_half_even_mono; [reflexivity|reflexivity|exact H]. Qed.

Lemma nearest_eq (x y : Q) : x == y -> nearest x = nearest y.
Proof.
  intro H. apply Z.le_antisymm; apply nearest_mono; rewrite H; apply Qle_refl.
Qed.

Lemma nearest_Z (m : Z) : nearest (inject_Z m) = m.
Proof.
  cbn [inject_Z Qnum Qden]. rewrite <- (Z.mul_1_r m) at 1.
  now apply round_half_even_exact.
Qed.

Lemma round_half_even_nearest (a : Z) (b : positive) :
  Float.round_half_even a (Zpos b) = nearest (a # b).
Proof. reflexivity. Qed.

(** Powers of two. *)
Lemma pow2_pos (e : Z) : 0 < 2 ^ e.
Proof. now apply Qpower_0_lt. Qed.

Lemma pow2_inject (e : Z) : (0 <= e)%Z -> inject_Z (2 ^ e) == 2 ^ e.
Proof. intro H. now rewrite Zpower_Qpower. Qed.

Lemma pow2_add (a b : Z) : 2 ^ (a + b) == 2 ^ a * 2 ^ b.
Proof. apply Qpower_plus. discriminate. Qed.

Lemma pow2_opp (e : Z) : 2 ^ (- e) == / 2 ^ e.
Proof. apply Qpower_opp. Qed.

Lemma pow2_cancel (e : Z) : 2 ^ e * 2 ^ (- e) == 1.
Proof. rewrite <- pow2_add, Z.add_opp_diag_r. reflexivity. Qed.

Lemma pow2_le (a b : Z) : (a <= b)%Z -> 2 ^ a <= 2 ^ b.
Proof. intro H. apply Qpower_le_compat_l; [exact H|discriminate]. Qed.

Lemma pow2_lt_inv (a b : Z) : 2 ^ a < 2 ^ b -> (a < b)%Z.
Proof. intro H. eapply Qpower_lt_compat_l_inv; [exact H|reflexivity]. Qed.

Lemma Zpos_pow2 (e : Z) : (0 <= e)%Z -> Zpos (Z.to_pos (2 ^ e)) = (2 ^ e)%Z.
Proof. intro H. apply Z2Pos.id. now apply Z.pow_pos_nonneg. Qed.

(** [floor_log2] *)
Lemma log2_bounds (p : positive) :
  2 ^ Z.log2 (Zpos p) <= inject_Z (Zpos p) /\
  inject_Z (Zpos p) < 2 ^ (Z.log2 (Zpos p) + 1).
Proof.
  destruct (Z.log2_spec (Zpos p) ltac:(reflexivity)) as [H1 H2].
  pose proof (Z.log2_nonneg (Zpos p)) as H0.
  split.
  - rewrite <- pow2_inject by exact H0. now rewrite <- Zle_Qle.
  - rewrite <- pow2_inject by lia. rewrite <- Zlt_Qlt.
    now rewrite Z.add_1_r.
Qed.

Lemma floor_log2_test (n d : positive) :
  let l := (Z.log2 (Zpos n) - Z.log2 (Zpos d))%Z in
  Float.floor_log2 n d
  = if Qle_bool (inject_Z (Zpos d) * 2 ^ l) (inject_Z (Zpos n))
    then l else (l - 1)%Z.
Proof.
  intro l. unfold Float.floor_log2. fold l.
  destruct (0 <=? l)%Z eqn:El.
  - apply Z.leb_le in El.
    assert (E : (Zpos d * 2 ^ l <=? Zpos n)%Z
                = Qle_bool (inject_Z (Zpos d) * 2 ^ l) (inject_Z (Zpos n))).
    { apply eq_true_iff_eq. rewrite Z.leb_le, Qle_bool_iff.
      rewrite <- pow2_inject by exact El.
      rewrite <- inject_Z_mult, <- Zle_Qle. reflexivity. }
    now rewrite E.
  - apply Z.leb_gt in El.
    assert (E : (Zpos d <=? Zpos n * 2 ^ (- l))%Z
                = Qle_bool (inject_Z (Zpos d) * 2 ^ l) (inject_Z (Zpos n))).
    { apply eq_true_iff_eq. rewrite Z.leb_le, Qle_bool_iff.
      rewrite Zle_Qle, inject_Z_mult, pow2_inject by lia.
      split; intro H.
      - apply (Qmult_le_r _ _ (2 ^ (- l))); [apply pow2_pos|].
        rewrite <- Qmult_assoc, pow2_cancel, Qmult_1_r. exact H.
      - apply (Qmult_le_r _ _ (2 ^ (- l))) in H; [|apply pow2_pos].
        rewrite <- Qmult_assoc, pow2_cancel, Qmult_1_r in H. exact H. }
    now rewrite E.
Qed.

Lemma floor_log2_spec (n d : positive) :
  inject_Z (Zpos d) * 2 ^ Float.floor_log2 n d <= inject_Z (Zpos n) /\
  inject_Z (Zpos n) < inject_Z (Zpos d) * 2 ^ (Float.floor_log2 n d + 1).
Proof.
  rewrite floor_log2_test. cbv zeta.
  destruct (log2_bounds n) as [Hn1 Hn2]. destruct (log2_bounds d) as [Hd1 Hd2].
  set (a := Z.log2 (Zpos n)) in *. set (b := Z.log2 (Zpos d)) in *.
  assert (Hd0 : 0 < inject_Z (Zpos d)) by reflexivity.
  destruct (Qle_bool (inject_Z (Zpos d) * 2 ^ (a - b)) (inject_Z (Zpos n))) eqn:E.
  - apply Qle_bool_iff in E. split; [exact E|].
    eapply Qlt_le_trans; [exact Hn2|].
    replace (a + 1)%Z with (b + (a - b + 1))%Z by lia.
    rewrite pow2_add. apply Qmult_le_compat_r; [exact Hd1|].
    apply Qlt_le_weak, pow2_pos.
  - assert (E' : inject_Z (Zpos n) < inject_Z (Zpos d) * 2 ^ (a - b)).
    { apply Qnot_le_lt. intro H. apply Qle_bool_iff in H. congruence. }
    split.
    + eapply Qle_trans; [|exact Hn1].
      replace a with (b + 1 + (a - b - 1))%Z at 2 by lia.
      rewrite pow2_add. apply Qmult_le_compat_r; [now apply Qlt_le_weak|].
      apply Qlt_le_weak, pow2_pos.
    + now replace (a - b - 1 + 1)%Z with (a - b)%Z by lia.
Qed.


(** The exponent of the last place of the mantissa. *)
Local Abbreviation exponent n d := (Z.max (Float.floor_log2 n d - 52) (-1074)).

(** The mantissa of the rounded number. *)
Local Abbreviation mantissa n d :=
  (nearest ((Zpos n # d) * 2 ^ (- exponent n d))).

Lemma round_pos_spec (n d : positive) :
  Float.round_pos n d == inject_Z (mantissa n d) * 2 ^ exponent n d.
Proof.
  unfold Float.round_pos. cbv zeta.
  set (e := exponent n d).
  destruct (0 <=? e)%Z eqn:Ee.
  - apply Z.leb_le in Ee.
    rewrite inject_Z_mult, pow2_inject by exact Ee.
    apply Qmult_comp; [|reflexivity].
    assert (Hp : (0 < Zpos d * 2 ^ e)%Z)
      by (apply Z.mul_pos_pos; [reflexivity|now apply Z.pow_pos_nonneg]).
    rewrite <- (Z2Pos.id _ Hp), round_half_even_nearest.
    rewrite (@nearest_eq (Zpos n # Z.to_pos (Zpos d * 2 ^ e))
                         ((Zpos n # d) * 2 ^ (- e))); [reflexivity|].
    rewrite pow2_opp, <- pow2_inject by exact Ee.
    rewrite (Qmake_Qdiv (Zpos n) (Z.to_pos _)), (Qmake_Qdiv (Zpos n) d).
    rewrite Z2Pos.id by exact Hp. rewrite inject_Z_mult.
    field. split.
    + rewrite pow2_inject by exact Ee. apply Qnot_eq_sym, Qlt_not_eq, pow2_pos.
    + discriminate.
  - apply Z.leb_gt in Ee.
    rewrite Qred_correct.
    assert (Hp : (0 < 2 ^ (- e))%Z) by (apply Z.pow_pos_nonneg; lia).
    rewrite round_half_even_nearest.
    rewrite (@nearest_eq (Zpos n * 2 ^ (- e) # d) ((Zpos n # d) * 2 ^ (- e))).
    + generalize (nearest ((Zpos n # d) * 2 ^ (- e))). intro M.
      rewrite (Qmake_Qdiv _ (Z.to_pos _)), Z2Pos.id by exact Hp.
      rewrite pow2_inject by lia. rewrite pow2_opp.
      field. apply Qnot_eq_sym, Qlt_not_eq, pow2_pos.
    + rewrite <- pow2_inject by lia.
      rewrite (Qmake_Qdiv _ d), (Qmake_Qdiv (Zpos n) d), inject_Z_mult.
      field. discriminate.
Qed.

Lemma scaled_bounds (n d : positive) :
  let L := Float.floor_log2 n d in
  forall e : Z,
    2 ^ (L - e) <= (Zpos n # d) * 2 ^ (- e) /\
    (Zpos n # d) * 2 ^ (- e) < 2 ^ (L + 1 - e).
Proof.
  intros L e. destruct (floor_log2_spec n d) as [H1 H2]. fold L in H1, H2.
  assert (Hd : 0 < inject_Z (Zpos d)) by reflexivity.
  rewrite (Qmake_Qdiv (Zpos n) d).
  unfold Z.sub. rewrite !pow2_add. split.
  - apply Qmult_le_compat_r; [|apply Qlt_le_weak, pow2_pos].
    apply Qle_shift_div_l; [exact Hd|]. now rewrite Qmult_comm.
  - apply Qmult_lt_compat_r; [apply pow2_pos|].
    apply Qlt_shift_div_r; [exact Hd|]. rewrite <- pow2_add, Qmult_comm. exact H2.
Qed.

Lemma mantissa_upper (n d : positive) : (mantissa n d <= 2 ^ 53)%Z.
Proof.
  set (e := exponent n d).
  destruct (scaled_bounds n d e) as [_ H].
  rewrite <- (nearest_Z (2 ^ 53)).
  apply nearest_mono. eapply Qle_trans; [apply Qlt_le_weak; exact H|].
  rewrite pow2_inject by lia. apply pow2_le. unfold e. lia.
Qed.

Lemma mantissa_lower (n d : positive) :
  (-1074 <= Float.floor_log2 n d - 52)%Z -> (2 ^ 52 <= mantissa n d)%Z.
Proof.
  intro Hn. set (e := exponent n d).
  destruct (scaled_bounds n d e) as [H _].
  rewrite <- (nearest_Z (2 ^ 52)) at 1.
  apply nearest_mono. eapply Qle_trans; [|exact H].
  rewrite pow2_inject by lia. apply pow2_le. unfold e. lia.
Qed.

Lemma mantissa_nonneg (n d : positive) : (0 <= mantissa n d)%Z.
Proof.
  rewrite <- (nearest_Z 0) at 1. apply nearest_mono.
  apply Qmult_le_0_compat; [discriminate|apply Qlt_le_weak, pow2_pos].
Qed.

Lemma round_pos_nonneg (n d : positive) : 0 <= Float.round_pos n d.
Proof.
  rewrite round_pos_spec. apply Qmult_le_0_compat.
  - rewrite <- (Zle_Qle 0). apply mantissa_nonneg.
  - apply Qlt_le_weak, pow2_pos.
Qed.

Lemma floor_log2_mono (n d n' d' : positive) :
  Zpos n # d <= Zpos n' # d' ->
  (Float.floor_log2 n d <= Float.floor_log2 n' d')%Z.
Proof.
  intro H.
  destruct (scaled_bounds n d 0) as [H1 _].
  destruct (scaled_bounds n' d' 0) as [_ H2].
  rewrite Qmult_1_r in H1, H2. rewrite !Z.sub_0_r in *.
  assert (Hlt : 2 ^ Float.floor_log2 n d < 2 ^ (Float.floor_log2 n' d' + 1)).
  { eapply Qle_lt_trans; [exact H1|]. eapply Qle_lt_trans; [exact H|exact H2]. }
  apply pow2_lt_inv in Hlt. lia.
Qed.

Lemma round_pos_mono (n d n' d' : positive) :
  Zpos n # d <= Zpos n' # d' -> Float.round_pos n d <= Float.round_pos n' d'.
Proof.
  intro H. rewrite !round_pos_spec.
  pose proof (floor_log2_mono H) as HL.
  set (e := exponent n d). set (e' := exponent n' d').
  destruct (Z.eq_dec e e') as [E|N].
  - rewrite <- E. apply Qmult_le_compat_r; [|apply Qlt_le_weak, pow2_pos].
    rewrite <- Zle_Qle. apply nearest_mono.
    apply Qmult_le_compat_r; [exact H|apply Qlt_le_weak, pow2_pos].
  - assert (He : (e + 1 <= e')%Z) by (unfold e, e' in *; lia).
    assert (Hn : (-1074 <= Float.floor_log2 n' d' - 52)%Z) by (unfold e, e' in *; lia).
    pose proof (mantissa_upper n d) as Hu.
    pose proof (mantissa_lower n' d' Hn) as Hl.
    apply Qle_trans with (2 ^ 53 * 2 ^ e).
    { apply Qmult_le_compat_r; [|apply Qlt_le_weak, pow2_pos].
      rewrite <- (pow2_inject (e := 53)) by lia. now rewrite <- Zle_Qle. }
    apply Qle_trans with (2 ^ 52 * 2 ^ e').
    { rewrite <- !pow2_add. apply pow2_le. lia. }
    apply Qmult_le_compat_r; [|apply Qlt_le_weak, pow2_pos].
    rewrite <- (pow2_inject (e := 52)) by lia. now rewrite <- Zle_Qle.
Qed.

(** Rounding keeps the order of the exact results. *)
Lemma round_mono (x y : Q) : x <= y -> Float.round x <= Float.round y.
Proof.
  destruct x as [[|n|n] d], y as [[|n'|n'] d']; unfold Float.round;
    cbn [Qnum Qden]; intro H.
  - apply Qle_refl.
  - apply round_pos_nonneg.
  - exfalso. revert H. unfold Qle. cbn. lia.
  - exfalso. revert H. unfold Qle. cbn. lia.
  - now apply round_pos_mono.
  - exfalso. revert H. unfold Qle. cbn. lia.
  - rewrite <- (Qopp_involutive 0). apply Qopp_le_compat.
    apply round_pos_nonneg.
  - apply Qle_trans with 0; [|apply round_pos_nonneg].
    rewrite <- (Qopp_involutive 0). apply Qopp_le_compat.
    apply round_pos_nonneg.
  - apply Qopp_le_compat. apply round_pos_mono.
    revert H. unfold Qle. cbn. lia.
Qed.

Lemma round_eq (x y : Q) : x == y -> Float.round x == Float.round y.
Proof.
  intro H. apply Qle_antisym; apply round_mono; rewrite H; apply Qle_refl.
Qed.

Lemma round_0 : Float.round 0 = 0.
Proof. reflexivity. Qed.

Lemma round_1 : Float.round 1 = 1.
Proof. vm_compute. reflexivity. Qed.

Lemma round_nonneg (x : Q) : 0 <= x -> 0 <= Float.round x.
Proof. intro H. rewrite <- round_0. now apply round_mono. Qed.

Lemma add_mono (x y x' y' : Q) :
  x <= x' -> y <= y' -> Float.add x y <= Float.add x' y'.
Proof. intros H1 H2. apply round_mono. now apply Qplus_le_compat. Qed.

Lemma div_mono (x x' d : Q) :
  0 < d -> x <= x' -> Float.div x d <= Float.div x' d.
Proof.
  intros Hd H. apply round_mono. unfold Qdiv.
  apply Qmult_le_compat_r; [exact H|]. now apply Qlt_le_weak, Qinv_lt_0_compat.
Qed.


(** A rounded number is a binary64 number, which rounding leaves alone. *)
Lemma round_opp (x : Q) : Float.round (- x) = - Float.round x.
Proof.
  destruct x as [[|n|n] d]; unfold Float.round; cbn [Qnum Qden Qopp Z.opp];
    try reflexivity.
  destruct (Float.round_pos n d) as [a b]. unfold Qopp. cbn [Qnum Qden].
  now rewrite Z.opp_involutive.
Qed.

Lemma round_pos_fixed (n d : positive) (M e : Z) :
  (0 < M < 2 ^ 53)%Z -> (-1074 <= e)%Z ->
  Zpos n # d == inject_Z M * 2 ^ e ->
  Float.round_pos n d == Zpos n # d.
Proof.
  intros HM He Hx. rewrite round_pos_spec.
  set (ex := exponent n d).
  assert (Hex : (ex <= e)%Z).
  { destruct (scaled_bounds n d 0) as [H1 _].
    rewrite Qmult_1_r, Z.sub_0_r, Hx in H1.
    assert (Hlt : 2 ^ Float.floor_log2 n d < 2 ^ (53 + e)).
    { eapply Qle_lt_trans; [exact H1|]. rewrite pow2_add.
      apply Qmult_lt_compat_r; [apply pow2_pos|].
      rewrite <- (pow2_inject (e := 53)) by lia. rewrite <- Zlt_Qlt. lia. }
    apply pow2_lt_inv in Hlt. unfold ex. lia. }
  assert (Hs : (Zpos n # d) * 2 ^ (- ex) == inject_Z (M * 2 ^ (e - ex))).
  { rewrite Hx, inject_Z_mult, pow2_inject by lia.
    unfold Z.sub. rewrite pow2_add. ring. }
  rewrite (nearest_eq Hs), nearest_Z.
  rewrite inject_Z_mult, pow2_inject by lia.
  rewrite Hx. unfold Z.sub. rewrite pow2_add, <- !Qmult_assoc.
  rewrite (Qmult_comm (2 ^ (- ex))), pow2_cancel. ring.
Qed.

Lemma round_fixed (y : Q) (M e : Z) :
  (0 < M <= 2 ^ 53)%Z -> (-1074 <= e)%Z ->
  y == inject_Z M * 2 ^ e -> Float.round y == y.
Proof.
  intros HM He Hy.
  assert (Hpos : 0 < y).
  { rewrite Hy. apply Qmult_lt_0_compat; [|apply pow2_pos].
    rewrite <- (Zlt_Qlt 0). lia. }
  destruct y as [[|n|n] d]; try (exfalso; revert Hpos; unfold Qlt; cbn; lia).
  unfold Float.round. cbn [Qnum Qden].
  destruct (Z.eq_dec M (2 ^ 53)) as [E|N].
  - apply (@round_pos_fixed n d (2 ^ 52) (e + 1)); [lia|lia|].
    rewrite Hy, E, pow2_add, Qpower_1_r.
    replace (2 ^ 53)%Z with (2 ^ 52 * 2)%Z by reflexivity.
    rewrite inject_Z_mult. change (inject_Z 2) with 2. ring.
  - apply (@round_pos_fixed n d M e); [lia|exact He|exact Hy].
Qed.

Lemma round_pos_idem (n d : positive) :
  Float.round (Float.round_pos n d) == Float.round_pos n d.
Proof.
  pose proof (round_pos_spec n d) as Hs.
  pose proof (mantissa_upper n d) as Hu.
  pose proof (mantissa_nonneg n d) as Hl.
  destruct (Z.eq_dec (mantissa n d) 0) as [E|N].
  - rewrite E in Hs. rewrite Qmult_0_l in Hs.
    rewrite (round_eq Hs), Hs. reflexivity.
  - apply (@round_fixed _ (mantissa n d) (exponent n d)); [lia|lia|exact Hs].
Qed.

Lemma round_idem (x : Q) : Float.round (Float.round x) == Float.round x.
Proof.
  destruct x as [[|n|n] d]; unfold Float.round at 2; cbn [Qnum Qden].
  - reflexivity.
  - apply round_pos_idem.
  - rewrite round_opp. apply Qopp_comp, round_pos_idem.
Qed.

Lemma add_0_round (x : Q) : Float.add 0 (Float.round x) == Float.round x.
Proof.
  unfold Float.add. rewrite (@round_eq (0 + Float.round x) (Float.round x)).
  - apply round_idem.
  - apply Qplus_0_l.
Qed.

(** A sum is not below a term when the other term is not negative. *)
Lemma add_above_l (x y : Q) :
  0 <= y -> Float.round x <= Float.add (Float.round x) y.
Proof.
  intro Hy. rewrite <- (round_idem x) at 1. apply round_mono.
  rewrite <- (Qplus_0_r (Float.round x)) at 1.
  apply Qplus_le_compat; [apply Qle_refl|exact Hy].
Qed.

(** [round] gives what the machine gives: for every quotient [a / b] of
    integers from 1 to 40, and for every sum [0.0 + 1/a + 1/b] with [a] and
    [b] from 61 to 100 (the fused scores of ranks up to 40), the model and
    the binary64 arithmetic of the kernel have the same result. *)
Lemma round_matches_binary64 :
  forallb (fun a =>
    forallb (fun b =>
      match Float.of_binary64
              (PrimFloat.div (Float.binary64_of_int a) (Float.binary64_of_int b)),
            Float.of_binary64
              (PrimFloat.add
                 (PrimFloat.add PrimFloat.zero
                    (PrimFloat.div PrimFloat.one (Float.binary64_of_int (60 + a))))
                 (PrimFloat.div PrimFloat.one (Float.binary64_of_int (60 + b))))
      with
      | Some q, Some s =>
          FloatSpec.same q (Float.div (inject_Z a) (inject_Z b))
          && FloatSpec.same s
               (Float.add (Float.add 0 (Float.div 1 (inject_Z (60 + a))))
                          (Float.div 1 (inject_Z (60 + b))))
      | _, _ => false
      end) (FloatSpec.upto 1 40)) (FloatSpec.upto 1 40)
  = true.
Proof. vm_compute. reflexivity. Qed.

End FloatFacts.

Module PyFacts.
Local Open Scope Q_scope.

Lemma Qltb_lt (x y : Q) : Py.Qltb x y = true <-> x < y.
Proof.
  unfold Py.Qltb. rewrite negb_true_iff.
  split; intro H.
  - apply Qnot_le_lt. intro Hle. apply Qle_bool_iff in Hle. congruence.
  - destruct (Qle_bool y x) eqn:E; [|reflexivity].
    apply Qle_bool_iff in E. exfalso. exact (Qlt_not_le _ _ H E).
Qed.

Lemma Qltb_ge (x y : Q) : Py.Qltb x y = false <-> y <= x.
Proof.
  unfold Py.Qltb. rewrite negb_false_iff. apply Qle_bool_iff.
Qed.

End PyFacts.

(** ** The dict model *)

Module DictFacts.
Section Dict.
Variables K V : Type.
Variable eqb : K -> K -> bool.
Hypothesis eqb_eq : forall a b, eqb a b = true <-> a = b.

Local Abbreviation dict := (Py.dict K V).
Local Abbreviation get := (Py.get eqb).
Local Abbreviation setitem := (Py.setitem eqb).
Local Abbreviation delitem := (Py.delitem eqb).
Local Abbreviation keys := (@Py.keys K V).

Lemma eqb_refl (k : K) : eqb k k = true.
Proof. now apply eqb_eq. Qed.

Lemma eqb_neq (a b : K) : a <> b -> eqb a b = false.
Proof.
  intro H. destruct (eqb a b) eqn:E; [|reflexivity].
  apply eqb_eq in E. contradiction.
Qed.

Lemma get_None_notin (d : dict) (k : K) : get d k = None <-> ~ In k (keys d).
Proof.
  induction d as [|[k' v'] d IH]; simpl.
  - tauto.
  - destruct (eqb k' k) eqn:E.
    + apply eqb_eq in E. split; [discriminate|]. intros H. exfalso. auto.
    + rewrite IH. split.
      * intros H [H1|H1]; [|auto]. subst. rewrite eqb_refl in E. discriminate.
      * intros H H1. auto.
Qed.

Lemma get_Some_in (d : dict) (k : K) (v : V) : get d k = Some v -> In k (keys d).
Proof.
  induction d as [|[k' v'] d IH]; simpl; [discriminate|].
  destruct (eqb k' k) eqn:E.
  - apply eqb_eq in E. auto.
  - auto.
Qed.

Lemma get_setitem_same (d : dict) (k : K) (v : V) : get (setitem d k v) k = Some v.
Proof.
  induction d as [|[k' v'] d IH]; simpl.
  - now rewrite eqb_refl.
  - destruct (eqb k' k) eqn:E; simpl; rewrite E; auto.
Qed.

Lemma get_setitem_other (d : dict) (k k' : K) (v : V) :
  k <> k' -> get (setitem d k v) k' = get d k'.
Proof.
  intro Hne. induction d as [|[k0 v0] d IH]; simpl.
  - now rewrite (eqb_neq Hne).
  - destruct (eqb k0 k) eqn:E; simpl.
    + apply eqb_eq in E. subst k0. now rewrite (eqb_neq Hne).
    + now rewrite IH.
Qed.

Lemma keys_setitem_new (d : dict) (k : K) (v : V) :
  ~ In k (keys d) -> keys (setitem d k v) = keys d ++ [k].
Proof.
  induction d as [|[k0 v0] d IH]; simpl; intro H; [reflexivity|].
  rewrite eqb_neq by (intro; subst; auto). simpl. f_equal. apply IH. auto.
Qed.

Lemma keys_setitem_old (d : dict) (k : K) (v : V) :
  In k (keys d) -> keys (setitem d k v) = keys d.
Proof.
  induction d as [|[k0 v0] d IH]; simpl; intro H; [contradiction|].
  destruct (eqb k0 k) eqn:E; simpl; [reflexivity|].
  f_equal. apply IH. destruct H as [H|H]; [|exact H].
  subst. rewrite eqb_refl in E. discriminate.
Qed.

Lemma length_setitem_le (d : dict) (k : K) (v : V) :
  (List.length (setitem d k v) <= S (List.length d))%nat.
Proof.
  induction d as [|[k0 v0] d IH]; simpl; [lia|].
  destruct (eqb k0 k); simpl; lia.
Qed.

Lemma NoDup_keys_setitem (d : dict) (k : K) (v : V) :
  NoDup (keys d) -> NoDup (keys (setitem d k v)).
Proof.
  intro H.
  destruct (get d k) eqn:G.
  - rewrite keys_setitem_old; [exact H|]. eapply get_Some_in; eauto.
  - apply get_None_notin in G. rewrite keys_setitem_new by exact G.
    apply NoDup_rev in H. rewrite <- (rev_involutive (keys d ++ [k])).
    apply NoDup_rev. rewrite rev_app_distr. simpl. constructor; [|exact H].
    rewrite <- in_rev. exact G.
Qed.

Lemma keys_delitem_incl (d : dict) (k k' : K) :
  In k' (keys (delitem d k)) -> In k' (keys d).
Proof.
  induction d as [|[k0 v0] d IH]; simpl; [tauto|].
  destruct (eqb k0 k); simpl; tauto.
Qed.

Lemma NoDup_keys_delitem (d : dict) (k : K) :
  NoDup (keys d) -> NoDup (keys (delitem d k)).
Proof.
  induction d as [|[k0 v0] d IH]; simpl; intro H; [constructor|].
  inversion H; subst. destruct (eqb k0 k); simpl; [assumption|].
  constructor; [|auto]. intro Hin. apply keys_delitem_incl in Hin. auto.
Qed.

Lemma get_delitem_same (d : dict) (k : K) :
  NoDup (keys d) -> get (delitem d k) k = None.
Proof.
  induction d as [|[k0 v0] d IH]; simpl; intro H; [reflexivity|].
  inversion H; subst. destruct (eqb k0 k) eqn:E; simpl.
  - apply eqb_eq in E. subst. now apply get_None_notin.
  - rewrite E. auto.
Qed.

Lemma get_delitem_other (d : dict) (k k' : K) :
  k <> k' -> get (delitem d k) k' = get d k'.
Proof.
  intro Hne. induction d as [|[k0 v0] d IH]; simpl; [reflexivity|].
  destruct (eqb k0 k) eqn:E; simpl.
  - apply eqb_eq in E. subst. now rewrite (eqb_neq Hne).
  - now rewrite IH.
Qed.

Lemma length_delitem_le (d : dict) (k : K) :
  (List.length (delitem d k) <= List.length d)%nat.
Proof.
  induction d as [|[k0 v0] d IH]; simpl; [lia|].
  destruct (eqb k0 k); simpl; lia.
Qed.

Lemma delitem_head (k : K) (v : V) (d : dict) : delitem ((k, v) :: d) k = d.
Proof. simpl. now rewrite eqb_refl. Qed.

End Dict.
End DictFacts.

(** ** Strings *)

Module StrFacts.
Import Py KeySpec.

Ltac each_char c := destruct c as [[] [] [] [] [] [] [] []].

Lemma lower_char_space (c : ascii) : isspace c = true -> lower_char c = c.
Proof. each_char c; vm_compute; congruence. Qed.

Lemma lower_all_space (w : str) : all_space w -> lower w = w.
Proof.
  induction 1 as [|c w Hc _ IH]; simpl; [reflexivity|].
  now rewrite IH, lower_char_space.
Qed.

Lemma lower_app (a b : str) : lower (a ++ b) = lower a ++ lower b.
Proof. apply map_app. Qed.

Lemma same_letters_lower (a b : str) : same_letters a b -> lower a = lower b.
Proof. induction 1; simpl; congruence. Qed.

Lemma lstrip_space_app (w s : str) : all_space w -> lstrip (w ++ s) = lstrip s.
Proof. induction 1 as [|c w Hc _ IH]; simpl; [reflexivity|]. now rewrite Hc. Qed.

Lemma rstrip_all_space (w : str) : all_space w -> rstrip w = [].
Proof.
  induction 1 as [|c w Hc _ IH]; simpl; [reflexivity|]. now rewrite IH, Hc.
Qed.

Lemma rstrip_app_space (s w : str) : all_space w -> rstrip (s ++ w) = rstrip s.
Proof.
  intro Hw. induction s as [|c s IH]; simpl.
  - now apply rstrip_all_space.
  - now rewrite IH.
Qed.

Lemma strip_app_space (s w : str) : all_space w -> strip (s ++ w) = strip s.
Proof.
  intro Hw. unfold strip. induction s as [|c s IH]; simpl.
  - rewrite <- (app_nil_r w), lstrip_space_app by exact Hw. reflexivity.
  - destruct (isspace c); [exact IH|].
    change (c :: s ++ w) with ((c :: s) ++ w). now apply rstrip_app_space.
Qed.

Lemma strip_surrounded (l c r : str) :
  all_space l -> all_space r -> strip (l ++ c ++ r) = strip c.
Proof.
  intros Hl Hr. rewrite app_assoc, strip_app_space by exact Hr.
  unfold strip. now rewrite lstrip_space_app.
Qed.

(** [query.lower().strip()] does not see surrounding white space or case. *)
Lemma normalized_query_same (q1 q2 : str) :
  same_query q1 q2 -> strip (lower q1) = strip (lower q2).
Proof.
  intros (l1 & c1 & r1 & l2 & c2 & r2 & -> & -> & Hl1 & Hr1 & Hl2 & Hr2 & Hc).
  rewrite !lower_app.
  rewrite (lower_all_space Hl1), (lower_all_space Hr1).
  rewrite (lower_all_space Hl2), (lower_all_space Hr2).
  rewrite !strip_surrounded by assumption.
  now rewrite (same_letters_lower Hc).
Qed.

(** What [rstrip] cuts off is white space. *)
Lemma rstrip_split (s : str) : exists w, s = rstrip s ++ w /\ all_space w.
Proof.
  induction s as [|c s (w & Hs & Hw)]; simpl.
  - exists []. split; [reflexivity|constructor].
  - destruct (rstrip s) as [|c' r'] eqn:E.
    + destruct (isspace c) eqn:Ec.
      * exists (c :: s). split; [reflexivity|].
        simpl in Hs. subst s. constructor; assumption.
      * exists w. simpl in Hs |- *. subst s. auto.
    + exists w. split; [|exact Hw]. simpl in *. congruence.
Qed.

Lemma lstrip_head (s : str) :
  lstrip s = [] \/ exists c t, lstrip s = c :: t /\ isspace c = false.
Proof.
  induction s as [|c s IH]; simpl; [now left|].
  destruct (isspace c) eqn:E; [exact IH|]. right. eauto.
Qed.

Lemma lstrip_app_nonspace (s t : str) (c : ascii) :
  isspace c = false -> lstrip (s ++ c :: t) = lstrip s ++ c :: t.
Proof.
  intro Hc. induction s as [|x s IH]; simpl.
  - now rewrite Hc.
  - destruct (isspace x); [exact IH|reflexivity].
Qed.

Lemma rstrip_app_nonspace (s t : str) :
  rstrip t <> [] -> rstrip (s ++ t) = s ++ rstrip t.
Proof.
  intro Ht. induction s as [|x s IH]; simpl; [reflexivity|].
  rewrite IH. destruct (s ++ rstrip t) eqn:E; [|reflexivity].
  apply app_eq_nil in E. destruct E. contradiction.
Qed.

(** ** The order of [str] *)

Lemma code_inj (x y : ascii) : code x = code y -> x = y.
Proof.
  unfold code. intro H. rewrite <- (ascii_N_embedding x), <- (ascii_N_embedding y).
  now rewrite H.
Qed.

Ltac code_cases :=
  repeat match goal with
         | |- context [N.ltb ?a ?b] => destruct (N.ltb_spec a b)
         | |- context [N.eqb ?a ?b] => destruct (N.eqb_spec a b)
         end;
  intros; try lia; try congruence; eauto.

Lemma str_ltb_asym (a b : str) : str_ltb a b = true -> str_ltb b a = false.
Proof.
  revert b. induction a as [|x a IH]; intros [|y b]; simpl; try congruence.
  code_cases.
Qed.

Lemma str_ltb_antisym (a b : str) :
  str_ltb a b = false -> str_ltb b a = false -> a = b.
Proof.
  revert b. induction a as [|x a IH]; intros [|y b]; simpl; try congruence.
  code_cases. f_equal; [now apply code_inj|now apply IH].
Qed.

Lemma str_leb_trans (a b c : str) :
  str_ltb b a = false -> str_ltb c b = false -> str_ltb c a = false.
Proof.
  revert b c. induction a as [|x a IH]; intros [|y b] [|z c]; simpl;
    try congruence.
  code_cases.
Qed.

End StrFacts.

(** ** [sorted] *)

Module SortedFacts.
Section Ascending.
Variable A : Type.
Variable ltb : A -> A -> bool.
Hypothesis ltb_asym : forall a b, ltb a b = true -> ltb b a = false.
Hypothesis leb_trans :
  forall a b c, ltb b a = false -> ltb c b = false -> ltb c a = false.
Hypothesis ltb_antisym : forall a b, ltb a b = false -> ltb b a = false -> a = b.

(** [a] does not come after [b]. *)
Local Abbreviation le := (fun a b : A => ltb b a = false).

Lemma insert_asc_perm (x : A) (l : list A) :
  Permutation (x :: l) (Py.insert_asc ltb x l).
Proof.
  induction l as [|y l IH]; simpl; [reflexivity|].
  destruct (ltb y x); [|reflexivity].
  rewrite perm_swap. now apply perm_skip.
Qed.

Lemma sorted_perm (l : list A) : Permutation l (Py.sorted ltb l).
Proof.
  induction l as [|x l IH]; simpl; [reflexivity|].
  rewrite <- insert_asc_perm. now apply perm_skip.
Qed.

Lemma insert_asc_ordered (x : A) (l : list A) :
  Sorted le l -> Sorted le (Py.insert_asc ltb x l).
Proof.
  induction l as [|y l IH]; simpl; intro Hs.
  - repeat constructor.
  - destruct (ltb y x) eqn:E.
    + inversion Hs as [|? ? Hl Hh]; subst. constructor; [now apply IH|].
      destruct l as [|z l]; simpl.
      * constructor. now apply ltb_asym.
      * destruct (ltb z x); constructor.
        -- inversion Hh; assumption.
        -- now apply ltb_asym.
    + constructor; [exact Hs|]. constructor. exact E.
Qed.

Lemma sorted_ordered (l : list A) : Sorted le (Py.sorted ltb l).
Proof.
  induction l as [|x l IH]; simpl; [constructor|].
  now apply insert_asc_ordered.
Qed.

Lemma ordered_perm_eq (l1 l2 : list A) :
  StronglySorted le l1 -> StronglySorted le l2 -> Permutation l1 l2 -> l1 = l2.
Proof.
  revert l2. induction l1 as [|a l1 IH]; intros l2 H1 H2 Hp.
  - apply Permutation_nil in Hp. now subst.
  - destruct l2 as [|b l2].
    + apply Permutation_sym, Permutation_nil in Hp. discriminate.
    + inversion H1 as [|? ? Hs1 Hf1]; inversion H2 as [|? ? Hs2 Hf2]; subst.
      assert (E : a = b).
      { assert (Ha : In a (b :: l2))
          by (eapply Permutation_in; [exact Hp|now left]).
        assert (Hb : In b (a :: l1))
          by (eapply Permutation_in; [apply Permutation_sym; exact Hp|now left]).
        destruct Ha as [Ha|Ha]; [now subst|].
        destruct Hb as [Hb|Hb]; [now subst|].
        rewrite Forall_forall in Hf1, Hf2.
        apply ltb_antisym; [apply Hf2|apply Hf1]; assumption. }
      subst b. f_equal. apply IH; try assumption.
      eapply Permutation_cons_inv. exact Hp.
Qed.

(** The result of [sorted] depends on the items only, not on their order. *)
Lemma sorted_of_perm (l1 l2 : list A) :
  Permutation l1 l2 -> Py.sorted ltb l1 = Py.sorted ltb l2.
Proof.
  intro Hp.
  assert (Htr : Relations_1.Transitive le)
    by (intros a b c Hab Hbc; eapply leb_trans; eassumption).
  apply ordered_perm_eq.
  - apply Sorted_StronglySorted; [exact Htr|apply sorted_ordered].
  - apply Sorted_StronglySorted; [exact Htr|apply sorted_ordered].
  - rewrite <- !sorted_perm. exact Hp.
Qed.

End Ascending.
End SortedFacts.

(** ** [json.dumps] *)

Module JsonFacts.
Import Py Json KeySpec.

Lemma unescape_escape (c : ascii) (s : str) :
  unescape_head (escape_char c ++ s) = Some (c, s).
Proof. StrFacts.each_char c; reflexivity. Qed.

Lemma unescape_closing (s : str) : unescape_head (dquote :: s) = None.
Proof. reflexivity. Qed.

(** An escaped string can be read back up to its closing quote. *)
Lemma escaped_inj (a b : str) (s t : str) :
  flat_map escape_char a ++ dquote :: s = flat_map escape_char b ++ dquote :: t ->
  a = b /\ s = t.
Proof.
  revert b. induction a as [|x a IH]; intros [|y b]; simpl; intro H.
  - injection H as H. auto.
  - apply (f_equal unescape_head) in H.
    rewrite <- app_assoc, unescape_escape in H. discriminate.
  - apply (f_equal unescape_head) in H.
    rewrite <- app_assoc, unescape_escape in H. discriminate.
  - rewrite <- !app_assoc in H.
    pose proof (f_equal unescape_head H) as H'.
    rewrite !unescape_escape in H'. injection H' as -> H'.
    destruct (IH b H') as [-> ->]. auto.
Qed.

Lemma dumps_key_data_query_inj (q1 q2 : str) (ids : list str) (k : Z) :
  dumps_key_data {| kd_query := q1; kd_doc_ids := ids; kd_top_k := k |}
  = dumps_key_data {| kd_query := q2; kd_doc_ids := ids; kd_top_k := k |} ->
  q1 = q2.
Proof.
  unfold dumps_key_data. simpl kd_query. simpl kd_doc_ids. simpl kd_top_k.
  intro H.
  repeat (apply app_inv_head in H).
  unfold dumps_str in H at 1 3.
  simpl in H. injection H as H.
  rewrite <- !app_assoc in H. simpl in H.
  now apply escaped_inj in H.
Qed.

End JsonFacts.

(** ** The response cache *)

Module CacheFacts.
Import Py Cache CacheRuns.
Local Open Scope Z_scope.

Lemma str_eqb_eq (a b : str) : str_eqb a b = true <-> a = b.
Proof.
  unfold str_eqb. destruct (list_eq_dec ascii_dec a b); split; congruence.
Qed.

Section Facts.
Variable Response : Type.
Implicit Types c : ResponseCache Response.

Local Abbreviation lookup := (Py.get (V := entry Response) str_eqb).
Local Abbreviation store := (Py.setitem (V := entry Response) str_eqb).
Local Abbreviation remove := (Py.delitem (V := entry Response) str_eqb).
Local Abbreviation key := _generate_cache_key.

Lemma get_hit c now q d k item :
  lookup (cache c) (key q d k) = Some item ->
  now < cached_at item + timedelta_hours (ttl_hours c) ->
  get c now q d k = (Some (response item), c).
Proof.
  intros Hl Ht. unfold get. rewrite Hl.
  apply Z.ltb_lt in Ht. now rewrite Ht.
Qed.

Lemma get_expired c now q d k item :
  lookup (cache c) (key q d k) = Some item ->
  cached_at item + timedelta_hours (ttl_hours c) <= now ->
  get c now q d k = (None, with_cache c (remove (cache c) (key q d k))).
Proof.
  intros Hl Ht. unfold get. rewrite Hl.
  apply Z.ltb_ge in Ht. now rewrite Ht.
Qed.

Lemma get_absent c now q d k :
  lookup (cache c) (key q d k) = None -> get c now q d k = (None, c).
Proof. intros Hl. unfold get. now rewrite Hl. Qed.

Lemma set_stores c t q d k r c' :
  set c t q d k r = Some c' ->
  lookup (cache c') (key q d k) = Some {| response := r; cached_at := t |}
  /\ ttl_hours c' = ttl_hours c /\ max_size c' = max_size c.
Proof.
  unfold set. intro H.
  destruct (Z.of_nat (List.length (cache c)) >=? max_size c).
  - destruct (first_key (cache c)); [|discriminate].
    injection H as <-. simpl. split; [|auto].
    apply DictFacts.get_setitem_same, str_eqb_eq.
  - injection H as <-. simpl. split; [|auto].
    apply DictFacts.get_setitem_same, str_eqb_eq.
Qed.

Lemma set_keeps_NoDup c t q d k r c' :
  NoDup (keys (cache c)) -> set c t q d k r = Some c' ->
  NoDup (keys (cache c')).
Proof.
  unfold set. intros Hnd H.
  destruct (Z.of_nat (List.length (cache c)) >=? max_size c).
  - destruct (first_key (cache c)); [|discriminate].
    injection H as <-. simpl.
    apply DictFacts.NoDup_keys_setitem; [apply str_eqb_eq|].
    apply DictFacts.NoDup_keys_delitem. exact Hnd.
  - injection H as <-. simpl.
    apply DictFacts.NoDup_keys_setitem; [apply str_eqb_eq|exact Hnd].
Qed.

Lemma get_keeps_NoDup c now q d k :
  NoDup (keys (cache c)) -> NoDup (keys (cache (snd (get c now q d k)))).
Proof.
  intro Hnd. unfold get.
  destruct (lookup (cache c) (key q d k)); [|exact Hnd].
  destruct (now <? _); simpl; [exact Hnd|].
  apply DictFacts.NoDup_keys_delitem. exact Hnd.
Qed.

(** C4.  [get] returns the stored response when the entry of the derived
    key is present and [now < cached_at + ttl]; when the entry is present
    but expired it deletes it and returns a miss; when there is no entry it
    returns a miss and leaves the cache alone.  Hence a [get] that follows a
    [set] of the same parameters before the ttl has elapsed returns the
    response that was set, and one that comes after the ttl has elapsed
    misses and leaves no entry under the key. *)
Theorem cache_get_semantics :
  forall c now q d k,
    NoDup (keys (cache c)) ->
    (forall item,
        lookup (cache c) (key q d k) = Some item ->
        (now < cached_at item + timedelta_hours (ttl_hours c) ->
         get c now q d k = (Some (response item), c)) /\
        (cached_at item + timedelta_hours (ttl_hours c) <= now ->
         fst (get c now q d k) = None /\
         cache (snd (get c now q d k)) = remove (cache c) (key q d k) /\
         lookup (cache (snd (get c now q d k))) (key q d k) = None)) /\
    (lookup (cache c) (key q d k) = None -> get c now q d k = (None, c)) /\
    (forall t r c',
        set c t q d k r = Some c' ->
        (now < t + timedelta_hours (ttl_hours c) ->
         get c' now q d k = (Some r, c')) /\
        (t + timedelta_hours (ttl_hours c) <= now ->
         fst (get c' now q d k) = None /\
         lookup (cache (snd (get c' now q d k))) (key q d k) = None)).
Proof.
  intros c now q d k Hnd. split; [|split].
  - intros item Hl. split; intro Ht.
    + now apply get_hit.
    + rewrite (@get_expired c now q d k item Hl Ht). simpl.
      split; [reflexivity|]. split; [reflexivity|].
      apply DictFacts.get_delitem_same; [apply str_eqb_eq|exact Hnd].
  - apply get_absent.
  - intros t r c' Hset.
    assert (Hnd' : NoDup (keys (cache c')))
      by (eapply set_keeps_NoDup; eassumption).
    destruct (@set_stores c t q d k r c' Hset) as (Hl & Httl & _).
    split; intro Ht.
    + apply (@get_hit c' now q d k _ Hl). simpl. now rewrite Httl.
    + assert (Ht' : cached_at {| response := r; cached_at := t |}
                    + timedelta_hours (ttl_hours c') <= now)
        by (simpl; now rewrite Httl).
      rewrite (@get_expired c' now q d k _ Hl Ht'). simpl.
      split; [reflexivity|].
      apply DictFacts.get_delitem_same; [apply str_eqb_eq|exact Hnd'].
Qed.

Lemma set_when_full c now q d k r :
  0 < max_size c -> Z.of_nat (List.length (cache c)) = max_size c ->
  exists oldest e rest,
    cache c = (oldest, e) :: rest /\
    first_key (cache c) = Some oldest /\
    set c now q d k r
    = Some (with_cache c (store rest (key q d k)
                                {| response := r; cached_at := now |})).
Proof.
  intros Hpos Hlen. unfold set.
  destruct (cache c) as [|[oldest e] rest] eqn:Hc; simpl in Hlen; [lia|].
  exists oldest, e, rest. split; [reflexivity|]. split; [reflexivity|].
  assert (Hge : (Z.of_nat (List.length ((oldest, e) :: rest)) >=? max_size c) = true)
    by (apply Z.geb_le; simpl List.length; lia).
  rewrite Hge. simpl first_key. cbv beta iota.
  rewrite DictFacts.delitem_head by apply str_eqb_eq. reflexivity.
Qed.

Lemma set_when_room c now q d k r :
  Z.of_nat (List.length (cache c)) < max_size c ->
  set c now q d k r
  = Some (with_cache c (store (cache c) (key q d k)
                              {| response := r; cached_at := now |})).
Proof.
  intros Hlt. unfold set.
  assert (Hge : (Z.of_nat (List.length (cache c)) >=? max_size c) = false).
  { destruct (Z.geb_spec (Z.of_nat (List.length (cache c))) (max_size c));
      [lia|reflexivity]. }
  now rewrite Hge.
Qed.

Lemma set_bounded c now q d k r :
  0 < max_size c -> Z.of_nat (List.length (cache c)) <= max_size c ->
  exists c', set c now q d k r = Some c' /\ max_size c' = max_size c /\
             Z.of_nat (List.length (cache c')) <= max_size c'.
Proof.
  intros Hpos Hle.
  destruct (Z.eq_dec (Z.of_nat (List.length (cache c))) (max_size c)) as [E|E].
  - destruct (@set_when_full c now q d k r Hpos E) as (o & e & rest & Hc & _ & Hs).
    eexists. split; [exact Hs|]. simpl. split; [reflexivity|].
    rewrite Hc in E. simpl in E.
    pose proof (DictFacts.length_setitem_le str_eqb rest (key q d k)
                  {| response := r; cached_at := now |}). lia.
  - rewrite set_when_room by lia.
    eexists. split; [reflexivity|]. simpl. split; [reflexivity|].
    pose proof (DictFacts.length_setitem_le str_eqb (cache c) (key q d k)
                  {| response := r; cached_at := now |}). lia.
Qed.

Lemma get_shrinks c now q d k :
  (List.length (cache (snd (get c now q d k))) <= List.length (cache c))%nat
  /\ max_size (snd (get c now q d k)) = max_size c.
Proof.
  unfold get. destruct (lookup (cache c) (key q d k)); [|simpl; auto].
  destruct (now <? _); simpl; [auto|].
  split; [apply DictFacts.length_delitem_le|reflexivity].
Qed.

Lemma get_hit_same c now q d k r :
  fst (get c now q d k) = Some r -> snd (get c now q d k) = c.
Proof.
  unfold get. destruct (lookup (cache c) (key q d k)); [|discriminate].
  destruct (now <? _); simpl; [reflexivity|discriminate].
Qed.

Lemma set_many_fresh (l : list (call Response)) :
  forall c,
    NoDup (keys (cache c) ++ map (@key_of Response) l) ->
    Z.of_nat (List.length (cache c) + List.length l) <= max_size c ->
    exists c',
      set_many c l = Some c' /\
      keys (cache c') = keys (cache c) ++ map (@key_of Response) l /\
      max_size c' = max_size c /\ ttl_hours c' = ttl_hours c /\
      forall k, ~ In k (map (@key_of Response) l) ->
                lookup (cache c') k = lookup (cache c) k.
Proof.
  induction l as [|x l IH]; intros c Hnd Hlen.
  - exists c. simpl. rewrite app_nil_r. auto.
  - simpl set_many. unfold set_call.
    rewrite set_when_room by (simpl in Hlen; lia).
    set (c1 := with_cache c _).
    assert (Hfresh : ~ In (key_of x) (keys (cache c))).
    { simpl in Hnd. apply NoDup_remove_2 in Hnd.
      intro Hin. apply Hnd. apply in_or_app. auto. }
    assert (Hk1 : keys (cache c1) = keys (cache c) ++ [key_of x]).
    { subst c1. simpl.
      apply DictFacts.keys_setitem_new; [apply str_eqb_eq|exact Hfresh]. }
    destruct (IH c1) as (c' & Hs & Hk & Hm & Ht & Hl).
    + rewrite Hk1, <- app_assoc. exact Hnd.
    + assert (List.length (cache c1) = S (List.length (cache c))).
      { unfold keys in Hk1. apply (f_equal (@List.length _)) in Hk1.
        rewrite length_app, !length_map in Hk1. simpl in Hk1.
        subst c1. simpl cache. lia. }
      simpl in Hlen. subst c1. simpl max_size. lia.
    + exists c'. split; [exact Hs|]. split.
      { rewrite Hk, Hk1, <- app_assoc. reflexivity. }
      split; [exact Hm|]. split; [exact Ht|].
      intros k0 Hn. rewrite Hl by (intro; apply Hn; simpl; auto).
      subst c1. simpl.
      apply DictFacts.get_setitem_other; [apply str_eqb_eq|].
      intro E. apply Hn. simpl. auto.
Qed.

(** Fill an empty cache of capacity [n] with [n] requests of distinct keys,
    read the first of them, then store one more: the first is evicted. *)
Lemma fifo_run (n : nat) (ttl : Z) (first : call Response)
      (rest : list (call Response)) (new : call Response) :
  List.length (first :: rest) = n ->
  NoDup (map (@key_of Response) (first :: rest ++ [new])) ->
  exists c,
    set_many (init Response (Z.of_nat n) ttl) (first :: rest) = Some c /\
    keys (cache c) = map (@key_of Response) (first :: rest) /\
    forall now_g,
      now_g < at_time first + timedelta_hours ttl ->
      get_call c now_g first = (Some (payload first), c) /\
      exists c2,
        set_call (snd (get_call c now_g first)) new = Some c2 /\
        keys (cache c2) = map (@key_of Response) (rest ++ [new]) /\
        forall now', get_call c2 now' first = (None, c2).
Proof.
  intros Hlen Hnd.
  set (c0 := init Response (Z.of_nat n) ttl).
  assert (Hnd1 : NoDup (map (@key_of Response) (first :: rest))).
  { change (first :: rest ++ [new]) with ((first :: rest) ++ [new]) in Hnd.
    rewrite map_app in Hnd. eapply NoDup_app_remove_r. exact Hnd. }
  destruct (@set_many_fresh (first :: rest) c0) as (c & Hs & Hk & Hm & Ht & _).
  { exact Hnd1. }
  { subst c0. simpl max_size. simpl List.length in *. lia. }
  simpl in Hk. exists c. split; [exact Hs|]. split; [exact Hk|].
  (* the entry of [first] is still there *)
  assert (Hl : lookup (cache c) (key_of first)
               = Some {| response := payload first; cached_at := at_time first |}).
  { simpl set_many in Hs. unfold set_call in Hs.
    rewrite set_when_room in Hs by (subst c0; simpl; simpl in Hlen; lia).
    set (c1 := with_cache c0 _) in Hs.
    destruct (@set_many_fresh rest c1) as (c' & Hs' & _ & _ & _ & Hl').
    - subst c1 c0. exact Hnd1.
    - subst c1 c0. simpl. simpl in Hlen. lia.
    - rewrite Hs' in Hs. injection Hs as ->.
      rewrite Hl'.
      + subst c1 c0. simpl. unfold key_of.
        rewrite (proj2 (str_eqb_eq _ _) eq_refl). reflexivity.
      + inversion Hnd1; assumption. }
  intros now_g Hfresh.
  assert (Hget : get_call c now_g first = (Some (payload first), c)).
  { unfold get_call. apply (@get_hit c now_g _ _ _ _ Hl). simpl.
    rewrite Ht. exact Hfresh. }
  split; [exact Hget|]. rewrite Hget. simpl snd.
  assert (Hfull : Z.of_nat (List.length (cache c)) = max_size c).
  { rewrite Hm. subst c0. simpl max_size.
    apply (f_equal (@List.length _)) in Hk. unfold keys in Hk.
    rewrite length_map in Hk. rewrite Hk. simpl. rewrite length_map.
    simpl in Hlen. lia. }
  destruct (@set_when_full c (at_time new) (query new) (doc_ids new)
              (top_k new) (payload new))
    as (oldest & e & rest' & Hc & _ & Hset).
  { rewrite Hm. subst c0. simpl. simpl in Hlen. lia. }
  { exact Hfull. }
  unfold set_call. rewrite Hset. eexists. split; [reflexivity|].
  rewrite Hc in Hk. simpl in Hk. injection Hk as Ho Hr.
  assert (Hnew : ~ In (key_of new) (keys rest')).
  { rewrite Hr. simpl in Hnd.
    inversion Hnd as [|? ? _ Hnd']. subst.
    rewrite map_app in Hnd'. simpl in Hnd'.
    apply NoDup_remove_2 in Hnd'. rewrite app_nil_r in Hnd'. exact Hnd'. }
  assert (Hkeys : keys (store rest' (key_of new)
                     {| response := payload new; cached_at := at_time new |})
                  = map (@key_of Response) (rest ++ [new])).
  { rewrite DictFacts.keys_setitem_new; [|apply str_eqb_eq|exact Hnew].
    rewrite Hr, map_app. reflexivity. }
  split; [exact Hkeys|].
  intros now'. unfold get_call. apply get_absent. simpl cache.
  apply DictFacts.get_None_notin; [apply str_eqb_eq|].
  fold (key_of first) (key_of new). rewrite Hkeys.
  inversion Hnd; assumption.
Qed.

(** C3.  A [set] on a cache that holds [max_size] entries evicts exactly
    one entry, the first key of the dict's insertion order, and then stores
    the new entry in what is left; the size stays within [max_size] under
    every [set] and [get]; a [get] that hits leaves the dict as it was, so
    reading an entry does not protect it.  In a run that fills an empty
    cache of capacity [n] (500 in the deployment) with [n] requests of
    distinct keys, reads the first one and stores one more, the entry that
    goes is the first one, the earliest inserted and the most recently
    read. *)
Theorem cache_fifo_eviction :
  (forall c now q d k r,
      0 < max_size c -> Z.of_nat (List.length (cache c)) = max_size c ->
      exists oldest e rest,
        cache c = (oldest, e) :: rest /\
        first_key (cache c) = Some oldest /\
        set c now q d k r
        = Some (with_cache c (store rest (key q d k)
                                    {| response := r; cached_at := now |})))
  /\ (forall c now q d k r,
         0 < max_size c -> Z.of_nat (List.length (cache c)) <= max_size c ->
         exists c', set c now q d k r = Some c' /\ max_size c' = max_size c /\
                    Z.of_nat (List.length (cache c')) <= max_size c')
  /\ (forall c now q d k,
         (List.length (cache (snd (get c now q d k))) <= List.length (cache c))%nat
         /\ max_size (snd (get c now q d k)) = max_size c
         /\ (forall r, fst (get c now q d k) = Some r ->
                       snd (get c now q d k) = c))
  /\ (forall (n : nat) (ttl : Z) (first : call Response)
             (rest : list (call Response)) (new : call Response),
         List.length (first :: rest) = n ->
         NoDup (map (@key_of Response) (first :: rest ++ [new])) ->
         exists c,
           set_many (init Response (Z.of_nat n) ttl) (first :: rest) = Some c /\
           keys (cache c) = map (@key_of Response) (first :: rest) /\
           forall now_g,
             now_g < at_time first + timedelta_hours ttl ->
             get_call c now_g first = (Some (payload first), c) /\
             exists c2,
               set_call (snd (get_call c now_g first)) new = Some c2 /\
               keys (cache c2) = map (@key_of Response) (rest ++ [new]) /\
               forall now', get_call c2 now' first = (None, c2)).
Proof.
  split; [|split; [|split]].
  - intros. now apply set_when_full.
  - intros. now apply set_bounded.
  - intros c now q d k. destruct (get_shrinks c now q d k) as [H1 H2].
    split; [exact H1|]. split; [exact H2|]. apply get_hit_same.
  - apply fifo_run.
Qed.

End Facts.

Lemma cache_get_semantics_witness :
  exists c',
    set (_cache nat) 1000 (lit "What is BM25?") None 6 7%nat = Some c' /\
    get c' 1001 (lit "What is BM25?") None 6 = (Some 7%nat, c') /\
    fst (get c' (1000 + timedelta_hours 24) (lit "What is BM25?") None 6) = None.
Proof.
  eexists. split; [reflexivity|].
  assert (Hnd : NoDup (keys (cache (_cache nat)))) by constructor.
  split.
  - destruct (@cache_get_semantics nat (_cache nat) 1001
                (lit "What is BM25?") None 6 Hnd)
      as (_ & _ & H).
    apply (H 1000 7%nat _ eq_refl). reflexivity.
  - destruct (@cache_get_semantics nat (_cache nat)
                (1000 + timedelta_hours 24) (lit "What is BM25?") None 6 Hnd) as (_ & _ & H).
    apply (H 1000 7%nat _ eq_refl). simpl. lia.
Defined.

Lemma cache_fifo_eviction_witness :
  let a := {| at_time := 10; query := lit "first question"; doc_ids := None;
              top_k := 6; payload := 1%nat |} in
  let b := {| at_time := 20; query := lit "second question"; doc_ids := None;
              top_k := 6; payload := 2%nat |} in
  let x := {| at_time := 40; query := lit "third question"; doc_ids := None;
              top_k := 6; payload := 3%nat |} in
  exists c c2,
    set_many (init nat 2 24) [a; b] = Some c /\
    get_call c 30 a = (Some 1%nat, c) /\
    set_call c x = Some c2 /\
    keys (cache c2) = [key_of b; key_of x] /\
    get_call c2 50 a = (None, c2).
Proof.
  intros a b x.
  assert (Hnd : NoDup (map (@key_of nat) (a :: [b] ++ [x]))).
  { vm_compute. repeat constructor; simpl; intuition discriminate. }
  destruct (proj2 (proj2 (proj2 (@cache_fifo_eviction nat)))
              2%nat 24 a [b] x eq_refl Hnd) as (c & Hs & _ & H).
  destruct (H 30) as (Hg & c2 & Hs2 & Hk2 & Hn).
  { vm_compute. reflexivity. }
  rewrite Hg in Hs2. simpl in Hs2.
  exists c, c2. repeat split; auto.
Defined.

End CacheFacts.

(** ** The cache key *)

Module KeyFacts.
Import Py Cache KeySpec.
Local Open Scope Z_scope.

Lemma sorted_doc_ids_of (d : option (list str)) :
  Json.kd_doc_ids (key_data_of (lit "") d 0) = sorted str_ltb (ids_of d).
Proof. destruct d as [[|x l]|]; reflexivity. Qed.

Lemma key_data_of_eq (q1 q2 : str) (d1 d2 : option (list str)) (k : Z) :
  strip (lower q1) = strip (lower q2) ->
  sorted str_ltb (ids_of d1) = sorted str_ltb (ids_of d2) ->
  key_data_of q1 d1 k = key_data_of q2 d2 k.
Proof.
  intros Hq Hd. unfold key_data_of. f_equal; [exact Hq|].
  pose proof (sorted_doc_ids_of d1) as H1.
  pose proof (sorted_doc_ids_of d2) as H2.
  simpl in H1, H2. congruence.
Qed.




End KeyFacts.

(** ** The pipeline flags in the key *)

Module AskFacts.
Import Py Cache KeySpec Ask.
Local Open Scope Z_scope.

Lemma suffix_inj (f1 f2 : flags) :
  cache_key_suffix f1 = cache_key_suffix f2 -> f1 = f2.
Proof.
  destruct f1 as [[] [] []], f2 as [[] [] []]; vm_compute; congruence.
Qed.

Lemma suffix_shape (f : flags) :
  cache_key_suffix f = []
  \/ exists t, cache_key_suffix f = "_"%char :: t
               /\ rstrip (cache_key_suffix f) = cache_key_suffix f
               /\ lower (cache_key_suffix f) = cache_key_suffix f.
Proof.
  destruct f as [[] [] []]; vm_compute; auto; right; eexists; repeat split.
Qed.

Lemma space_prefix_unique (w1 w2 t1 t2 : str) (c1 c2 : ascii) :
  all_space w1 -> all_space w2 -> isspace c1 = false -> isspace c2 = false ->
  w1 ++ c1 :: t1 = w2 ++ c2 :: t2 -> c1 :: t1 = c2 :: t2.
Proof.
  intros H1. revert w2. induction H1 as [|x w1 Hx _ IH]; intros w2 H2 Hc1 Hc2 E.
  - destruct H2 as [|y w2 Hy _]; [exact E|].
    simpl in E. injection E as -> _. congruence.
  - destruct H2 as [|y w2 Hy H2].
    + simpl in E. injection E as -> _. congruence.
    + simpl in E. injection E as _ E. now apply (IH w2).
Qed.

(** The normalized query of a request: with a suffix, only the left side
    of the query is stripped. *)
Lemma normalized_with_suffix (q : str) (f : flags) :
  cache_key_suffix f <> [] ->
  exists w, all_space w /\
            strip (lower (cache_query q f))
            = strip (lower q) ++ w ++ cache_key_suffix f.
Proof.
  intro Hne. destruct (suffix_shape f) as [E|(t & E & Hr & Hl)]; [contradiction|].
  unfold cache_query. rewrite StrFacts.lower_app, Hl.
  destruct (StrFacts.rstrip_split (lstrip (lower q))) as (w & Hw & Hsp).
  exists w. split; [exact Hsp|].
  unfold strip at 1. rewrite E at 1.
  rewrite StrFacts.lstrip_app_nonspace by reflexivity.
  rewrite <- E.
  rewrite StrFacts.rstrip_app_nonspace by (rewrite Hr, E; discriminate).
  rewrite Hr. unfold strip. rewrite Hw at 1. now rewrite <- app_assoc.
Qed.

Lemma normalized_queries_differ (q1 q2 : str) (f1 f2 : flags) :
  strip (lower q1) = strip (lower q2) -> f1 <> f2 ->
  strip (lower (cache_query q1 f1)) <> strip (lower (cache_query q2 f2)).
Proof.
  intros Hn Hf E.
  destruct (list_eq_dec ascii_dec (cache_key_suffix f1) []) as [E1|N1];
    destruct (list_eq_dec ascii_dec (cache_key_suffix f2) []) as [E2|N2].
  - apply Hf, suffix_inj. congruence.
  - destruct (@normalized_with_suffix q2 f2 N2) as (w & _ & H2).
    unfold cache_query in E at 1. rewrite E1, app_nil_r, H2, Hn in E.
    apply (f_equal (@List.length _)) in E. rewrite !length_app in E.
    destruct (cache_key_suffix f2); [contradiction|simpl in E; lia].
  - destruct (@normalized_with_suffix q1 f1 N1) as (w & _ & H1).
    unfold cache_query in E at 2. rewrite E2, app_nil_r, H1, Hn in E.
    apply (f_equal (@List.length _)) in E. rewrite !length_app in E.
    destruct (cache_key_suffix f1); [contradiction|simpl in E; lia].
  - destruct (@normalized_with_suffix q1 f1 N1) as (w1 & Hw1 & H1).
    destruct (@normalized_with_suffix q2 f2 N2) as (w2 & Hw2 & H2).
    rewrite H1, H2, Hn in E. apply app_inv_head in E.
    destruct (suffix_shape f1) as [?|(t1 & S1 & _)]; [contradiction|].
    destruct (suffix_shape f2) as [?|(t2 & S2 & _)]; [contradiction|].
    apply Hf, suffix_inj. rewrite S1, S2 in *.
    eapply space_prefix_unique; [exact Hw1|exact Hw2| | |exact E]; reflexivity.
Qed.

Lemma encode_inj (a b : str) : Sha256.encode a = Sha256.encode b -> a = b.
Proof.
  revert b. induction a as [|x a IH]; intros [|y b]; simpl; try congruence.
  intro H. injection H as Hx Ht. f_equal; [|now apply IH].
  apply StrFacts.code_inj. now apply N2Z.inj.
Qed.



End AskFacts.

(** ** [sorted(..., reverse=True)] *)

Module SortedReverseFacts.
Section Descending.
Local Open Scope Q_scope.
Variable A : Type.
Variable key : A -> Q.

(** [a] may stand before [b]: its key is not smaller. *)
Local Abbreviation ge := (fun a b : A => key b <= key a).

Lemma insert_desc_perm (x : A) (l : list A) :
  Permutation (x :: l) (Py.insert_desc key x l).
Proof.
  induction l as [|y l IH]; simpl; [reflexivity|].
  destruct (Py.Qltb (key x) (key y)); [|reflexivity].
  rewrite perm_swap. now apply perm_skip.
Qed.

Lemma sorted_reverse_perm (l : list A) : Permutation l (Py.sorted_reverse key l).
Proof.
  induction l as [|x l IH]; simpl; [reflexivity|].
  rewrite <- insert_desc_perm. now apply perm_skip.
Qed.

Lemma insert_desc_ordered (x : A) (l : list A) :
  Sorted ge l -> Sorted ge (Py.insert_desc key x l).
Proof.
  induction l as [|y l IH]; simpl; intro Hs.
  - repeat constructor.
  - destruct (Py.Qltb (key x) (key y)) eqn:E.
    + apply PyFacts.Qltb_lt in E.
      inversion Hs as [|? ? Hl Hh]; subst. constructor; [now apply IH|].
      destruct l as [|z l]; simpl.
      * constructor. now apply Qlt_le_weak.
      * destruct (Py.Qltb (key x) (key z)); constructor.
        -- inversion Hh; assumption.
        -- now apply Qlt_le_weak.
    + apply PyFacts.Qltb_ge in E. constructor; [exact Hs|]. now constructor.
Qed.

Lemma sorted_reverse_ordered (l : list A) :
  StronglySorted ge (Py.sorted_reverse key l).
Proof.
  apply Sorted_StronglySorted.
  - intros a b c Hab Hbc. eapply Qle_trans; eassumption.
  - induction l as [|x l IH]; simpl; [constructor|].
    now apply insert_desc_ordered.
Qed.

(** Stability: the items of one key keep their order. *)
Lemma insert_desc_stable (v : Q) (x : A) (l : list A) :
  filter (fun a => Qeq_bool (key a) v) (Py.insert_desc key x l)
  = filter (fun a => Qeq_bool (key a) v) (x :: l).
Proof.
  induction l as [|y l IH]; [reflexivity|].
  simpl Py.insert_desc. destruct (Py.Qltb (key x) (key y)) eqn:E; [|reflexivity].
  apply PyFacts.Qltb_lt in E.
  change (filter (fun a => Qeq_bool (key a) v) (y :: Py.insert_desc key x l))
    with (if Qeq_bool (key y) v
          then y :: filter (fun a => Qeq_bool (key a) v) (Py.insert_desc key x l)
          else filter (fun a => Qeq_bool (key a) v) (Py.insert_desc key x l)).
  rewrite IH. simpl.
  destruct (Qeq_bool (key x) v) eqn:Ex; destruct (Qeq_bool (key y) v) eqn:Ey;
    try reflexivity.
  apply Qeq_bool_iff in Ex, Ey. rewrite Ex, Ey in E.
  exfalso. exact (Qlt_irrefl _ E).
Qed.

Lemma sorted_reverse_stable (v : Q) (l : list A) :
  filter (fun a => Qeq_bool (key a) v) (Py.sorted_reverse key l)
  = filter (fun a => Qeq_bool (key a) v) l.
Proof.
  induction l as [|x l IH]; [reflexivity|].
  simpl Py.sorted_reverse. rewrite insert_desc_stable. simpl. now rewrite IH.
Qed.

(** Stability, said of two items: one that stands before another and whose
    key is not smaller still stands before it in the sorted list. *)
Lemma insert_desc_keeps (x a b : A) (l : list A) :
  (exists l1 l2 l3, l = l1 ++ a :: l2 ++ b :: l3) ->
  exists l1 l2 l3, Py.insert_desc key x l = l1 ++ a :: l2 ++ b :: l3.
Proof.
  induction l as [|y l IH]; intros (l1 & l2 & l3 & E).
  - destruct l1; discriminate.
  - cbn [Py.insert_desc]. destruct (Py.Qltb (key x) (key y)).
    + destruct l1 as [|z l1]; cbn [app] in E; injection E as -> E.
      * assert (Hb : In b (Py.insert_desc key x l)).
        { eapply Permutation_in; [apply insert_desc_perm|].
          right. rewrite E. apply in_or_app. right. now left. }
        apply in_split in Hb. destruct Hb as (m1 & m2 & ->).
        exists [], m1, m2. reflexivity.
      * destruct IH as (k1 & k2 & k3 & ->); [now exists l1, l2, l3|].
        exists (z :: k1), k2, k3. reflexivity.
    + exists (x :: l1), l2, l3. rewrite E. reflexivity.
Qed.

Lemma insert_desc_new (x b : A) (l : list A) :
  In b l -> key b <= key x ->
  exists l1 l2 l3, Py.insert_desc key x l = l1 ++ x :: l2 ++ b :: l3.
Proof.
  induction l as [|y l IH]; intros Hb Hle; [destruct Hb|].
  cbn [Py.insert_desc]. destruct (Py.Qltb (key x) (key y)) eqn:E.
  - apply PyFacts.Qltb_lt in E. destruct Hb as [->|Hb].
    + exfalso. exact (Qlt_not_le _ _ E Hle).
    + destruct (IH Hb Hle) as (k1 & k2 & k3 & ->).
      exists (y :: k1), k2, k3. reflexivity.
  - apply in_split in Hb. destruct Hb as (m1 & m2 & ->).
    exists [], m1, m2. reflexivity.
Qed.

Lemma sorted_reverse_keeps (a b : A) (l : list A) :
  (exists l1 l2 l3, l = l1 ++ a :: l2 ++ b :: l3) ->
  key b <= key a ->
  exists l1 l2 l3, Py.sorted_reverse key l = l1 ++ a :: l2 ++ b :: l3.
Proof.
  intros H Hle. induction l as [|x l IH]; destruct H as (l1 & l2 & l3 & E).
  - destruct l1; discriminate.
  - cbn [Py.sorted_reverse].
    destruct l1 as [|z l1]; cbn [app] in E; injection E as -> E.
    + apply insert_desc_new; [|exact Hle].
      eapply Permutation_in; [apply sorted_reverse_perm|].
      rewrite E. apply in_or_app. right. now left.
    + apply insert_desc_keeps. apply IH. now exists l1, l2, l3.
Qed.

End Descending.
End SortedReverseFacts.

(** ** Reciprocal rank fusion *)

Module RrfFacts.
Import Py Chunks Rrf RrfSpec.
Local Open Scope Q_scope.

Lemma existsb_eqb_In (x : Z) (l : list Z) :
  existsb (Z.eqb x) l = true <-> In x l.
Proof.
  rewrite existsb_exists. split.
  - intros (y & Hy & E). apply Z.eqb_eq in E. now subst.
  - intro H. exists x. split; [exact H|apply Z.eqb_refl].
Qed.

Lemma first_seen_from_ext (l : list Z) :
  forall s1 s2, (forall x, In x s1 <-> In x s2) ->
                first_seen_from s1 l = first_seen_from s2 l.
Proof.
  induction l as [|x l IH]; intros s1 s2 H; simpl; [reflexivity|].
  assert (E : existsb (Z.eqb x) s1 = existsb (Z.eqb x) s2).
  { apply eq_true_iff_eq. rewrite !existsb_eqb_In. apply H. }
  rewrite E. destruct (existsb (Z.eqb x) s2); [now apply IH|].
  f_equal. apply IH. intro y. simpl. rewrite H. tauto.
Qed.

Lemma first_seen_from_spec (l : list Z) :
  forall seen,
    NoDup (first_seen_from seen l) /\
    forall x, In x (first_seen_from seen l) <-> In x l /\ ~ In x seen.
Proof.
  induction l as [|y l IH]; intro seen; simpl.
  - split; [constructor|]. tauto.
  - destruct (existsb (Z.eqb y) seen) eqn:E.
    + apply existsb_eqb_In in E. destruct (IH seen) as [Hn Hi].
      split; [exact Hn|]. intro x. rewrite Hi. split.
      * tauto.
      * intros [[->|H] Hs]; [contradiction|tauto].
    + assert (Hy : ~ In y seen).
      { intro H. apply existsb_eqb_In in H. congruence. }
      destruct (IH (y :: seen)) as [Hn Hi]. split.
      * constructor; [|exact Hn]. rewrite Hi. simpl. tauto.
      * intro x. simpl. rewrite Hi. simpl.
        destruct (Z.eq_dec y x) as [->|Hne]; tauto.
Qed.

(** *** The score dict *)

Lemma keys_defaultdict_add (d : dict Z Q) (i : Z) (v : Q) :
  keys (defaultdict_add d i v)
  = if existsb (Z.eqb i) (keys d) then keys d else keys d ++ [i].
Proof.
  unfold defaultdict_add. destruct (existsb (Z.eqb i) (keys d)) eqn:E.
  - apply existsb_eqb_In in E.
    apply DictFacts.keys_setitem_old; [apply Z.eqb_eq|exact E].
  - apply DictFacts.keys_setitem_new; [apply Z.eqb_eq|].
    intro H. apply existsb_eqb_In in H. congruence.
Qed.

Lemma keys_add_all (cs : list (Z * Q)) :
  forall d, keys (add_all d cs)
            = keys d ++ first_seen_from (keys d) (map fst cs).
Proof.
  induction cs as [|[i v] cs IH]; intro d; simpl.
  - now rewrite app_nil_r.
  - unfold add_all in *. simpl. rewrite IH, keys_defaultdict_add.
    destruct (existsb (Z.eqb i) (keys d)); [reflexivity|].
    rewrite <- app_assoc. simpl. do 2 f_equal.
    apply first_seen_from_ext. intro x. rewrite in_app_iff. simpl. tauto.
Qed.

Lemma NoDup_keys_add_all (cs : list (Z * Q)) :
  forall d, NoDup (keys d) -> NoDup (keys (add_all d cs)).
Proof.
  induction cs as [|[i v] cs IH]; intros d H; simpl; [exact H|].
  apply IH. unfold defaultdict_add.
  apply DictFacts.NoDup_keys_setitem; [apply Z.eqb_eq|exact H].
Qed.

Lemma get_defaultdict_add (d : dict Z Q) (j i : Z) (v : Q) :
  get Z.eqb (defaultdict_add d j v) i
  = if Z.eqb j i then add_share (get Z.eqb d i) (Some v) else get Z.eqb d i.
Proof.
  unfold defaultdict_add. destruct (Z.eqb_spec j i) as [->|Hne].
  - rewrite DictFacts.get_setitem_same by apply Z.eqb_eq.
    destruct (get Z.eqb d i); reflexivity.
  - rewrite DictFacts.get_setitem_other; [|apply Z.eqb_eq|exact Hne].
    reflexivity.
Qed.

Lemma get_add_all (i : Z) (cs : list (Z * Q)) :
  forall d, get Z.eqb (add_all d cs) i = sum_for i cs (get Z.eqb d i).
Proof.
  induction cs as [|[j v] cs IH]; intro d; simpl; [reflexivity|].
  unfold add_all in *. simpl. rewrite IH, get_defaultdict_add. reflexivity.
Qed.

Lemma sum_for_app (i : Z) (a b : list (Z * Q)) :
  forall acc, sum_for i (a ++ b) acc = sum_for i b (sum_for i a acc).
Proof.
  induction a as [|it a IH]; intro acc; simpl; [reflexivity|]. apply IH.
Qed.

Lemma get_of_In (d : dict Z Q) (i : Z) (v : Q) :
  NoDup (keys d) -> In (i, v) d -> get Z.eqb d i = Some v.
Proof.
  induction d as [|[j w] d IH]; simpl; intros Hn Hin; [contradiction|].
  inversion Hn as [|? ? Hj Hn']; subst.
  destruct Hin as [E|Hin].
  - injection E as -> ->. now rewrite Z.eqb_refl.
  - destruct (Z.eqb_spec j i) as [->|Hne]; [|now apply IH].
    exfalso. apply Hj. change i with (fst (i, v)). now apply in_map.
Qed.

(** *** The shares of one ranked list *)

Lemma map_fst_shares (k s : nat) (l : list chunk) :
  map fst (shares k (enumerate_from s l)) = map (@Chunks.id Q) l.
Proof.
  revert s. induction l as [|c l IH]; intro s; simpl; [reflexivity|].
  f_equal. apply IH.
Qed.

Lemma sum_for_absent (k : nat) (i : Z) (l : list chunk) :
  forall s acc, ~ In i (map (@Chunks.id Q) l) ->
                sum_for i (shares k (enumerate_from s l)) acc = acc.
Proof.
  induction l as [|c l IH]; intros s acc H; simpl; [reflexivity|].
  simpl in H. destruct (Z.eqb_spec (Chunks.id c) i) as [E|_]; [tauto|].
  apply IH. tauto.
Qed.

Lemma index_of_absent (i : Z) (l : list Z) : ~ In i l -> index_of i l = None.
Proof.
  induction l as [|x l IH]; simpl; intro H; [reflexivity|].
  destruct (Z.eqb_spec x i) as [E|_]; [tauto|]. rewrite IH by tauto. reflexivity.
Qed.

Lemma sum_for_ranked (k : nat) (i : Z) (l : list chunk) :
  forall s acc, NoDup (map (@Chunks.id Q) l) ->
            sum_for i (shares k (enumerate_from s l)) acc
            = add_share acc
                match index_of i (map (@Chunks.id Q) l) with
                | Some n => Some (reciprocal (k + (s + n) + 1))
                | None => None
                end.
Proof.
  induction l as [|c l IH]; intros s acc Hn; simpl; [reflexivity|].
  inversion Hn as [|? ? Hc Hn']; subst.
  destruct (Z.eqb_spec (Chunks.id c) i) as [E|Hne].
  - subst i. rewrite sum_for_absent by exact Hc.
    replace (k + (s + 0) + 1)%nat with (k + s + 1)%nat by lia. reflexivity.
  - rewrite IH by exact Hn'.
    destruct (index_of i (map (@Chunks.id Q) l)) as [n|]; [|reflexivity].
    replace (k + (S s + n) + 1)%nat with (k + (s + S n) + 1)%nat by lia.
    reflexivity.
Qed.

Lemma sum_for_rank_term (k : nat) (i : Z) (l : list chunk) (acc : option Q) :
  NoDup (map (@Chunks.id Q) l) ->
  sum_for i (shares k (enumerate l)) acc
  = add_share acc (rank_term k (map (@Chunks.id Q) l) i).
Proof.
  intro Hn. unfold enumerate, rank_term. rewrite sum_for_ranked by exact Hn.
  destruct (index_of i (map (@Chunks.id Q) l)) as [n|]; reflexivity.
Qed.

(** *** The two loops *)

Lemma fst_fold_vector (k : nat) (rcs : list (nat * chunk)) :
  forall st, fst (fold_left (vector_step k) rcs st)
             = add_all (fst st) (shares k rcs).
Proof.
  induction rcs as [|[rank c] rcs IH]; intros [sc da]; [reflexivity|].
  simpl fold_left. rewrite IH. reflexivity.
Qed.

Lemma fst_fold_bm25 (k : nat) (rcs : list (nat * chunk)) :
  forall st, fst (fold_left (bm25_step k) rcs st)
             = add_all (fst st) (shares k rcs).
Proof.
  induction rcs as [|[rank c] rcs IH]; intros [sc da]; [reflexivity|].
  simpl fold_left. rewrite IH. reflexivity.
Qed.

Lemma scores_accumulate (k : nat) (V B : list chunk) :
  fst (accumulate k V B)
  = add_all [] (shares k (enumerate V) ++ shares k (enumerate B)).
Proof.
  unfold accumulate. rewrite fst_fold_bm25, fst_fold_vector.
  unfold add_all. now rewrite fold_left_app.
Qed.

Lemma In_keys_defaultdict_add (d : dict Z Q) (j i : Z) (v : Q) :
  In i (keys (defaultdict_add d j v)) -> i = j \/ In i (keys d).
Proof.
  rewrite keys_defaultdict_add.
  destruct (existsb (Z.eqb j) (keys d)); [tauto|].
  rewrite in_app_iff. simpl. intuition.
Qed.

Lemma data_ok_store (sc : dict Z Q) (da : dict Z chunk) (c' : chunk) (v : Q) :
  data_ok (sc, da) ->
  data_ok (defaultdict_add sc (Chunks.id c') v,
           setitem Z.eqb da (Chunks.id c') c').
Proof.
  intros [H1 H2]. split; simpl in *.
  - intros i Hi. destruct (Z.eq_dec (Chunks.id c') i) as [<-|Hne].
    + rewrite DictFacts.get_setitem_same by apply Z.eqb_eq. discriminate.
    + rewrite DictFacts.get_setitem_other; [|apply Z.eqb_eq|exact Hne].
      apply H1. apply In_keys_defaultdict_add in Hi.
      destruct Hi as [E|Hi]; [congruence|exact Hi].
  - intros i c0. destruct (Z.eq_dec (Chunks.id c') i) as [<-|Hne].
    + rewrite DictFacts.get_setitem_same by apply Z.eqb_eq. congruence.
    + rewrite DictFacts.get_setitem_other; [|apply Z.eqb_eq|exact Hne].
      apply H2.
Qed.

Lemma data_ok_vector_step (k : nat) (st : state) (rc : nat * chunk) :
  data_ok st -> data_ok (vector_step k st rc).
Proof.
  destruct st as [sc da], rc as [rank c]. intro H. unfold vector_step.
  destruct (vector_rank c).
  - now apply data_ok_store.
  - exact (@data_ok_store sc da (set_vector_rank c (rank + 1)) _ H).
Qed.

Lemma data_ok_bm25_step (k : nat) (st : state) (rc : nat * chunk) :
  data_ok st -> data_ok (bm25_step k st rc).
Proof.
  destruct st as [sc da], rc as [rank c]. intro H. unfold bm25_step.
  destruct (get Z.eqb da (Chunks.id c)) as [c0|] eqn:E.
  - assert (E0 : Chunks.id c0 = Chunks.id c) by (apply (proj2 H); exact E).
    rewrite <- E0.
    exact (@data_ok_store sc da (set_bm25_rank c0 (rank + 1)) _ H).
  - exact (@data_ok_store sc da (set_bm25_rank c (rank + 1)) _ H).
Qed.

Lemma data_ok_accumulate (k : nat) (V B : list chunk) :
  data_ok (accumulate k V B).
Proof.
  unfold accumulate.
  assert (Hf : forall (step : state -> nat * chunk -> state) rcs st,
             (forall st rc, data_ok st -> data_ok (step st rc)) ->
             data_ok st -> data_ok (fold_left step rcs st)).
  { intros step rcs. induction rcs as [|rc rcs IH]; intros st Hs H; simpl; auto. }
  apply Hf; [apply data_ok_bm25_step|].
  apply Hf; [apply data_ok_vector_step|].
  split; simpl; [tauto|discriminate].
Qed.

(** *** The result list *)

Lemma build_spec (da : dict Z chunk) (items : list (Z * Q)) :
  (forall it, In it items ->
              exists c, get Z.eqb da (fst it) = Some c /\ Chunks.id c = fst it) ->
  map (fun c : chunk => (Chunks.id c, rrf_score c, score c)) (build da items)
  = map (fun it : Z * Q => (fst it, Some (snd it), Some (snd it))) items.
Proof.
  induction items as [|it items IH]; intro H; [reflexivity|].
  simpl. destruct (H it (or_introl eq_refl)) as (c & Hc & Hid).
  rewrite Hc. simpl. rewrite Hid. f_equal.
  apply IH. intros it' Hin. apply H. now right.
Qed.

Lemma sorted_through_map (X Y : Type) (g : X -> Y) (R : Y -> Y -> Prop)
      (l : list X) :
  StronglySorted R (map g l) -> StronglySorted (fun a b => R (g a) (g b)) l.
Proof.
  induction l as [|x l IH]; simpl; intro H; [constructor|].
  inversion H as [|? ? Hs Hf]; subst. constructor; [now apply IH|].
  rewrite Forall_forall in *. intros y Hy. apply Hf. now apply in_map.
Qed.

Lemma filter_map_fst (p : Z -> bool) (l : list (Z * Q)) :
  filter p (map fst l) = map fst (filter (fun it => p (fst it)) l).
Proof.
  induction l as [|it l IH]; simpl; [reflexivity|].
  destruct (p (fst it)); simpl; now rewrite IH.
Qed.

Section Fused.
Variable k : nat.
Variables V B : list chunk.
Hypothesis V_ranked : NoDup (map (@Chunks.id Q) V).
Hypothesis B_ranked : NoDup (map (@Chunks.id Q) B).

Local Abbreviation ids_v := (map (@Chunks.id Q) V).
Local Abbreviation ids_b := (map (@Chunks.id Q) B).
Local Abbreviation sc := (fst (accumulate k V B)).
Local Abbreviation da := (snd (accumulate k V B)).
Local Abbreviation items := (sorted_reverse (@snd Z Q) sc).

Lemma keys_scores : keys sc = first_seen ids_v ids_b.
Proof.
  rewrite scores_accumulate, keys_add_all. simpl.
  unfold first_seen, enumerate. now rewrite map_app, !map_fst_shares.
Qed.

Lemma NoDup_keys_scores : NoDup (keys sc).
Proof. rewrite keys_scores. apply first_seen_from_spec. Qed.

Lemma score_of_item (it : Z * Q) :
  In it sc -> snd it = rrf k ids_v ids_b (fst it).
Proof.
  intro Hin. destruct it as [i v]. simpl.
  pose proof (get_of_In sc i v NoDup_keys_scores Hin) as Hget.
  rewrite scores_accumulate, get_add_all, sum_for_app in Hget.
  rewrite !sum_for_rank_term in Hget by assumption.
  unfold rrf. simpl in Hget. now rewrite Hget.
Qed.

Lemma fusion_output :
  reciprocal_rank_fusion k V B = build da items.
Proof.
  unfold reciprocal_rank_fusion. destruct (accumulate k V B); reflexivity.
Qed.

Lemma items_perm : Permutation sc items.
Proof. apply SortedReverseFacts.sorted_reverse_perm. Qed.

Lemma output_fields :
  map (fun c : chunk => (Chunks.id c, rrf_score c, score c))
      (reciprocal_rank_fusion k V B)
  = map (fun it : Z * Q => (fst it, Some (snd it), Some (snd it))) items.
Proof.
  rewrite fusion_output. apply build_spec. intros it Hin.
  assert (Hk : In (fst it) (keys sc)).
  { apply in_map. eapply Permutation_in; [apply Permutation_sym, items_perm|].
    exact Hin. }
  destruct (data_ok_accumulate k V B) as [H1 H2].
  destruct (get Z.eqb da (fst it)) as [c|] eqn:E.
  - exists c. split; [reflexivity|]. now apply H2.
  - exfalso. now apply (H1 (fst it) Hk).
Qed.

Lemma output_items :
  map (fun c : chunk => (Chunks.id c, fused c)) (reciprocal_rank_fusion k V B)
  = items.
Proof.
  pose proof output_fields as H.
  apply (f_equal (map (fun t : Z * option Q * option Q =>
                         (fst (fst t),
                          match snd (fst t) with Some s => s | None => 0 end))))
    in H.
  rewrite !map_map in H. simpl in H.
  transitivity (map (fun x : Z * Q => (fst x, snd x)) items).
  - rewrite <- H. apply map_ext. intro c. reflexivity.
  - erewrite map_ext; [apply map_id|]. intros [a b]. reflexivity.
Qed.

End Fused.

Lemma output_ids (k : nat) (V B : list chunk) :
  NoDup (map (@Chunks.id Q) V) -> NoDup (map (@Chunks.id Q) B) ->
  map (@Chunks.id Q) (reciprocal_rank_fusion k V B)
  = map fst (sorted_reverse (@snd Z Q) (fst (accumulate k V B))).
Proof.
  intros HV HB. rewrite <- (@output_items k V B).
  rewrite map_map. reflexivity.
Qed.

Lemma output_ties (k : nat) (V B : list chunk) (v : Q) :
  NoDup (map (@Chunks.id Q) V) -> NoDup (map (@Chunks.id Q) B) ->
  filter (fun i => Qeq_bool (rrf k (map (@Chunks.id Q) V) (map (@Chunks.id Q) B) i) v)
         (map (@Chunks.id Q) (reciprocal_rank_fusion k V B))
  = filter (fun i => Qeq_bool (rrf k (map (@Chunks.id Q) V) (map (@Chunks.id Q) B) i) v)
           (first_seen (map (@Chunks.id Q) V) (map (@Chunks.id Q) B)).
Proof.
  intros HV HB.
  rewrite (@output_ids k V B HV HB), <- (@keys_scores k V B).
  unfold keys. rewrite !filter_map_fst. f_equal.
  set (sc := fst (accumulate k V B)).
  transitivity (filter (fun it : Z * Q => Qeq_bool (snd it) v)
                       (sorted_reverse (@snd Z Q) sc)).
  - apply filter_ext_in. intros it Hin.
    rewrite <- (@score_of_item k V B HV HB it); [reflexivity|].
    eapply Permutation_in; [apply Permutation_sym, items_perm|exact Hin].
  - rewrite SortedReverseFacts.sorted_reverse_stable.
    apply filter_ext_in. intros it Hin.
    now rewrite <- (@score_of_item k V B HV HB it).
Qed.

(** C1, amended.  For two ranked lists (each id once per list) and any
    constant [k] (60 in the pipeline), the fused list holds every distinct
    id exactly once; each result carries as [rrf_score] and as [score] the
    float that the code computes: starting from 0.0, the float [1/(k + rank)]
    of the vector list and then that of the BM25 list are added, each for
    the 1-indexed rank and only when the list contains the id; the list is
    in descending order of that stored score; results of equal stored score
    stand in the order in which their ids were first met, vector list
    first.  Fusing [A,B,C] with [B,A,C] at [k = 60] gives the order [A,B,C]
    with the floats of 1/61+1/62, 1/62+1/61 (the same float) and
    1/63+1/63. *)
Theorem rrf_fusion_correct :
  forall (k : nat) (V B : list chunk),
    NoDup (map (@Chunks.id Q) V) ->
    NoDup (map (@Chunks.id Q) B) ->
    let ids_v := map (@Chunks.id Q) V in
    let ids_b := map (@Chunks.id Q) B in
    let out := reciprocal_rank_fusion k V B in
    Permutation (map (@Chunks.id Q) out) (first_seen ids_v ids_b) /\
    NoDup (map (@Chunks.id Q) out) /\
    (forall i, In i (map (@Chunks.id Q) out) <-> In i ids_v \/ In i ids_b) /\
    (forall c, In c out ->
               rrf_score c = Some (rrf k ids_v ids_b (Chunks.id c)) /\
               score c = Some (rrf k ids_v ids_b (Chunks.id c))) /\
    (forall i,
        rrf k ids_v ids_b i
        = match index_of i ids_v, index_of i ids_b with
          | Some n, Some m =>
              Float.add (Float.add 0 (Float.div 1 (inject_Z (Z.of_nat (k + n + 1)))))
                        (Float.div 1 (inject_Z (Z.of_nat (k + m + 1))))
          | Some n, None =>
              Float.add 0 (Float.div 1 (inject_Z (Z.of_nat (k + n + 1))))
          | None, Some m =>
              Float.add 0 (Float.div 1 (inject_Z (Z.of_nat (k + m + 1))))
          | None, None => 0
          end) /\
    StronglySorted (fun a b => fused b <= fused a) out /\
    (forall v,
        filter (fun i => Qeq_bool (rrf k ids_v ids_b i) v) (map (@Chunks.id Q) out)
        = filter (fun i => Qeq_bool (rrf k ids_v ids_b i) v)
                 (first_seen ids_v ids_b)) /\
    map (@Chunks.id Q) (reciprocal_rank_fusion 60 [chunk_A; chunk_B; chunk_C]
                                              [chunk_B; chunk_A; chunk_C])
    = [1; 2; 3]%Z /\
    map fused (reciprocal_rank_fusion 60 [chunk_A; chunk_B; chunk_C]
                                      [chunk_B; chunk_A; chunk_C])
    = [Float.add (Float.add 0 (Float.div 1 61)) (Float.div 1 62);
       Float.add (Float.add 0 (Float.div 1 62)) (Float.div 1 61);
       Float.add (Float.add 0 (Float.div 1 63)) (Float.div 1 63)] /\
    Float.add (Float.add 0 (Float.div 1 61)) (Float.div 1 62)
    = Float.add (Float.add 0 (Float.div 1 62)) (Float.div 1 61).
Proof.
  intros k V B HV HB ids_v ids_b out.
  assert (Hperm : Permutation (map (@Chunks.id Q) out) (first_seen ids_v ids_b)).
  { subst out ids_v ids_b. rewrite (@output_ids k V B HV HB), <- (@keys_scores k V B).
    apply Permutation_map, Permutation_sym, items_perm. }
  assert (Hnd : NoDup (first_seen ids_v ids_b))
    by apply first_seen_from_spec.
  split; [exact Hperm|]. split.
  { eapply Permutation_NoDup; [apply Permutation_sym; exact Hperm|exact Hnd]. }
  split.
  { intro i. split.
    - intro Hi. apply (Permutation_in _ Hperm) in Hi.
      apply first_seen_from_spec in Hi. destruct Hi as [Hi _].
      now apply in_app_or.
    - intro Hi. apply (Permutation_in _ (Permutation_sym Hperm)).
      apply first_seen_from_spec. split; [now apply in_or_app|simpl; tauto]. }
  split.
  { intros c Hc.
    pose proof (@output_fields k V B) as Hf. fold out in Hf.
    assert (Hin : In (Chunks.id c, rrf_score c, score c)
                     (map (fun c : chunk => (Chunks.id c, rrf_score c, score c)) out))
      by (apply in_map_iff; exists c; auto).
    rewrite Hf in Hin. apply in_map_iff in Hin.
    destruct Hin as (it & E & Hit). injection E as E1 E2 E3.
    assert (Hs : snd it = rrf k ids_v ids_b (Chunks.id c)).
    { rewrite <- E1. apply (@score_of_item k V B HV HB).
      eapply Permutation_in; [apply Permutation_sym, items_perm|exact Hit]. }
    rewrite <- Hs. split; now symmetry. }
  split.
  { intro i. unfold rrf, rank_term, reciprocal.
    destruct (index_of i ids_v), (index_of i ids_b); reflexivity. }
  split.
  { apply (@sorted_through_map chunk (Z * Q)
             (fun c : chunk => (Chunks.id c, fused c))
             (fun a b : Z * Q => snd b <= snd a)).
    subst out. rewrite (@output_items k V B).
    apply SortedReverseFacts.sorted_reverse_ordered. }
  split.
  { intro v. now apply output_ties. }
  split.
  { vm_compute. reflexivity. }
  split; vm_compute; reflexivity.
Qed.

Lemma rrf_fusion_correct_witness :
  Permutation
    (map (@Chunks.id Q) (reciprocal_rank_fusion 60 [chunk_A; chunk_B; chunk_C]
                                                [chunk_B; chunk_A; chunk_C]))
    (first_seen [1; 2; 3]%Z [2; 1; 3]%Z).
Proof.
  assert (HV : NoDup (map (@Chunks.id Q) [chunk_A; chunk_B; chunk_C])).
  { simpl. repeat constructor; simpl; intuition discriminate. }
  assert (HB : NoDup (map (@Chunks.id Q) [chunk_B; chunk_A; chunk_C])).
  { simpl. repeat constructor; simpl; intuition discriminate. }
  destruct (@rrf_fusion_correct 60%nat _ _ HV HB) as [H _]. exact H.
Defined.

(** C1 as stated fails when the sums are read as exact fractions: in the
    rankings [tie_vector] and [tie_bm25] the ids 12 and 39 have the same
    exact score 1/72 + 1/88 = 1/99 + 1/66 and 12 is met first, but the
    floats that the code stores differ in the last bit, the one of 39 being
    the greater, and 39 comes out before 12. *)
Lemma rrf_exact_tie_reordered :
  rrf_exact 60 tie_vector tie_bm25 12 == rrf_exact 60 tie_vector tie_bm25 39 /\
  index_of 12 (first_seen tie_vector tie_bm25) = Some 11%nat /\
  index_of 39 (first_seen tie_vector tie_bm25) = Some 38%nat /\
  rrf 60 tie_vector tie_bm25 12 = 7278544852315953 # 288230376151711744 /\
  rrf 60 tie_vector tie_bm25 39 = 3639272426157977 # 144115188075855872 /\
  rrf 60 tie_vector tie_bm25 12 < rrf 60 tie_vector tie_bm25 39 /\
  rrf 60 tie_vector tie_bm25 12 < rrf_exact 60 tie_vector tie_bm25 12 /\
  rrf_exact 60 tie_vector tie_bm25 39 < rrf 60 tie_vector tie_bm25 39 /\
  index_of 39 (map (@Chunks.id Q)
                   (reciprocal_rank_fusion 60 (ranked tie_vector) (ranked tie_bm25)))
  = Some 0%nat /\
  index_of 12 (map (@Chunks.id Q)
                   (reciprocal_rank_fusion 60 (ranked tie_vector) (ranked tie_bm25)))
  = Some 1%nat.
Proof. repeat split; vm_compute; reflexivity. Qed.

End RrfFacts.

(** ** Reranking *)

Module RerankerFacts.
Import Py Chunks Reranker.
Local Open Scope Z_scope.

Lemma slice_to_firstn (A : Type) (l : list A) (n : Z) :
  0 <= n -> slice_to l n = firstn (Z.to_nat n) l.
Proof.
  intro H. unfold slice_to. apply Z.leb_le in H. now rewrite H.
Qed.

Lemma fallback_when_unavailable (query : str) (chunks : list chunk) (top_k : Z) :
  rerank_chunks None query chunks top_k = slice_to chunks top_k.
Proof.
  destruct chunks as [|c cs]; [|reflexivity].
  unfold slice_to. simpl. destruct (0 <=? top_k); now rewrite firstn_nil.
Qed.

Lemma fallback_when_predict_raises (m : CrossEncoder) (query : str)
      (chunks : list chunk) (top_k : Z) :
  predict m (map (fun c => (query, text c)) chunks) = None ->
  rerank_chunks (Some m) query chunks top_k = slice_to chunks top_k.
Proof.
  intro H. destruct chunks as [|c cs].
  - unfold slice_to. simpl. destruct (0 <=? top_k); now rewrite firstn_nil.
  - unfold rerank_chunks. now rewrite H.
Qed.

(** C6.  When the cross-encoder cannot be loaded, or its [predict] call
    raises, [rerank_chunks] returns [chunks[:top_k]]: for a non-negative
    [top_k] the first [top_k] chunks of the input, unchanged and in their
    order.  No exception leaves the function.  For a batch of 10 chunks and
    [top_k = 6] the result is the first 6 chunks. *)
Theorem reranker_fallback :
  forall (get_reranker : option CrossEncoder) (query : str)
         (chunks : list chunk) (top_k : Z),
    chunks <> [] ->
    (get_reranker = None \/
     exists m, get_reranker = Some m /\
               predict m (map (fun c => (query, text c)) chunks) = None) ->
    rerank_chunks get_reranker query chunks top_k = slice_to chunks top_k /\
    (0 <= top_k ->
     rerank_chunks get_reranker query chunks top_k
     = firstn (Z.to_nat top_k) chunks) /\
    (List.length chunks = 10%nat -> top_k = 6 ->
     rerank_chunks get_reranker query chunks top_k = firstn 6 chunks /\
     List.length (rerank_chunks get_reranker query chunks top_k) = 6%nat).
Proof.
  intros get_reranker query chunks top_k _ Hfail.
  assert (E : rerank_chunks get_reranker query chunks top_k
              = slice_to chunks top_k).
  { destruct Hfail as [->|(m & -> & Hp)].
    - apply fallback_when_unavailable.
    - now apply fallback_when_predict_raises. }
  split; [exact E|]. split.
  - intro H. rewrite E. now apply slice_to_firstn.
  - intros Hlen ->. rewrite E. split; [reflexivity|].
    change (slice_to chunks 6) with (firstn 6 chunks).
    rewrite length_firstn, Hlen. reflexivity.
Qed.

Lemma reranker_fallback_witness :
  let batch := map (fun i => @fresh Q (Z.of_nat i) (lit "text") None) (seq 1 10) in
  rerank_chunks None (lit "query") batch 6 = firstn 6 batch.
Proof.
  intro batch.
  destruct (@reranker_fallback None (lit "query") batch 6) as (_ & H & _).
  - discriminate.
  - now left.
  - apply H. lia.
Defined.

End RerankerFacts.

(** ** BM25 normalization *)

Module Bm25Facts.
Import Py Chunks HybridSearch.
Local Open Scope Q_scope.

Lemma fold_max_spec (l : list Q) :
  forall x m, fold_left (fun m y => if Qltb m y then y else m) l x = m ->
              (m = x \/ In m l) /\ x <= m /\ Forall (fun y => y <= m) l.
Proof.
  induction l as [|y l IH]; intros x m; simpl; intro Hm.
  - subst m. split; [now left|]. split; [apply Qle_refl|constructor].
  - destruct (Qltb x y) eqn:E.
    + apply PyFacts.Qltb_lt in E. destruct (IH y m Hm) as (H1 & H2 & H3).
      split; [destruct H1 as [H1|H1]; auto|]. split.
      * eapply Qle_trans; [apply Qlt_le_weak; exact E|exact H2].
      * constructor; assumption.
    + apply PyFacts.Qltb_ge in E. destruct (IH x m Hm) as (H1 & H2 & H3).
      split; [tauto|]. split; [exact H2|].
      constructor; [|exact H3]. eapply Qle_trans; eassumption.
Qed.

Lemma py_max_spec (l : list Q) (m : Q) :
  py_max l = Some m -> In m l /\ Forall (fun y => y <= m) l.
Proof.
  destruct l as [|x l]; simpl; [discriminate|].
  intro H. injection H as H.
  destruct (fold_max_spec l x H) as (H1 & H2 & H3). split.
  - simpl. destruct H1 as [->|H1]; auto.
  - constructor; assumption.
Qed.

Lemma py_max_nonempty (l : list Q) : l <> [] -> exists m, py_max l = Some m.
Proof. destruct l; [congruence|]. intros _. eexists. reflexivity. Qed.

Section Normalized.
Variable get_scores : list (list str) -> list str -> list Q.
Variable query : str.
Variable chunks : list chunk.

Local Abbreviation raw_scores :=
  (get_scores (map (fun c : chunk => split (lower (text c))) chunks)
              (split (lower query))).

(** What the normalization achieves when no raw score is negative. *)
Lemma normalized_when_nonnegative :
  raw_scores <> [] ->
  Forall (fun s => 0 <= s) raw_scores ->
  exists m normalized,
    py_max raw_scores = Some m /\
    _compute_bm25_scores get_scores query chunks = Some normalized /\
    normalized
    = map (fun s => Float.div s (if Qltb 0 m then m else 1)) raw_scores /\
    Forall (fun s => 0 <= s /\ s <= 1) normalized /\
    (0 < m -> Forall2 (fun r s => r == m -> s == 1) raw_scores normalized) /\
    (Forall (fun s => s == 0) raw_scores -> Forall (fun s => s == 0) normalized).
Proof.
  intros Hne Hpos.
  destruct (py_max_nonempty Hne) as (m & Hm).
  destruct (py_max_spec _ Hm) as (Hin & Hle).
  exists m, (map (fun s => Float.div s (if Qltb 0 m then m else 1)) raw_scores).
  split; [exact Hm|]. split.
  { unfold _compute_bm25_scores, chunk in *. cbv zeta. now rewrite Hm. }
  split; [reflexivity|].
  assert (Hd : 0 < (if Qltb 0 m then m else 1)).
  { destruct (Qltb 0 m) eqn:E; [now apply PyFacts.Qltb_lt|reflexivity]. }
  assert (Hm1 : m <= (if Qltb 0 m then m else 1)).
  { destruct (Qltb 0 m) eqn:E; [apply Qle_refl|].
    apply PyFacts.Qltb_ge in E. eapply Qle_trans; [exact E|discriminate]. }
  split; [|split].
  - rewrite Forall_forall in *. intros s Hs. apply in_map_iff in Hs.
    destruct Hs as (r & <- & Hr). unfold Float.div. split.
    + apply FloatFacts.round_nonneg.
      apply Qle_shift_div_l; [exact Hd|]. rewrite Qmult_0_l. now apply Hpos.
    + rewrite <- FloatFacts.round_1. apply FloatFacts.round_mono.
      apply Qle_shift_div_r; [exact Hd|]. rewrite Qmult_1_l.
      eapply Qle_trans; [apply Hle; exact Hr|exact Hm1].
  - intro Hmpos. apply PyFacts.Qltb_lt in Hmpos. rewrite Hmpos.
    apply PyFacts.Qltb_lt in Hmpos.
    clear - Hmpos. induction raw_scores as [|r l IH]; simpl; constructor; auto.
    intro E. unfold Float.div.
    rewrite (@FloatFacts.round_eq (r / m) 1); [now rewrite FloatFacts.round_1|].
    rewrite E. field. intro Hz. rewrite Hz in Hmpos.
    exact (Qlt_irrefl _ Hmpos).
  - intro Hz. rewrite Forall_forall in *. intros s Hs. apply in_map_iff in Hs.
    destruct Hs as (r & <- & Hr). unfold Float.div.
    rewrite (@FloatFacts.round_eq (r / (if Qltb 0 m then m else 1)) 0);
      [reflexivity|].
    rewrite (Hz r Hr). unfold Qdiv. apply Qmult_0_l.
Qed.

End Normalized.

(** C7 at a batch whose raw score is negative: a single chunk, for which
    BM25Okapi's floor on the idf is negative.  The greatest raw score is
    not positive, so the scores are divided by 1 and stay negative. *)
Theorem bm25_negative_scores_stay_negative :
  _compute_bm25_scores (fun _ _ => [-1 # 4]) (lit "hello")
                       [@fresh Q 1 (lit "hello world") None]
  = Some [-1 # 4]
  /\ -1 # 4 < 0.
Proof. split; [vm_compute|]; reflexivity. Qed.

End Bm25Facts.

(** ** Cosine similarity *)

Module CosineFacts.
Import Cosine.
Local Open Scope R_scope.

Lemma fold_left_Rplus (l : list R) (a : R) :
  fold_left Rplus l a = a + fold_left Rplus l 0.
Proof.
  revert a. induction l as [|x l IH]; intro a; simpl; [lra|].
  rewrite (IH (a + x)), (IH (0 + x)). lra.
Qed.

Lemma py_sum_cons (x : R) (l : list R) : py_sum (x :: l) = x + py_sum l.
Proof. unfold py_sum. simpl. rewrite fold_left_Rplus. lra. Qed.

Lemma sum_squares_nonneg (v : list R) : 0 <= sum_squares v.
Proof.
  unfold sum_squares. induction v as [|x v IH]; simpl.
  - unfold py_sum. simpl. lra.
  - rewrite py_sum_cons. pose proof (Rle_0_sqr x) as H. unfold Rsqr in H. lra.
Qed.

Lemma dot_self (v : list R) : dot v v = sum_squares v.
Proof.
  unfold dot, sum_squares. induction v as [|x v IH]; [reflexivity|].
  simpl. rewrite !py_sum_cons. now rewrite IH.
Qed.

(** What the clamped function of hybrid_search.py guarantees on floats,
    whatever [sum] and [**] return: a result between 0 and 1, and 0 when a
    magnitude is 0. *)
Lemma cosine_similarity_clamped
      (py_sum : list Q -> Q) (py_pow : Q -> Q -> Q) (vec1 vec2 : list Q) :
  (forall s,
      HybridSearch._cosine_similarity py_sum py_pow vec1 vec2 = Some s ->
      (0 <= s <= 1)%Q) /\
  ((py_pow (py_sum (map (fun a => Float.mul a a) vec1)) 0.5 == 0 \/
    py_pow (py_sum (map (fun b => Float.mul b b) vec2)) 0.5 == 0)%Q ->
   HybridSearch._cosine_similarity py_sum py_pow vec1 vec2 = Some 0%Q).
Proof.
  unfold HybridSearch._cosine_similarity. cbv zeta. split.
  - intros s.
    destruct (Qeq_bool _ 0 || Qeq_bool _ 0)%bool.
    { intro E. injection E as <-. split; discriminate. }
    destruct (Qeq_bool (Float.mul _ _) 0); [discriminate|].
    intro E. injection E as <-.
    destruct (Py.Qltb (Float.div _ _) 1) eqn:E1.
    + apply PyFacts.Qltb_lt in E1.
      destruct (Py.Qltb 0 (Float.div _ _)) eqn:E0.
      * apply PyFacts.Qltb_lt in E0. split; now apply Qlt_le_weak.
      * split; discriminate.
    + split; discriminate.
  - intros [H|H]; apply Qeq_bool_iff in H; rewrite H;
      [reflexivity|now rewrite orb_true_r].
Qed.

(** Over the reals, the zero-vector and self-similarity properties hold for
    the numpy function of mmr.py. *)
Lemma cosine_similarity_np_kept (vec1 vec2 : list R) :
  List.length vec1 = List.length vec2 ->
  (sqrt (sum_squares vec1) = 0 \/ sqrt (sum_squares vec2) = 0 ->
   cosine_similarity_np vec1 vec2 = Some 0) /\
  (sqrt (sum_squares vec1) <> 0 -> cosine_similarity_np vec1 vec1 = Some 1).
Proof.
  intro Hlen. unfold cosine_similarity_np. split.
  - rewrite Hlen, Nat.eqb_refl. intros [H|H].
    + destruct (Req_dec_T (sqrt (sum_squares vec1)) 0); [reflexivity|contradiction].
    + destruct (Req_dec_T (sqrt (sum_squares vec1)) 0); [reflexivity|].
      destruct (Req_dec_T (sqrt (sum_squares vec2)) 0); [reflexivity|contradiction].
  - intro H. rewrite Nat.eqb_refl.
    destruct (Req_dec_T (sqrt (sum_squares vec1)) 0); [contradiction|].
    f_equal. rewrite dot_self.
    rewrite <- (sqrt_sqrt (sum_squares vec1)) at 1 by apply sum_squares_nonneg.
    field. exact H.
Qed.

(** C2 at two opposite vectors: the numpy cosine of mmr.py, which does not
    clamp, returns -1. *)
Theorem cosine_similarity_np_negative :
  cosine_similarity_np [1] [-1] = Some (-1) /\ -1 < 0.
Proof.
  split; [|lra]. unfold cosine_similarity_np, dot, sum_squares, py_sum. simpl.
  replace (0 + 1 * 1) with 1 by lra.
  replace (0 + -1 * -1) with 1 by lra.
  rewrite sqrt_1.
  destruct (Req_dec_T 1 0) as [H|_]; [lra|].
  f_equal. field.
Qed.

End CosineFacts.

(** ** MMR *)

Module MmrFacts.
Import Py Chunks Cosine Mmr MmrSpec.
Local Open Scope R_scope.

Lemma argmax_from_range (l : list R) :
  forall best best_v i,
    argmax_from best best_v i l = best
    \/ (i <= argmax_from best best_v i l < i + List.length l)%nat.
Proof.
  induction l as [|x l IH]; intros best best_v i; simpl; [now left|].
  destruct (Rlt_dec best_v x).
  - right. destruct (IH i x (S i)) as [->|H]; lia.
  - destruct (IH best best_v (S i)) as [->|H]; [now left|right; lia].
Qed.

Lemma argmax_lt (l : list R) : l <> [] -> (argmax l < List.length l)%nat.
Proof.
  destruct l as [|x l]; [congruence|]. intros _. simpl.
  destruct (argmax_from_range l 0 x 1) as [->|H]; lia.
Qed.

Lemma remove_at_incl (A : Type) (l : list A) :
  forall i x, In x (remove_at i l) -> In x l.
Proof.
  induction l as [|y l IH]; intros [|i] x; simpl; try tauto.
  intros [H|H]; [now left|right; eauto].
Qed.

Lemma remove_at_length (A : Type) (l : list A) :
  forall i, (i < List.length l)%nat ->
            List.length (remove_at i l) = pred (List.length l).
Proof.
  induction l as [|y l IH]; intros [|i] H; simpl in *; try lia.
  rewrite IH by lia. destruct l; simpl in *; lia.
Qed.

Section Plain.
Variable query_embedding : list R.
Variable lambda_param : R.

Lemma mmr_score_plain (selected : list chunk) (c : chunk) :
  no_embedding c ->
  mmr_score_of query_embedding lambda_param selected c = Some (get_score c 0).
Proof. unfold mmr_score_of. intros [-> | ->]; reflexivity. Qed.

Lemma scores_plain (selected : list chunk) (l : list chunk) :
  Forall no_embedding l ->
  traverse (mmr_score_of query_embedding lambda_param selected) l
  = Some (map (fun c => get_score c 0) l).
Proof.
  induction 1 as [|c l Hc _ IH]; simpl; [reflexivity|].
  now rewrite (mmr_score_plain selected Hc), IH.
Qed.

Lemma mmr_loop_step (fuel : nat) (selected : list (nat * chunk))
      (r0 : nat * chunk) (rest : list (nat * chunk)) :
  mmr_loop query_embedding lambda_param (S fuel) selected (r0 :: rest)
  = match traverse (mmr_score_of query_embedding lambda_param (map snd selected))
                   (map snd (r0 :: rest)) with
    | None => (false, selected)
    | Some mmr_scores =>
        mmr_loop query_embedding lambda_param fuel
          (selected ++
             [(fst (nth (argmax mmr_scores) (r0 :: rest) r0),
               set_mmr_score (snd (nth (argmax mmr_scores) (r0 :: rest) r0))
                             (nth (argmax mmr_scores) mmr_scores 0))])
          (remove_at (argmax mmr_scores) (r0 :: rest))
    end.
Proof. reflexivity. Qed.

(** The loop on candidates without embeddings: it never raises, it picks
    [fuel] chunks while there are any, and each picked chunk carries its
    prior score as [mmr_score]. *)
Lemma mmr_loop_plain (pool : list (nat * chunk)) (fuel : nat) :
  forall selected remaining,
    Forall (fun ic => exists c0, In (fst ic, c0) pool /\ snd ic = picked c0)
           selected ->
    incl remaining pool ->
    Forall no_embedding (map snd remaining) ->
    exists selected',
      mmr_loop query_embedding lambda_param fuel selected remaining
      = (true, selected') /\
      Forall (fun ic => exists c0, In (fst ic, c0) pool /\ snd ic = picked c0)
             selected' /\
      List.length selected'
      = (List.length selected + Nat.min fuel (List.length remaining))%nat.
Proof.
  induction fuel as [|fuel IH]; intros selected remaining Hsel Hincl Hplain.
  - exists selected. simpl. split; [reflexivity|]. split; [exact Hsel|lia].
  - destruct remaining as [|r0 rest].
    + exists selected. simpl. split; [reflexivity|]. split; [exact Hsel|lia].
    + rewrite mmr_loop_step.
      set (remaining := r0 :: rest) in *.
      rewrite (scores_plain _ Hplain). cbv beta iota.
      set (scores := map (fun c : Chunks.chunk R => get_score c 0)
                         (map snd remaining)).
      assert (Hlen : List.length scores = List.length remaining)
        by (unfold scores; now rewrite !length_map).
      assert (Hidx : (argmax scores < List.length remaining)%nat).
      { rewrite <- Hlen. apply argmax_lt. intro E.
        rewrite E in Hlen. discriminate. }
      set (best := nth (argmax scores) remaining r0).
      assert (Hbest : In best remaining) by (apply nth_In; exact Hidx).
      assert (Hscore : nth (argmax scores) scores 0 = get_score (snd best) 0).
      { unfold best. rewrite <- (map_nth snd remaining r0).
        rewrite <- (map_nth (fun c : Chunks.chunk R => get_score c 0)).
        apply nth_indep. fold scores. rewrite Hlen. exact Hidx. }
      rewrite Hscore.
      destruct (IH (selected ++ [(fst best, set_mmr_score (snd best)
                                                (get_score (snd best) 0))])
                   (remove_at (argmax scores) remaining))
        as (sel' & Hrun & Hok & Hl).
      * apply Forall_app. split; [exact Hsel|]. constructor; [|constructor].
        exists (snd best). simpl. split; [|reflexivity].
        apply Hincl. destruct best; exact Hbest.
      * intros x Hx. apply Hincl. eapply remove_at_incl; exact Hx.
      * rewrite Forall_forall in *. intros c Hc. apply in_map_iff in Hc.
        destruct Hc as (ic & <- & Hic). apply Hplain. apply in_map.
        eapply remove_at_incl; exact Hic.
      * exists sel'. split; [exact Hrun|]. split; [exact Hok|].
        rewrite Hl, length_app, remove_at_length by exact Hidx.
        subst remaining. simpl. lia.
Qed.

End Plain.

Lemma In_enumerate_from (A : Type) (l : list A) :
  forall s i x, In (i, x) (enumerate_from s l) -> In x l.
Proof.
  induction l as [|y l IH]; intros s i x; simpl; [tauto|].
  intros [E|H]; [injection E as _ ->; now left|right; eauto].
Qed.

Lemma length_enumerate_from (A : Type) (l : list A) :
  forall s, List.length (enumerate_from s l) = List.length l.
Proof. induction l as [|y l IH]; intro s; simpl; [reflexivity|now rewrite IH]. Qed.

Lemma map_snd_enumerate_from (A : Type) (l : list A) :
  forall s, map snd (enumerate_from s l) = l.
Proof. induction l as [|y l IH]; intro s; simpl; [reflexivity|now rewrite IH]. Qed.

(** C8, amended.  In MMR selection a candidate without an embedding gets,
    in every iteration and whatever has been selected, its prior score
    itself (0.0 when it has none) as its MMR score: the score is not
    multiplied by lambda and nothing is subtracted for similarity to the
    selected chunks.  When no candidate of a batch has an embedding, the
    selection of [top_k] out of more candidates runs to its end, and every
    selected chunk is an input chunk with its prior score recorded as
    [mmr_score]. *)
Theorem mmr_missing_embedding_score :
  forall (query_embedding : list R) (lambda_param : R),
    (forall (selected : list chunk) (c : chunk),
        no_embedding c ->
        mmr_score_of query_embedding lambda_param selected c
        = Some (get_score c 0)) /\
    (forall (chunks : list chunk) (top_k : Z),
        query_embedding <> [] ->
        Forall no_embedding chunks ->
        (0 <= top_k < Z.of_nat (List.length chunks))%Z ->
        List.length (mmr_diversify query_embedding lambda_param chunks top_k)
        = Z.to_nat top_k /\
        Forall (fun c => exists c0, In c0 chunks /\ c = picked c0)
               (mmr_diversify query_embedding lambda_param chunks top_k)).
Proof.
  intros query_embedding lambda_param. split.
  - intros selected c. apply mmr_score_plain.
  - intros chunks top_k Hq Hplain [H0 Hk].
    unfold mmr_diversify.
    destruct chunks as [|c cs] eqn:Ec; [simpl in Hk; lia|].
    destruct query_embedding as [|q qs] eqn:Eq; [congruence|].
    rewrite <- Ec in *. rewrite <- Eq in *.
    assert (Hle : (Z.of_nat (List.length chunks) <=? top_k)%Z = false)
      by (apply Z.leb_gt; lia).
    rewrite Hle.
    destruct (@mmr_loop_plain query_embedding lambda_param (enumerate chunks)
                (Z.to_nat top_k) [] (enumerate chunks))
      as (sel & Hrun & Hok & Hlen).
    + constructor.
    + apply incl_refl.
    + unfold enumerate. now rewrite map_snd_enumerate_from.
    + rewrite Hrun. split.
      * rewrite length_map, Hlen. unfold enumerate.
        rewrite length_enumerate_from. simpl. lia.
      * rewrite Forall_forall in *. intros x Hx. apply in_map_iff in Hx.
        destruct Hx as (ic & <- & Hic).
        destruct (Hok ic Hic) as (c0 & Hin & E).
        exists c0. split; [|exact E].
        eapply In_enumerate_from. exact Hin.
Qed.

Lemma mmr_missing_embedding_score_witness :
  mmr_score_of [1] 0.7 [] plain_1 = Some 0.5.
Proof.
  destruct (@mmr_missing_embedding_score [1] 0.7) as [H _].
  apply (H [] plain_1). now left.
Defined.

(** C8 as stated fails: the candidate with prior score 0.5 and no
    embedding gets the MMR score 0.5 at lambda = 0.7, not 0.7 * 0.5, and
    that is the [mmr_score] the result records. *)
Lemma mmr_missing_embedding_not_scaled :
  no_embedding plain_1 /\
  mmr_score_of [1] 0.7 [] plain_1 = Some 0.5 /\
  mmr_diversify [1] 0.7 [plain_1; plain_2] 1 = [set_mmr_score plain_1 0.5] /\
  0.7 * 0.5 <> 0.5.
Proof.
  split; [now left|]. split; [reflexivity|]. split; [|lra].
  unfold mmr_diversify. simpl.
  change (get_score plain_1 0) with 0.5.
  change (get_score plain_2 0) with 0.2.
  destruct (Rlt_dec 0.5 0.2) as [H|_]; [lra|]. reflexivity.
Qed.

End MmrFacts.

Module RetrieveFacts.
Import Retrieve.
Local Open Scope Q_scope.

(** C5.  For every score list (so also every descending one) the adaptive
    threshold is 0.5 when the top score exceeds 0.7, 0.2 when the top score is
    below 0.4, and the caller's base threshold otherwise; an empty list gives
    the base threshold.  The three examples of the specification come out as
    0.5, 0.2 and the default base 0.3. *)
Theorem adaptive_threshold_cases :
  forall (top : Q) (rest : list Q) (base : Q),
    (0.7 < top -> calculate_adaptive_threshold (top :: rest) base = 0.5) /\
    (top < 0.4 -> calculate_adaptive_threshold (top :: rest) base = 0.2) /\
    (0.4 <= top -> top <= 0.7 ->
       calculate_adaptive_threshold (top :: rest) base = base) /\
    calculate_adaptive_threshold [] base = base /\
    calculate_adaptive_threshold [0.9; 0.6; 0.5] default_base_threshold = 0.5 /\
    calculate_adaptive_threshold [0.35; 0.2] default_base_threshold = 0.2 /\
    calculate_adaptive_threshold [0.5; 0.4] default_base_threshold
      = default_base_threshold.
Proof.
  intros top rest base. unfold calculate_adaptive_threshold.
  repeat split; try reflexivity.
  - intro H. apply PyFacts.Qltb_lt in H. now rewrite H.
  - intro H.
    assert (H1 : Py.Qltb 0.7 top = false).
    { apply PyFacts.Qltb_ge. apply Qlt_le_weak.
      eapply Qlt_trans; [exact H|reflexivity]. }
    rewrite H1. apply PyFacts.Qltb_lt in H. now rewrite H.
  - intros Hlo Hhi.
    apply PyFacts.Qltb_ge in Hlo, Hhi. now rewrite Hhi, Hlo.
Qed.

Lemma adaptive_threshold_cases_witness :
  calculate_adaptive_threshold [0.9; 0.6; 0.5] 0.3 = 0.5 /\
  calculate_adaptive_threshold [0.35; 0.2] 0.3 = 0.2 /\
  calculate_adaptive_threshold [0.5; 0.4] 0.3 = 0.3.
Proof.
  split; [|split].
  - destruct (adaptive_threshold_cases 0.9 [0.6; 0.5] 0.3) as (H & _).
    apply H. reflexivity.
  - destruct (adaptive_threshold_cases 0.35 [0.2] 0.3) as (_ & H & _).
    apply H. reflexivity.
  - destruct (adaptive_threshold_cases 0.5 [0.4] 0.3) as (_ & _ & H & _).
    apply H; discriminate.
Defined.

End RetrieveFacts.

(** ** The cache under arbitrary use *)

Module CacheUseFacts.
Import Py Cache CacheRuns CacheOps.
Local Open Scope Z_scope.

Section Use.
Variable Response : Type.
Implicit Types c : ResponseCache Response.

Local Abbreviation lookup := (Py.get (V := entry Response) str_eqb).
Local Abbreviation key := _generate_cache_key.

Lemma step_well_formed m ttl c (o : op Response) :
  0 < m -> well_formed m ttl c ->
  exists c', step c o = Some c' /\ well_formed m ttl c'.
Proof.
  intros Hm (Hmax & Httl & Hlen & Hnd). destruct o as [now q d k|now q d k r|]; simpl.
  - eexists. split; [reflexivity|].
    destruct (CacheFacts.get_shrinks c now q d k) as [Hl Hs].
    repeat split.
    + congruence.
    + unfold get. destruct (lookup (cache c) (key q d k)); [|exact Httl].
      destruct (now <? _); exact Httl.
    + lia.
    + now apply CacheFacts.get_keeps_NoDup.
  - assert (Hpos : 0 < max_size c) by (rewrite Hmax; exact Hm).
    assert (Hle : Z.of_nat (List.length (cache c)) <= max_size c)
      by (rewrite Hmax; exact Hlen).
    destruct (@CacheFacts.set_bounded _ c now q d k r Hpos Hle)
      as (c' & Hs & Hm' & Hl').
    exists c'. split; [exact Hs|].
    destruct (CacheFacts.set_stores _ _ _ _ _ _ Hs) as (_ & Ht' & _).
    repeat split; try congruence.
    eapply CacheFacts.set_keeps_NoDup; eauto.
  - eexists. split; [reflexivity|]. unfold clear. simpl.
    repeat split; auto; try (simpl; lia); try constructor.
Qed.

Lemma run_well_formed m ttl (l : list (op Response)) :
  0 < m -> forall c, well_formed m ttl c ->
  exists c', run c l = Some c' /\ well_formed m ttl c'.
Proof.
  intro Hm. induction l as [|o l IH]; intros c Hc; simpl.
  - eauto.
  - destruct (step_well_formed o Hm Hc) as (c1 & -> & Hc1). auto.
Qed.


(** X2.  A cache created with [max_size <= 0] cannot store anything: the
    first [set] finds the empty dict at capacity and [next(iter(self.cache))]
    raises. *)
Theorem set_raises_without_capacity :
  forall (m ttl : Z) now q d k (r : Response),
    m <= 0 -> set (init Response m ttl) now q d k r = None.
Proof.
  intros m ttl now q d k r Hm. unfold set, init. simpl.
  destruct (Z.geb_spec 0 m); [reflexivity|lia].
Qed.

(** X3.  Below capacity, a [set] for a key that is already cached replaces
    the entry where it stands: the keys and their order are unchanged, the
    entry holds the new response and the new time, and no other entry
    changes.  The refreshed entry keeps its place in the eviction order. *)
Theorem set_existing_key_in_place :
  forall c now q d k (r : Response) old,
    lookup (cache c) (key q d k) = Some old ->
    Z.of_nat (List.length (cache c)) < max_size c ->
    exists c',
      set c now q d k r = Some c' /\
      keys (cache c') = keys (cache c) /\
      lookup (cache c') (key q d k)
      = Some {| response := r; cached_at := now |} /\
      forall k', k' <> key q d k -> lookup (cache c') k' = lookup (cache c) k'.
Proof.
  intros c now q d k r old Hold Hroom.
  rewrite CacheFacts.set_when_room by exact Hroom.
  eexists. split; [reflexivity|]. simpl. split; [|split].
  - apply DictFacts.keys_setitem_old; [apply CacheFacts.str_eqb_eq|].
    eapply DictFacts.get_Some_in; [apply CacheFacts.str_eqb_eq|exact Hold].
  - apply DictFacts.get_setitem_same, CacheFacts.str_eqb_eq.
  - intros k' Hne. apply DictFacts.get_setitem_other;
      [apply CacheFacts.str_eqb_eq|congruence].
Qed.

(** X4.  At capacity, a [set] evicts the oldest entry before it looks for
    the key.  So, with [oldest] the first key of the dict, updating a key that is already cached and is not the oldest
    leaves the cache one entry below capacity, with the oldest entry gone;
    updating the oldest key itself moves it to the newest position. *)
Theorem set_existing_key_at_capacity :
  forall c now q d k (r : Response) old oldest,
    NoDup (keys (cache c)) ->
    0 < max_size c ->
    Z.of_nat (List.length (cache c)) = max_size c ->
    first_key (cache c) = Some oldest ->
    lookup (cache c) (key q d k) = Some old ->
    exists c',
      set c now q d k r = Some c' /\
      lookup (cache c') (key q d k)
      = Some {| response := r; cached_at := now |} /\
      (oldest <> key q d k ->
         keys (cache c') = tl (keys (cache c)) /\
         Z.of_nat (List.length (cache c')) = max_size c - 1 /\
         lookup (cache c') oldest = None) /\
      (oldest = key q d k ->
         keys (cache c') = tl (keys (cache c)) ++ [key q d k] /\
         Z.of_nat (List.length (cache c')) = max_size c).
Proof.
  intros c now q d k r old oldest0 Hnd Hpos Hfull Hfirst Hold.
  destruct (@CacheFacts.set_when_full _ c now q d k r Hpos Hfull)
    as (oldest & e & rest & Hc & Hfk & Hs).
  assert (oldest0 = oldest) by congruence. subst oldest0. clear Hfirst.
  eexists. split; [exact Hs|].
  rewrite Hc in *. simpl in Hnd, Hold. simpl List.length in Hfull.
  rewrite Nat2Z.inj_succ in Hfull. simpl keys. simpl tl.
  inversion Hnd as [|? ? Hnotin Hnd']; subst.
  simpl cache. split; [|split].
  - apply DictFacts.get_setitem_same, CacheFacts.str_eqb_eq.
  - intro Hne.
    rewrite (@DictFacts.eqb_neq _ str_eqb CacheFacts.str_eqb_eq _ _ Hne) in Hold.
    assert (Hin : In (key q d k) (keys rest))
      by (eapply DictFacts.get_Some_in; [apply CacheFacts.str_eqb_eq|exact Hold]).
    assert (Hk : keys (setitem str_eqb rest (key q d k)
                         {| response := r; cached_at := now |}) = keys rest)
      by (apply DictFacts.keys_setitem_old; [apply CacheFacts.str_eqb_eq|exact Hin]).
    split; [exact Hk|]. split.
    + apply (f_equal (@List.length _)) in Hk. unfold keys in Hk.
      rewrite !length_map in Hk. rewrite Hk. lia.
    + apply DictFacts.get_None_notin; [apply CacheFacts.str_eqb_eq|].
      rewrite Hk. exact Hnotin.
  - intros ->.
    assert (Hk : keys (setitem str_eqb rest (key q d k)
                         {| response := r; cached_at := now |})
                 = keys rest ++ [key q d k])
      by (apply DictFacts.keys_setitem_new; [apply CacheFacts.str_eqb_eq|exact Hnotin]).
    split; [exact Hk|].
    apply (f_equal (@List.length _)) in Hk. unfold keys in Hk.
    rewrite length_app, !length_map in Hk. rewrite Hk. simpl. lia.
Qed.

(** X5.  A [get] touches at most the entry of its own key: whatever it
    returns, every other key is looked up afterwards as before, and no key
    appears that was not cached. *)
Theorem get_leaves_other_keys :
  forall c now q d k k',
    k' <> key q d k ->
    lookup (cache (snd (get c now q d k))) k' = lookup (cache c) k' /\
    incl (keys (cache (snd (get c now q d k)))) (keys (cache c)).
Proof.
  intros c now q d k k' Hne. unfold get.
  destruct (lookup (cache c) (key q d k)); [|simpl; split; [reflexivity|apply incl_refl]].
  destruct (now <? _); simpl; [split; [reflexivity|apply incl_refl]|].
  split.
  - apply DictFacts.get_delitem_other; [apply CacheFacts.str_eqb_eq|congruence].
  - intros x Hx. eapply DictFacts.keys_delitem_incl; eauto.
Qed.

End Use.

Local Abbreviation key := _generate_cache_key.


Lemma set_raises_without_capacity_witness :
  set (init nat 0 24) 10 (lit "first question") None 6 1%nat = None.
Proof. apply set_raises_without_capacity. lia. Defined.

Lemma set_existing_key_in_place_witness :
  let c := {| cache := [(key (lit "first question") None 6,
                         {| response := 1%nat; cached_at := 10 |});
                        (key (lit "second question") None 6,
                         {| response := 2%nat; cached_at := 20 |})];
              max_size := 3; ttl_hours := 24 |} in
  exists c',
    set c 30 (lit "First question ") None 6 7%nat = Some c' /\
    keys (cache c') = keys (cache c) /\
    Py.get str_eqb (cache c') (key (lit "First question ") None 6)
    = Some {| response := 7%nat; cached_at := 30 |}.
Proof.
  intro c.
  destruct (@set_existing_key_in_place nat c 30 (lit "First question ") None 6
              7%nat {| response := 1%nat; cached_at := 10 |})
    as (c' & Hs & Hk & Hl & _).
  - vm_compute. reflexivity.
  - vm_compute. reflexivity.
  - exists c'. split; [exact Hs|]. split; [exact Hk|exact Hl].
Defined.

Lemma set_existing_key_at_capacity_witness :
  let c := {| cache := [(key (lit "first question") None 6,
                         {| response := 1%nat; cached_at := 10 |});
                        (key (lit "second question") None 6,
                         {| response := 2%nat; cached_at := 20 |})];
              max_size := 2; ttl_hours := 24 |} in
  exists c',
    set c 30 (lit "second question") None 6 7%nat = Some c' /\
    keys (cache c') = tl (keys (cache c)) /\
    Z.of_nat (List.length (cache c')) = max_size c - 1 /\
    Py.get str_eqb (cache c') (key (lit "first question") None 6) = None.
Proof.
  intro c.
  destruct (@set_existing_key_at_capacity nat c 30 (lit "second question")
              None 6 7%nat {| response := 2%nat; cached_at := 20 |}
              (key (lit "first question") None 6))
    as (c' & Hs & Hl & Hne & _).
  - vm_compute. repeat constructor; simpl; intuition discriminate.
  - vm_compute. reflexivity.
  - vm_compute. reflexivity.
  - reflexivity.
  - vm_compute. reflexivity.
  - destruct Hne as (Hk & Hlen & Hgone).
    { vm_compute. discriminate. }
    exists c'. split; [exact Hs|]. split; [exact Hk|].
    split; [exact Hlen|exact Hgone].
Defined.

Lemma get_leaves_other_keys_witness :
  let c := {| cache := [(key (lit "first question") None 6,
                         {| response := 1%nat; cached_at := 10 |});
                        (key (lit "second question") None 6,
                         {| response := 2%nat; cached_at := 20 |})];
              max_size := 2; ttl_hours := 1 |} in
  let c' := snd (get c (10 + timedelta_hours 1) (lit "first question") None 6) in
  Py.get str_eqb (cache c') (key (lit "second question") None 6)
  = Some {| response := 2%nat; cached_at := 20 |} /\
  incl (keys (cache c')) (keys (cache c)).
Proof.
  intros c c'.
  destruct (@get_leaves_other_keys nat c (10 + timedelta_hours 1)
              (lit "first question") None 6
              (key (lit "second question") None 6)) as [Hl Hi].
  - vm_compute. discriminate.
  - split; [|exact Hi]. fold c' in Hl. rewrite Hl. vm_compute. reflexivity.
Defined.

End CacheUseFacts.

(** ** What the hashed string determines *)

Module KeyStringFacts.
Import Py Json Cache.

Lemma to_int_not_nil (n : Z) :
  Z.to_int n <> Decimal.Pos Decimal.Nil /\ Z.to_int n <> Decimal.Neg Decimal.Nil.
Proof.
  rewrite <- (DecimalZ.of_to n) at 1 2. rewrite DecimalZ.to_of.
  destruct (Z.to_int n) as [d|d]; simpl.
  - split; [|discriminate]. unfold Decimal.unorm.
    destruct (Decimal.nzhead d); discriminate.
  - destruct (Decimal.nzhead d); split; discriminate.
Qed.

Lemma str_of_int_inj (a b : Z) : str_of_int a = str_of_int b -> a = b.
Proof.
  unfold str_of_int. intro H.
  apply (f_equal string_of_list_ascii) in H.
  rewrite !string_of_list_ascii_of_string in H.
  apply (f_equal NilZero.int_of_string) in H.
  destruct (to_int_not_nil a) as [Ha1 Ha2], (to_int_not_nil b) as [Hb1 Hb2].
  rewrite !NilZero.isi in H by assumption.
  injection H as H. now apply DecimalZ.to_int_inj.
Qed.

(** The items of a JSON list of strings can be read back, up to the closing
    bracket. *)
Lemma joined_inj (l1 l2 : list str) (s t : str) :
  join (lit ", ") (map dumps_str l1) ++ lit "]" ++ s
  = join (lit ", ") (map dumps_str l2) ++ lit "]" ++ t ->
  l1 = l2 /\ s = t.
Proof.
  revert l2. induction l1 as [|x l1 IH]; intros [|y l2] H.
  - simpl in H. injection H as H. auto.
  - exfalso. destruct l2; simpl in H; discriminate.
  - exfalso. destruct l1; simpl in H; discriminate.
  - assert (Hhead : forall (z : str) (l : list str) (u : str),
               join (lit ", ") (map dumps_str (z :: l)) ++ lit "]" ++ u
               = dquote :: flat_map escape_char z
                   ++ dquote :: match l with
                                | [] => lit "]" ++ u
                                | _ => lit ", " ++ join (lit ", ") (map dumps_str l)
                                         ++ lit "]" ++ u
                                end).
    { intros z l u. destruct l as [|z' l]; unfold dumps_str; simpl;
        rewrite <- ?app_assoc; simpl; reflexivity. }
    rewrite !Hhead in H. injection H as H.
    apply JsonFacts.escaped_inj in H. destruct H as [-> H].
    destruct l1 as [|x1 l1], l2 as [|y1 l2].
    + simpl in H. injection H as H. auto.
    + simpl in H. discriminate.
    + simpl in H. discriminate.
    + change (lit ", " ++ ?a) with (","%char :: " "%char :: a) in H.
      injection H as H.
      destruct (IH (y1 :: l2) H) as [E ->]. rewrite E. auto.
Qed.

Lemma dumps_key_data_inj (a b : key_data) :
  dumps_key_data a = dumps_key_data b -> a = b.
Proof.
  destruct a as [q1 ids1 k1], b as [q2 ids2 k2].
  unfold dumps_key_data. simpl kd_query. simpl kd_doc_ids. simpl kd_top_k.
  intro H.
  repeat (apply app_inv_head in H).
  unfold dumps_str_list in H. rewrite <- !app_assoc in H.
  apply app_inv_head in H.
  apply joined_inj in H. destruct H as [-> H].
  repeat (apply app_inv_head in H).
  unfold dumps_str in H at 1 3. simpl in H. injection H as H.
  rewrite <- !app_assoc in H. simpl in H.
  apply JsonFacts.escaped_inj in H. destruct H as [-> H].
  injection H as H.
  apply app_inv_tail in H. apply str_of_int_inj in H. now subst.
Qed.



End KeyStringFacts.

(** ** The adaptive threshold and the rows it keeps *)

Module SearchFacts.
Import Py Retrieve Search SearchSpec.
Local Open Scope Q_scope.

Lemma threshold_of_top (top : Q) (rest : list Q) (base : Q) :
  (0.7 < top /\ calculate_adaptive_threshold (top :: rest) base = 0.5) \/
  (top < 0.4 /\ calculate_adaptive_threshold (top :: rest) base = 0.2) \/
  (0.4 <= top /\ top <= 0.7 /\
   calculate_adaptive_threshold (top :: rest) base = base).
Proof.
  unfold calculate_adaptive_threshold.
  destruct (Qltb 0.7 top) eqn:E1.
  - left. split; [now apply PyFacts.Qltb_lt|reflexivity].
  - apply PyFacts.Qltb_ge in E1. destruct (Qltb top 0.4) eqn:E2.
    + right. left. split; [now apply PyFacts.Qltb_lt|reflexivity].
    + apply PyFacts.Qltb_ge in E2. right. right. auto.
Qed.

(** X7.  The adaptive threshold always lies between [min(0.2, base)] and
    [max(0.5, base)], and for a base threshold between 0.2 and 0.5 (the
    configured 0.3 is one) it does not decrease when the top score grows. *)
Theorem adaptive_threshold_monotone :
  forall (top1 top2 : Q) (rest1 rest2 : list Q) (base : Q),
    0.2 <= base -> base <= 0.5 -> top1 <= top2 ->
    calculate_adaptive_threshold (top1 :: rest1) base
    <= calculate_adaptive_threshold (top2 :: rest2) base /\
    0.2 <= calculate_adaptive_threshold (top1 :: rest1) base /\
    calculate_adaptive_threshold (top1 :: rest1) base <= 0.5.
Proof.
  intros top1 top2 rest1 rest2 base Hlo Hhi Hle.
  destruct (threshold_of_top top1 rest1 base) as [[H1 ->]|[[H1 ->]|(H1 & H1' & ->)]];
    destruct (threshold_of_top top2 rest2 base) as [[H2 ->]|[[H2 ->]|(H2 & H2' & ->)]];
    repeat split; Lqa.lra.
Qed.

Lemma descending_scores (rows : list chunk) :
  descending rows ->
  scores_of rows = Some (map (fun r => Chunks.get_score r 0) rows).
Proof.
  induction rows as [|r rest IH]; simpl; [reflexivity|].
  intros [(s & Hs & _) Hrest]. rewrite (IH Hrest).
  unfold Chunks.get_score. rewrite Hs. reflexivity.
Qed.

Lemma above_none_kept (t : Q) (rows : list chunk) :
  (forall r, In r rows -> exists s, Chunks.score r = Some s /\ s < t) ->
  above t rows = Some [].
Proof.
  induction rows as [|r rest IH]; simpl; intro H; [reflexivity|].
  destruct (H r (or_introl eq_refl)) as (s & Hs & Hlt).
  rewrite Hs, IH by auto.
  destruct (Qle_bool t s) eqn:E; [|reflexivity].
  apply Qle_bool_iff in E. Lqa.lra.
Qed.

(** Descending rows are cut at the threshold. *)
Lemma above_descending (t : Q) (rows : list chunk) :
  descending rows ->
  exists n,
    above t rows = Some (firstn n rows) /\
    (forall r, In r (firstn n rows) ->
               exists s, Chunks.score r = Some s /\ t <= s) /\
    (forall r, In r (skipn n rows) ->
               exists s, Chunks.score r = Some s /\ s < t).
Proof.
  induction rows as [|r rest IH]; simpl.
  - intros _. exists 0%nat. simpl. repeat split; intros ? [].
  - intros [(s & Hs & Hbelow) Hrest]. rewrite Hs.
    destruct (Qle_bool t s) eqn:E.
    + apply Qle_bool_iff in E.
      destruct (IH Hrest) as (n & Ha & Hk & Hd). rewrite Ha.
      exists (S n). simpl. split; [reflexivity|]. split; [|exact Hd].
      intros r' [<-|Hin]; [eauto|auto].
    + assert (Hlt : s < t).
      { apply Qnot_le_lt. intro Hle. apply Qle_bool_iff in Hle. congruence. }
      assert (Hall : forall r', In r' rest ->
                                exists s', Chunks.score r' = Some s' /\ s' < t).
      { intros r' Hin. destruct (Hbelow r' Hin) as (s' & Hs' & Hle).
        exists s'. split; [exact Hs'|Lqa.lra]. }
      rewrite (@above_none_kept t rest Hall).
      exists 0%nat. simpl. split; [reflexivity|]. split; [intros ? []|].
      intros r' [<-|Hin]; [eauto|auto].
Qed.

Section SearchTopK.
Variable Vec : Type.
Variable embed_query : str -> option Vec.
Variable execute : Vec -> option (list str) -> Z -> option (list chunk).
Variable MIN_SIMILARITY_SCORE : Q.

Local Abbreviation search :=
  (search_top_k embed_query execute MIN_SIMILARITY_SCORE).

(** X8.  When the database returns its rows by descending score,
    [search_top_k] returns the longest prefix of the rows whose scores reach
    the adaptive threshold: the rows it returns all score at least the
    threshold, the rows it drops all score below it, and the order of the
    database is kept. *)
Theorem search_keeps_best_prefix :
  forall query k doc_ids min_score vec rows,
    embed_query query = Some vec ->
    execute vec match doc_ids with Some (d :: ds) => Some (d :: ds) | _ => None end k
    = Some rows ->
    descending rows ->
    let t := calculate_adaptive_threshold
               (map (fun r => Chunks.get_score r 0) rows)
               match min_score with None => MIN_SIMILARITY_SCORE | Some m => m end in
    exists n,
      search query k doc_ids min_score = Some (firstn n rows) /\
      (forall r, In r (firstn n rows) -> t <= Chunks.get_score r 0) /\
      (forall r, In r (skipn n rows) -> Chunks.get_score r 0 < t).
Proof.
  intros query k doc_ids min_score vec rows Hvec Hrows Hdesc t.
  destruct (@above_descending t rows Hdesc) as (n & Ha & Hk & Hd).
  exists n. split; [|split].
  - unfold search_top_k. rewrite Hvec, Hrows, (@descending_scores rows Hdesc).
    exact Ha.
  - intros r Hin. destruct (Hk r Hin) as (s & Hs & Hle).
    unfold Chunks.get_score. now rewrite Hs.
  - intros r Hin. destruct (Hd r Hin) as (s & Hs & Hlt).
    unfold Chunks.get_score. now rewrite Hs.
Qed.

(** X9.  With a base threshold of at most 0.4 (the configured 0.3 is one)
    and rows by descending score, [search_top_k] returns no row exactly
    when the database returned none or the best row scores below 0.2. *)
Theorem search_empty_iff :
  forall query k doc_ids min_score vec rows,
    embed_query query = Some vec ->
    execute vec match doc_ids with Some (d :: ds) => Some (d :: ds) | _ => None end k
    = Some rows ->
    descending rows ->
    match min_score with None => MIN_SIMILARITY_SCORE | Some m => m end <= 0.4 ->
    exists results,
      search query k doc_ids min_score = Some results /\
      (results = [] <->
       match rows with
       | [] => True
       | best :: _ => Chunks.get_score best 0 < 0.2
       end).
Proof.
  intros query k doc_ids min_score vec rows Hvec Hrows Hdesc Hbase.
  destruct (@above_descending
              (calculate_adaptive_threshold
                 (map (fun r => Chunks.get_score r 0) rows)
                 match min_score with
                 | None => MIN_SIMILARITY_SCORE | Some m => m end)
              rows Hdesc) as (n & Ha & Hk0 & Hd0).
  assert (Hk : forall r, In r (firstn n rows) ->
                 calculate_adaptive_threshold
                   (map (fun r => Chunks.get_score r 0) rows)
                   match min_score with
                   | None => MIN_SIMILARITY_SCORE | Some m => m end
                 <= Chunks.get_score r 0).
  { intros r Hin. destruct (Hk0 r Hin) as (s & Hs & Hle).
    unfold Chunks.get_score. now rewrite Hs. }
  assert (Hd : forall r, In r (skipn n rows) ->
                 Chunks.get_score r 0
                 < calculate_adaptive_threshold
                     (map (fun r => Chunks.get_score r 0) rows)
                     match min_score with
                     | None => MIN_SIMILARITY_SCORE | Some m => m end).
  { intros r Hin. destruct (Hd0 r Hin) as (s & Hs & Hlt).
    unfold Chunks.get_score. now rewrite Hs. }
  clear Hk0 Hd0.
  exists (firstn n rows). split.
  { unfold search_top_k. rewrite Hvec, Hrows, (@descending_scores rows Hdesc).
    exact Ha. }
  destruct rows as [|best rest]; [now destruct n|].
  simpl map in Hk, Hd.
  set (base := match min_score with
               | None => MIN_SIMILARITY_SCORE | Some m => m end) in *.
  set (top := Chunks.get_score best 0) in *.
  destruct (threshold_of_top top (map (fun r => Chunks.get_score r 0) rest) base)
    as [[H1 E]|[[H1 E]|(H1 & H1' & E)]]; rewrite E in Hk, Hd;
    destruct n as [|n]; simpl firstn in *; simpl skipn in *.
  - specialize (Hd best (or_introl eq_refl)). fold top in Hd. split; intros; Lqa.lra.
  - split; [discriminate|]. intro. Lqa.lra.
  - specialize (Hd best (or_introl eq_refl)). fold top in Hd. tauto.
  - specialize (Hk best (or_introl eq_refl)). fold top in Hk.
    split; [discriminate|]. intro. Lqa.lra.
  - specialize (Hd best (or_introl eq_refl)). fold top in Hd. split; intros; Lqa.lra.
  - split; [discriminate|]. intro. Lqa.lra.
Qed.

End SearchTopK.

Lemma adaptive_threshold_monotone_witness :
  calculate_adaptive_threshold [0.35; 0.2] 0.3
  <= calculate_adaptive_threshold [0.9; 0.6; 0.5] 0.3 /\
  0.2 <= calculate_adaptive_threshold [0.35; 0.2] 0.3 /\
  calculate_adaptive_threshold [0.35; 0.2] 0.3 <= 0.5.
Proof.
  apply adaptive_threshold_monotone; unfold Qle; simpl; lia.
Defined.

Lemma search_keeps_best_prefix_witness :
  let rows := [row 1 0.9; row 2 0.6; row 3 0.45] in
  exists n,
    search_top_k (fun _ => Some tt) (fun _ _ _ => Some rows) 0.3
                 (lit "what is bm25?") 6 None None
    = Some (firstn n rows) /\
    (forall r, In r (firstn n rows) -> 0.5 <= Chunks.get_score r 0) /\
    (forall r, In r (skipn n rows) -> Chunks.get_score r 0 < 0.5).
Proof.
  intro rows.
  apply (@search_keeps_best_prefix unit (fun _ => Some tt)
           (fun _ _ _ => Some rows) 0.3 (lit "what is bm25?") 6 None None tt rows
           eq_refl eq_refl).
  simpl. repeat split; eexists; (split; [reflexivity|]);
    intros r' H; simpl in H; intuition (subst; eexists; split;
      [reflexivity|unfold Qle; simpl; lia]).
Defined.

Lemma search_empty_iff_witness :
  let rows := [row 1 0.15; row 2 0.1] in
  exists results,
    search_top_k (fun _ => Some tt) (fun _ _ _ => Some rows) 0.3
                 (lit "what is bm25?") 6 None None = Some results /\
    (results = [] <-> Chunks.get_score (row 1 0.15) 0 < 0.2).
Proof.
  intro rows.
  apply (@search_empty_iff unit (fun _ => Some tt)
           (fun _ _ _ => Some rows) 0.3 (lit "what is bm25?") 6 None None tt rows
           eq_refl eq_refl).
  - simpl. repeat split; eexists; (split; [reflexivity|]);
      intros r' H; simpl in H; intuition (subst; eexists; split;
        [reflexivity|unfold Qle; simpl; lia]).
  - unfold Qle; simpl; lia.
Defined.

End SearchFacts.

(** ** Reranking when the cross-encoder answers *)

Module RerankFacts.
Import Py Chunks Reranker.
Local Open Scope Q_scope.

(** The key of the sort. *)
Local Abbreviation new_score :=
  (fun c : chunk => match reranker_score c with Some s => s | None => 0 end).

Lemma rescore_all_full (chunks : list chunk) (scores : list Q) :
  List.length scores = List.length chunks ->
  rescore_all chunks scores
  = map (fun p => rescore (fst p) (snd p)) (combine chunks scores).
Proof.
  revert scores. induction chunks as [|c cs IH]; intros [|s ss] H;
    simpl in *; try discriminate; [reflexivity|].
  f_equal. apply IH. congruence.
Qed.

Lemma rescore_all_short (chunks : list chunk) (scores : list Q) :
  rescore_all chunks scores
  = map (fun p => rescore (fst p) (snd p)) (combine chunks scores)
      ++ skipn (List.length scores) chunks.
Proof.
  revert scores. induction chunks as [|c cs IH]; intros [|s ss]; simpl;
    try reflexivity.
  f_equal. apply IH.
Qed.

Lemma rescore_all_keeps (chunks : list chunk) (scores : list Q) :
  map (fun c => (id c, text c)) (rescore_all chunks scores)
  = map (fun c => (id c, text c)) chunks.
Proof.
  revert scores. induction chunks as [|c cs IH]; intros [|s ss]; simpl;
    try reflexivity.
  f_equal. apply IH.
Qed.

Lemma sort_rescored (l : list (chunk * Q)) :
  sort_by_reranker_score (map (fun p => rescore (fst p) (snd p)) l)
  = Some (sorted_reverse new_score (map (fun p => rescore (fst p) (snd p)) l)).
Proof.
  unfold sort_by_reranker_score.
  destruct (forallb _ _) eqn:E; [reflexivity|]. exfalso.
  assert (H : forallb (fun c : chunk => match reranker_score c with
                                        | Some _ => true
                                        | None => false
                                        end)
                (map (fun p => rescore (fst p) (snd p)) l) = true).
  { apply forallb_forall. intros c Hin. apply in_map_iff in Hin.
    destruct Hin as (p & <- & _). reflexivity. }
  unfold chunk in *. congruence.
Qed.

Lemma sort_raises (l : list chunk) (c : chunk) :
  In c l -> reranker_score c = None -> sort_by_reranker_score l = None.
Proof.
  intros Hin Hc. unfold sort_by_reranker_score.
  match goal with |- (if ?b then _ else _) = _ => destruct b eqn:E end;
    [|reflexivity].
  rewrite forallb_forall in E. specialize (E c Hin). now rewrite Hc in E.
Qed.

Lemma StronglySorted_weaken (A : Type) (R R' : A -> A -> Prop) (l : list A) :
  (forall a b, In a l -> In b l -> R a b -> R' a b) ->
  StronglySorted R l -> StronglySorted R' l.
Proof.
  induction l as [|x l IH]; intros Himp Hs; [constructor|].
  inversion Hs as [|? ? Hl Hx]; subst. constructor.
  - apply IH; [|exact Hl]. intros a b Ha Hb. apply Himp; now right.
  - rewrite Forall_forall in *. intros b Hb.
    apply Himp; [now left|now right|auto].
Qed.

Lemma rerank_unfold (get_reranker : option CrossEncoder) (query : str)
      (chunks : list chunk) (top_k : Z) :
  chunks <> [] ->
  rerank_chunks get_reranker query chunks top_k
  = match get_reranker with
    | None => slice_to chunks top_k
    | Some reranker =>
        match predict reranker (map (fun c => (query, text c)) chunks) with
        | None => slice_to chunks top_k
        | Some scores =>
            match sort_by_reranker_score (rescore_all chunks scores) with
            | None => slice_to (rescore_all chunks scores) top_k
            | Some all_sorted =>
                match slice_to all_sorted top_k with
                | [] => slice_to (rescore_all chunks scores) top_k
                | reranked => reranked
                end
            end
        end
    end.
Proof.
  intros Hne. destruct chunks as [|c cs]; [congruence|]. reflexivity.
Qed.

Lemma rerank_nonempty (m : CrossEncoder) (query : str) (chunks : list chunk)
      (scores : list Q) (top_k : Z) :
  chunks <> [] ->
  predict m (map (fun c => (query, text c)) chunks) = Some scores ->
  rerank_chunks (Some m) query chunks top_k
  = match sort_by_reranker_score (rescore_all chunks scores) with
    | None => slice_to (rescore_all chunks scores) top_k
    | Some all_sorted =>
        match slice_to all_sorted top_k with
        | [] => slice_to (rescore_all chunks scores) top_k
        | reranked => reranked
        end
    end.
Proof.
  intros Hne Hp. destruct chunks as [|c cs]; [congruence|].
  unfold rerank_chunks. now rewrite Hp.
Qed.

Section Rerank.
Variable m : CrossEncoder.
Variable query : str.
Variable chunks : list chunk.
Variable scores : list Q.
Hypothesis predicted :
  predict m (map (fun c => (query, text c)) chunks) = Some scores.

Local Abbreviation rescored :=
  (map (fun p : chunk * Q => rescore (fst p) (snd p)) (combine chunks scores)).

(** X10.  When the cross-encoder returns one score per chunk and
    [top_k >= 1], [rerank_chunks] returns the first [top_k] of the rescored
    chunks in descending order of the new score, chunks of equal score in
    their input order.  Every returned chunk is an input chunk whose
    [score] and [reranker_score] are the predicted score and whose
    [original_score] is the score it came with (0.0 when it had none). *)
Theorem rerank_orders_by_new_score :
  forall top_k : Z,
    chunks <> [] ->
    List.length scores = List.length chunks ->
    (0 < top_k)%Z ->
    exists ranked,
      rerank_chunks (Some m) query chunks top_k = firstn (Z.to_nat top_k) ranked /\
      Permutation ranked rescored /\
      StronglySorted (fun a b => get_score b 0 <= get_score a 0) ranked /\
      (forall v, filter (fun c => Qeq_bool (get_score c 0) v) ranked
                 = filter (fun c => Qeq_bool (get_score c 0) v) rescored) /\
      (forall c, In c ranked ->
         exists c0 s, In (c0, s) (combine chunks scores) /\
                      id c = id c0 /\ text c = text c0 /\
                      score c = Some s /\ reranker_score c = Some s /\
                      original_score c = Some (get_score c0 0)).
Proof.
  intros top_k Hne Hlen Hk.
  set (ranked := sorted_reverse new_score rescored).
  assert (Hperm : Permutation ranked rescored)
    by (symmetry; apply SortedReverseFacts.sorted_reverse_perm).
  assert (Hshape : forall c, In c ranked ->
            exists c0 s, In (c0, s) (combine chunks scores) /\ c = rescore c0 s).
  { intros c Hin. apply (Permutation_in _ Hperm) in Hin.
    apply in_map_iff in Hin. destruct Hin as ([c0 s] & <- & Hin). eauto. }
  assert (Hkey : forall c, In c ranked -> new_score c = get_score c 0).
  { intros c Hin. destruct (Hshape c Hin) as (c0 & s & _ & ->). reflexivity. }
  assert (Hkey' : forall c, In c rescored -> new_score c = get_score c 0).
  { intros c Hin. apply Hkey. apply (Permutation_in _ (Permutation_sym Hperm) Hin). }
  exists ranked. split; [|split; [exact Hperm|split; [|split]]].
  - rewrite (@rerank_nonempty m query chunks scores top_k Hne predicted).
    rewrite (@rescore_all_full chunks scores Hlen), sort_rescored. fold ranked.
    rewrite RerankerFacts.slice_to_firstn by lia.
    destruct (firstn (Z.to_nat top_k) ranked) as [|r rs] eqn:E; [|reflexivity].
    exfalso.
    assert (Hl : List.length ranked = List.length rescored)
      by (apply Permutation_length; exact Hperm).
    rewrite length_map, length_combine, Hlen, Nat.min_id in Hl.
    apply (f_equal (@List.length _)) in E. rewrite length_firstn, Hl in E.
    destruct chunks; [congruence|]. simpl in E. lia.
  - apply StronglySorted_weaken
      with (R := fun a b : chunk => new_score b <= new_score a).
    + intros a b Ha Hb H. now rewrite <- (Hkey a Ha), <- (Hkey b Hb).
    + apply SortedReverseFacts.sorted_reverse_ordered.
  - intro v.
    transitivity (filter (fun c => Qeq_bool (new_score c) v) ranked).
    { apply filter_ext_in. intros c Hin. now rewrite (Hkey c Hin). }
    unfold ranked. rewrite SortedReverseFacts.sorted_reverse_stable.
    apply filter_ext_in. intros c Hin. now rewrite (Hkey' c Hin).
  - intros c Hin. destruct (Hshape c Hin) as (c0 & s & Hin0 & ->).
    exists c0, s. repeat split; auto.
Qed.

(** X11.  When the cross-encoder returns fewer scores than there are
    chunks and the chunks carry no [reranker_score] yet, the sort raises
    after the loop has run: the fallback returns the chunks in their input
    order, but the chunks that met a score have already been rescored. *)
Theorem rerank_short_scores_keeps_writes :
  forall top_k : Z,
    (List.length scores < List.length chunks)%nat ->
    (forall c, In c chunks -> reranker_score c = None) ->
    (0 <= top_k)%Z ->
    rerank_chunks (Some m) query chunks top_k
    = firstn (Z.to_nat top_k)
        (rescored ++ skipn (List.length scores) chunks).
Proof.
  intros top_k Hlen Hfresh Hk.
  assert (Hne : chunks <> []) by (intros E; rewrite E in Hlen; simpl in Hlen; lia).
  rewrite (@rerank_nonempty m query chunks scores top_k Hne predicted).
  destruct (skipn (List.length scores) chunks) as [|x rest] eqn:Hskip.
  { apply (f_equal (@List.length _)) in Hskip. rewrite length_skipn in Hskip.
    simpl in Hskip. lia. }
  assert (Hx : In x chunks).
  { rewrite <- (firstn_skipn (List.length scores) chunks), Hskip.
    apply in_or_app. right. now left. }
  rewrite (@sort_raises (rescore_all chunks scores) x).
  - rewrite RerankerFacts.slice_to_firstn by exact Hk.
    now rewrite rescore_all_short, Hskip.
  - rewrite rescore_all_short, Hskip. apply in_or_app. right. now left.
  - now apply Hfresh.
Qed.

End Rerank.

(** X12.  Whatever the cross-encoder does (fails to load, raises, returns
    too few or too many scores), for [top_k >= 0] the result of
    [rerank_chunks] is the first [top_k] items of a rearrangement of the
    input chunks: no chunk is invented or duplicated, ids and texts are
    untouched, and the result has [min(top_k, len(chunks))] chunks. *)
Theorem rerank_returns_input_chunks :
  forall (get_reranker : option CrossEncoder) (query : str)
         (chunks : list chunk) (top_k : Z),
    (0 <= top_k)%Z ->
    (exists l,
       Permutation (map (fun c => (id c, text c)) l)
                   (map (fun c => (id c, text c)) chunks) /\
       rerank_chunks get_reranker query chunks top_k
       = firstn (Z.to_nat top_k) l) /\
    List.length (rerank_chunks get_reranker query chunks top_k)
    = Nat.min (Z.to_nat top_k) (List.length chunks).
Proof.
  intros get_reranker query chunks top_k Hk.
  assert (H : exists l,
             Permutation (map (fun c => (id c, text c)) l)
                         (map (fun c => (id c, text c)) chunks) /\
             rerank_chunks get_reranker query chunks top_k
             = firstn (Z.to_nat top_k) l).
  { assert (Hd : chunks = [] \/ chunks <> [])
      by (destruct chunks; [left; reflexivity|right; discriminate]).
    destruct Hd as [->|Hne].
    { exists []. split; [reflexivity|]. simpl. now rewrite firstn_nil. }
    rewrite rerank_unfold by exact Hne.
    destruct get_reranker as [m|];
      [|exists chunks; split; [reflexivity|now apply RerankerFacts.slice_to_firstn]].
    destruct (predict m _) as [scores|];
      [|exists chunks; split; [reflexivity|now apply RerankerFacts.slice_to_firstn]].
    pose proof (rescore_all_keeps chunks scores) as Hkeep.
    destruct (sort_by_reranker_score (rescore_all chunks scores)) as [all_sorted|] eqn:Hs.
    - assert (Hsorted : Permutation all_sorted (rescore_all chunks scores)).
      { unfold sort_by_reranker_score in Hs.
        destruct (forallb _ _); [|discriminate]. injection Hs as <-.
        symmetry. apply SortedReverseFacts.sorted_reverse_perm. }
      rewrite !RerankerFacts.slice_to_firstn by exact Hk.
      destruct (firstn (Z.to_nat top_k) all_sorted) as [|r rs] eqn:E.
      + exists (rescore_all chunks scores). split; [now rewrite Hkeep|reflexivity].
      + exists all_sorted. split; [|symmetry; exact E].
        rewrite <- Hkeep. now apply Permutation_map.
    - exists (rescore_all chunks scores). split; [now rewrite Hkeep|].
      now apply RerankerFacts.slice_to_firstn. }
  split; [exact H|].
  destruct H as (l & Hp & ->). rewrite length_firstn.
  apply Permutation_length in Hp. rewrite !length_map in Hp. now rewrite Hp.
Qed.

Lemma rerank_orders_by_new_score_witness :
  let a := set_score (@fresh Q 1 (lit "alpha") None) 0.8 in
  let b := set_score (@fresh Q 2 (lit "beta") None) 0.5 in
  let m := {| predict := fun _ => Some [0.2; 0.9] |} in
  exists ranked,
    rerank_chunks (Some m) (lit "greek letters") [a; b] 1
    = firstn 1 ranked /\
    Permutation ranked [rescore a 0.2; rescore b 0.9] /\
    StronglySorted (fun x y => get_score y 0 <= get_score x 0) ranked.
Proof.
  intros a b m.
  destruct (@rerank_orders_by_new_score m (lit "greek letters") [a; b]
              [0.2; 0.9] eq_refl 1%Z) as (ranked & Hr & Hp & Hs & _).
  - discriminate.
  - reflexivity.
  - reflexivity.
  - exists ranked. split; [exact Hr|]. split; [exact Hp|exact Hs].
Defined.

Lemma rerank_short_scores_keeps_writes_witness :
  let a := set_score (@fresh Q 1 (lit "alpha") None) 0.8 in
  let b := set_score (@fresh Q 2 (lit "beta") None) 0.5 in
  let m := {| predict := fun _ => Some [0.2] |} in
  rerank_chunks (Some m) (lit "greek letters") [a; b] 2
  = [rescore a 0.2; b].
Proof.
  intros a b m.
  apply (@rerank_short_scores_keeps_writes m (lit "greek letters") [a; b]
           [0.2] eq_refl 2%Z).
  - simpl. lia.
  - intros c [<-|[<-|[]]]; reflexivity.
  - discriminate.
Defined.

Lemma rerank_returns_input_chunks_witness :
  let a := set_score (@fresh Q 1 (lit "alpha") None) 0.8 in
  let b := set_score (@fresh Q 2 (lit "beta") None) 0.5 in
  let m := {| predict := fun _ => Some [0.2; 0.9; 0.4] |} in
  List.length (rerank_chunks (Some m) (lit "greek letters") [a; b] 1)
  = Nat.min (Z.to_nat 1) (List.length [a; b]).
Proof.
  intros a b m.
  apply (@rerank_returns_input_chunks (Some m) (lit "greek letters") [a; b] 1%Z).
  discriminate.
Defined.

End RerankFacts.

(** ** What MMR selects *)

Module MmrMoreFacts.
Import Py Chunks Cosine Mmr MmrSpec MmrShape.
Local Open Scope R_scope.

Lemma length_traverse (A B : Type) (f : A -> option B) (l : list A) :
  forall ys, traverse f l = Some ys -> List.length ys = List.length l.
Proof.
  induction l as [|x l IH]; simpl; intros ys H.
  - injection H as <-. reflexivity.
  - destruct (f x); [|discriminate].
    destruct (traverse f l) as [zs|]; [|discriminate].
    injection H as <-. simpl. f_equal. now apply IH.
Qed.

Lemma nth_traverse (A B : Type) (f : A -> option B) (l : list A) (d : A) (e : B) :
  forall ys j, traverse f l = Some ys -> (j < List.length l)%nat ->
               f (nth j l d) = Some (nth j ys e).
Proof.
  induction l as [|x l IH]; simpl; intros ys j H Hj; [lia|].
  destruct (f x) eqn:Ex; [|discriminate].
  destruct (traverse f l) as [zs|]; [|discriminate].
  injection H as <-. destruct j as [|j]; simpl; [exact Ex|].
  apply IH; [reflexivity|lia].
Qed.

Lemma traverse_raises (A B : Type) (f : A -> option B) (l : list A) (x : A) :
  In x l -> f x = None -> traverse f l = None.
Proof.
  induction l as [|y l IH]; simpl; [tauto|].
  intros [->|Hin] Hx.
  - now rewrite Hx.
  - destruct (f y); [|reflexivity]. now rewrite IH.
Qed.

Lemma nth_remove_perm (A : Type) (d : A) (l : list A) :
  forall i, (i < List.length l)%nat ->
            Permutation (nth i l d :: remove_at i l) l.
Proof.
  induction l as [|x l IH]; intros [|i] H; simpl in *; try lia.
  - reflexivity.
  - rewrite perm_swap. apply perm_skip. apply IH. lia.
Qed.

Lemma map_fst_enumerate_from (A : Type) (l : list A) :
  forall s, map fst (enumerate_from s l) = seq s (List.length l).
Proof. induction l as [|x l IH]; intro s; simpl; [reflexivity|now rewrite IH]. Qed.

(** [np.argmax]: the first greatest item. *)
Lemma argmax_from_spec (l : list R) :
  forall (pre : list R) (best : nat) (best_v : R),
    (best < List.length pre)%nat ->
    nth best pre 0 = best_v ->
    (forall j, (j < List.length pre)%nat -> nth j pre 0 <= best_v) ->
    (forall j, (j < best)%nat -> nth j pre 0 < best_v) ->
    let r := argmax_from best best_v (List.length pre) l in
    (forall j, (j < List.length (pre ++ l))%nat ->
               nth j (pre ++ l) 0 <= nth r (pre ++ l) 0) /\
    (forall j, (j < r)%nat -> nth j (pre ++ l) 0 < nth r (pre ++ l) 0).
Proof.
  induction l as [|x l IH]; intros pre best best_v Hb Hv Hall Hfirst; simpl.
  - rewrite app_nil_r, Hv. split; assumption.
  - assert (Hlen : List.length (pre ++ [x]) = S (List.length pre))
      by (rewrite length_app; simpl; lia).
    assert (Hcat : pre ++ x :: l = (pre ++ [x]) ++ l)
      by (rewrite <- app_assoc; reflexivity).
    destruct (Rlt_dec best_v x) as [Hlt|Hge].
    + specialize (IH (pre ++ [x]) (List.length pre) x).
      rewrite Hlen, <- Hcat in IH. apply IH.
      * lia.
      * rewrite app_nth2, Nat.sub_diag by lia. reflexivity.
      * intros j Hj. destruct (Nat.eq_dec j (List.length pre)) as [->|Hne].
        -- rewrite app_nth2, Nat.sub_diag by lia. simpl. lra.
        -- rewrite app_nth1 by lia. specialize (Hall j). lapply Hall; [lra|lia].
      * intros j Hj. rewrite app_nth1 by lia.
        specialize (Hall j Hj). lra.
    + specialize (IH (pre ++ [x]) best best_v).
      rewrite Hlen, <- Hcat in IH. apply IH.
      * lia.
      * rewrite app_nth1 by lia. exact Hv.
      * intros j Hj. destruct (Nat.eq_dec j (List.length pre)) as [->|Hne].
        -- rewrite app_nth2, Nat.sub_diag by lia. simpl. lra.
        -- rewrite app_nth1 by lia. apply Hall. lia.
      * intros j Hj. rewrite app_nth1 by lia. now apply Hfirst.
Qed.

Lemma argmax_spec (l : list R) :
  l <> [] ->
  (argmax l < List.length l)%nat /\
  (forall j, (j < List.length l)%nat -> nth j l 0 <= nth (argmax l) l 0) /\
  (forall j, (j < argmax l)%nat -> nth j l 0 < nth (argmax l) l 0).
Proof.
  intro Hne. split; [now apply MmrFacts.argmax_lt|].
  destruct l as [|x l]; [congruence|].
  apply (@argmax_from_spec l [x] 0%nat x); simpl; try lia; try reflexivity.
  - intros [|j] Hj; [lra|lia].
Qed.

Section Loop.
Variable query_embedding : list R.
Variable lambda_param : R.

Local Abbreviation loop := (mmr_loop query_embedding lambda_param).
Local Abbreviation score_of := (mmr_score_of query_embedding lambda_param).


(** The invariant of the loop: a remaining item is the input chunk of its
    place, a selected item is the input chunk of its place with an
    [mmr_score] written. *)
Local Abbreviation rem_ok :=
  (fun (chunks : list chunk) (ic : nat * chunk) =>
     nth_error chunks (fst ic) = Some (snd ic)).
Local Abbreviation sel_ok :=
  (fun (chunks : list chunk) (ic : nat * chunk) =>
     exists c0 v, nth_error chunks (fst ic) = Some c0 /\
                  snd ic = set_mmr_score c0 v).

Lemma mmr_loop_shape (chunks : list chunk) (fuel : nat) :
  forall selected remaining,
    NoDup (map fst (selected ++ remaining)) ->
    Forall (rem_ok chunks) remaining ->
    Forall (sel_ok chunks) selected ->
    exists b selected',
      loop fuel selected remaining = (b, selected') /\
      NoDup (map fst selected') /\
      Forall (sel_ok chunks) selected' /\
      (b = true ->
       List.length selected'
       = (List.length selected + Nat.min fuel (List.length remaining))%nat).
Proof.
  induction fuel as [|fuel IH]; intros selected remaining Hnd Hrem Hsel.
  - exists true, selected. simpl. split; [reflexivity|].
    rewrite map_app in Hnd. apply NoDup_app_remove_r in Hnd.
    split; [exact Hnd|]. split; [exact Hsel|]. intros _. lia.
  - destruct remaining as [|r0 rest].
    + exists true, selected. simpl. split; [reflexivity|].
      rewrite app_nil_r in Hnd.
      split; [exact Hnd|]. split; [exact Hsel|]. intros _. lia.
    + rewrite MmrFacts.mmr_loop_step.
      set (remaining := r0 :: rest) in *.
      destruct (traverse (score_of (map snd selected)) (map snd remaining))
        as [mmr_scores|] eqn:Hscores.
      * assert (Hlen : List.length mmr_scores = List.length remaining).
        { rewrite (length_traverse _ _ Hscores). apply length_map. }
        assert (Hne' : mmr_scores <> []).
        { intro E. rewrite E in Hlen. discriminate. }
        assert (Hidx : (argmax mmr_scores < List.length remaining)%nat)
          by (rewrite <- Hlen; now apply MmrFacts.argmax_lt).
        set (i := argmax mmr_scores) in *.
        set (best := nth i remaining r0).
        assert (Hbest : In best remaining) by (apply nth_In; exact Hidx).
        pose proof (nth_remove_perm r0 remaining Hidx) as Hperm. fold best in Hperm.
        destruct (IH (selected ++ [(fst best, set_mmr_score (snd best)
                                                (nth i mmr_scores 0))])
                     (remove_at i remaining))
          as (b & sel' & Hrun & Hnd' & Hok & Hl).
        -- rewrite <- app_assoc. simpl app.
           apply (Permutation_NoDup (l := map fst (selected ++ remaining)));
             [|exact Hnd].
           rewrite !map_app. apply Permutation_app_head.
           transitivity (map fst (best :: remove_at i remaining));
             [|reflexivity].
           apply Permutation_map. symmetry. exact Hperm.
        -- rewrite Forall_forall in *. intros x Hx. apply Hrem.
           eapply MmrFacts.remove_at_incl; exact Hx.
        -- apply Forall_app. split; [exact Hsel|]. constructor; [|constructor].
           exists (snd best), (nth i mmr_scores 0). simpl. split; [|reflexivity].
           rewrite Forall_forall in Hrem. now apply Hrem.
        -- exists b, sel'. split; [exact Hrun|]. split; [exact Hnd'|].
           split; [exact Hok|]. intro Hb. rewrite (Hl Hb), length_app.
           rewrite MmrFacts.remove_at_length by exact Hidx.
           subst remaining. simpl. lia.
      * exists false, selected. split; [reflexivity|].
        rewrite map_app in Hnd. apply NoDup_app_remove_r in Hnd.
        split; [exact Hnd|]. split; [exact Hsel|]. discriminate.
Qed.

Lemma enumerate_from_rem_ok (pre l : list chunk) :
  Forall (rem_ok (pre ++ l)) (enumerate_from (List.length pre) l).
Proof.
  revert pre. induction l as [|x l IH]; intro pre; simpl; constructor.
  - simpl. rewrite nth_error_app2, Nat.sub_diag by lia. reflexivity.
  - specialize (IH (pre ++ [x])). rewrite <- app_assoc, length_app in IH.
    simpl in IH. now rewrite Nat.add_1_r in IH.
Qed.

Lemma prefix_drawn (l l' : list chunk) :
  Forall2 marked_copy l l' ->
  forall (pre : list chunk) (n : nat),
    Forall2 (fun i c => exists c0, nth_error (pre ++ l) i = Some c0 /\
                                   marked_copy c0 c)
            (seq (List.length pre) (List.length (firstn n l')))
            (firstn n l').
Proof.
  induction 1 as [|x y l l' Hxy _ IH]; intros pre n.
  - rewrite firstn_nil. constructor.
  - destruct n as [|n]; simpl; constructor.
    + exists x. split; [|exact Hxy].
      rewrite nth_error_app2, Nat.sub_diag by lia. reflexivity.
    + specialize (IH (pre ++ [x]) n).
      rewrite <- app_assoc, length_app in IH. simpl in IH.
      now rewrite Nat.add_1_r in IH.
Qed.

Lemma firstn_drawn (chunks chunks' : list chunk) (n : nat) :
  Forall2 marked_copy chunks chunks' -> drawn_from chunks (firstn n chunks').
Proof.
  intro H. exists (seq 0 (List.length (firstn n chunks'))).
  split; [apply seq_NoDup|]. exact (prefix_drawn H [] n).
Qed.

Lemma Forall2_same (A : Type) (P : A -> A -> Prop) (l : list A) :
  (forall x, P x x) -> Forall2 P l l.
Proof. intro H. induction l; constructor; auto. Qed.

Lemma marked_pointwise (chunks : list chunk) (selected : list (nat * chunk)) :
  Forall (sel_ok chunks) selected ->
  Forall2 marked_copy chunks (marked chunks selected).
Proof.
  intro Hsel. unfold marked, enumerate.
  pose proof (enumerate_from_rem_ok [] chunks) as Hrem. simpl in Hrem.
  revert Hrem. generalize 0%nat.
  generalize chunks at 2 3 4 as l.
  induction l as [|x l IH]; intros s Hrem; simpl; constructor.
  - inversion Hrem as [|? ? Hx _]; subst. simpl in Hx.
    destruct (find _ selected) as [sc|] eqn:Hf; [|now left].
    apply find_some in Hf. destruct Hf as [Hin Heq]. simpl in Heq.
    apply Nat.eqb_eq in Heq.
    rewrite Forall_forall in Hsel. destruct (Hsel sc Hin) as (c0 & v & Hc0 & ->).
    rewrite Heq, Hx in Hc0. injection Hc0 as <-. right. eauto.
  - apply IH. now inversion Hrem.
Qed.

(** X14.  On every path (the early returns, the loop run to its end, the
    fallback after an exception), for [top_k >= 0] the result of
    [mmr_diversify] has [min(top_k, len(chunks))] chunks, each a copy of the
    chunk at some place of the input (at most with an [mmr_score] added),
    and no place of the input is used twice. *)
Theorem mmr_returns_input_chunks :
  forall (chunks : list chunk) (top_k : Z),
    (0 <= top_k)%Z ->
    drawn_from chunks (mmr_diversify query_embedding lambda_param chunks top_k) /\
    List.length (mmr_diversify query_embedding lambda_param chunks top_k)
    = Nat.min (Z.to_nat top_k) (List.length chunks).
Proof.
  intros chunks top_k Hk.
  assert (Hslice : drawn_from chunks (slice_to chunks top_k) /\
                   List.length (slice_to chunks top_k)
                   = Nat.min (Z.to_nat top_k) (List.length chunks)).
  { rewrite RerankerFacts.slice_to_firstn by exact Hk. split.
    - apply firstn_drawn. apply Forall2_same. now left.
    - apply length_firstn. }
  unfold mmr_diversify.
  destruct chunks as [|c cs] eqn:Ec; [exact Hslice|].
  destruct query_embedding as [|q qs] eqn:Eq; [exact Hslice|].
  rewrite <- Ec in *. rewrite <- Eq in *. clear Hslice.
  destruct (Z.leb_spec (Z.of_nat (List.length chunks)) top_k) as [Hle|Hgt].
  - split; [|lia].
    rewrite <- (firstn_all chunks) at 2.
    apply firstn_drawn. apply Forall2_same. now left.
  - destruct (@mmr_loop_shape chunks (Z.to_nat top_k) [] (enumerate chunks))
      as (b & sel & Hrun & Hnd & Hok & Hlen).
    + simpl. unfold enumerate. rewrite map_fst_enumerate_from. apply seq_NoDup.
    + exact (enumerate_from_rem_ok [] chunks).
    + constructor.
    + rewrite Hrun. destruct b.
      * split.
        -- exists (map fst sel). split; [exact Hnd|].
           clear Hrun Hnd Hlen. induction sel as [|ic sel IH]; simpl; constructor.
           ++ inversion Hok as [|? ? (c0 & v & Hc0 & Hv) _]; subst.
              exists c0. split; [exact Hc0|]. right. eauto.
           ++ apply IH. now inversion Hok.
        -- rewrite length_map, (Hlen eq_refl). unfold enumerate.
           rewrite MmrFacts.length_enumerate_from. simpl. reflexivity.
      * rewrite RerankerFacts.slice_to_firstn by exact Hk. split.
        -- apply firstn_drawn. now apply marked_pointwise.
        -- rewrite length_firstn. unfold marked.
           rewrite length_map. unfold enumerate.
           now rewrite MmrFacts.length_enumerate_from.
Qed.

Lemma argmax_from_keep (l : list R) :
  forall best best_v i,
    (forall x, In x l -> x <= best_v) -> argmax_from best best_v i l = best.
Proof.
  induction l as [|x l IH]; intros best best_v i H; simpl; [reflexivity|].
  destruct (Rlt_dec best_v x) as [Hlt|_].
  - specialize (H x (or_introl eq_refl)). lra.
  - apply IH. intros y Hy. apply H. now right.
Qed.

Lemma mmr_loop_descending (fuel : nat) :
  forall selected remaining,
    Forall no_embedding (map snd remaining) ->
    by_score_descending (map snd remaining) ->
    loop fuel selected remaining
    = (true, selected ++ map (fun ic => (fst ic, picked (snd ic)))
                             (firstn fuel remaining)).
Proof.
  induction fuel as [|fuel IH]; intros selected remaining Hplain Hdesc.
  - simpl. now rewrite app_nil_r.
  - destruct remaining as [|r0 rest]; [simpl; now rewrite app_nil_r|].
    rewrite MmrFacts.mmr_loop_step.
    rewrite (MmrFacts.scores_plain query_embedding lambda_param _ Hplain).
    cbv beta iota.
    assert (Hzero : argmax (map (fun c : Chunks.chunk R => get_score c 0)
                                (map snd (r0 :: rest))) = 0%nat).
    { simpl. apply argmax_from_keep. intros x Hx.
      apply in_map_iff in Hx. destruct Hx as (c & <- & Hc).
      simpl in Hdesc. inversion Hdesc as [|? ? _ Hall]; subst.
      rewrite Forall_forall in Hall. now apply Hall. }
    rewrite Hzero. simpl nth. simpl remove_at.
    rewrite IH.
    + rewrite <- app_assoc. reflexivity.
    + simpl in Hplain. now inversion Hplain.
    + simpl in Hdesc. now inversion Hdesc.
Qed.

(** X15.  For chunks without embeddings (what [search_top_k] returns) that
    arrive in descending order of score, the MMR selection of [top_k] out
    of more chunks is a plain truncation: it returns the first [top_k]
    chunks in their order, each with its score recorded as [mmr_score]. *)
Theorem mmr_without_embeddings_truncates :
  forall (chunks : list chunk) (top_k : Z),
    query_embedding <> [] ->
    Forall no_embedding chunks ->
    by_score_descending chunks ->
    (0 <= top_k < Z.of_nat (List.length chunks))%Z ->
    mmr_diversify query_embedding lambda_param chunks top_k
    = map picked (firstn (Z.to_nat top_k) chunks).
Proof.
  intros chunks top_k Hq Hplain Hdesc [H0 Hk].
  unfold mmr_diversify.
  destruct chunks as [|c cs] eqn:Ec; [simpl in Hk; lia|].
  destruct query_embedding as [|q qs] eqn:Eq; [congruence|].
  rewrite <- Ec in *. rewrite <- Eq in *.
  assert (Hle : (Z.of_nat (List.length chunks) <=? top_k)%Z = false)
    by (apply Z.leb_gt; lia).
  rewrite Hle, mmr_loop_descending.
  - cbv beta iota. simpl app. rewrite map_map. simpl.
    rewrite <- (MmrFacts.map_snd_enumerate_from chunks 0) at 2.
    rewrite firstn_map, map_map. reflexivity.
  - unfold enumerate. now rewrite MmrFacts.map_snd_enumerate_from.
  - unfold enumerate. now rewrite MmrFacts.map_snd_enumerate_from.
Qed.

End Loop.



Lemma mmr_returns_input_chunks_witness :
  drawn_from [plain_1; plain_2] (mmr_diversify [1] 0.7 [plain_1; plain_2] 1) /\
  List.length (mmr_diversify [1] 0.7 [plain_1; plain_2] 1)
  = Nat.min (Z.to_nat 1) (List.length [plain_1; plain_2]).
Proof.
  apply (@mmr_returns_input_chunks [1] 0.7 [plain_1; plain_2] 1%Z).
  discriminate.
Defined.

Lemma mmr_without_embeddings_truncates_witness :
  mmr_diversify [1] 0.7 [plain_1; plain_2] 1 = [picked plain_1].
Proof.
  apply (@mmr_without_embeddings_truncates [1] 0.7 [plain_1; plain_2] 1%Z).
  - discriminate.
  - repeat constructor.
  - repeat constructor.
    change (get_score plain_1 0) with 0.5.
    change (get_score plain_2 0) with 0.2. lra.
  - simpl. lia.
Defined.

End MmrMoreFacts.


(** ** Ranks and order of the fused list *)

Module RrfMoreFacts.
Import Py Chunks Rrf RrfSpec RrfOrder.
Local Open Scope Q_scope.

Local Abbreviation ids := (map (@Chunks.id Q)).

Lemma index_of_head (i : Z) (x : Z) (l : list Z) :
  index_of i (x :: l)
  = if Z.eqb x i then Some O
    else match index_of i l with Some n => Some (S n) | None => None end.
Proof. reflexivity. Qed.

Lemma index_of_In (i : Z) (l : list Z) (n : nat) :
  index_of i l = Some n -> nth_error l n = Some i.
Proof.
  revert n. induction l as [|x l IH]; intros n; simpl; [discriminate|].
  destruct (Z.eqb_spec x i) as [->|Hne].
  - intro H. injection H as <-. reflexivity.
  - destruct (index_of i l) as [m|]; [|discriminate].
    intro H. injection H as <-. simpl. now apply IH.
Qed.

Lemma index_of_present (i : Z) (l : list Z) :
  In i l -> exists n, index_of i l = Some n.
Proof.
  induction l as [|x l IH]; simpl; [tauto|].
  destruct (Z.eqb_spec x i) as [->|Hne]; [eauto|].
  intros [H|H]; [congruence|]. destruct (IH H) as (n & ->). eauto.
Qed.

(** [chunk_data] after the loop over the vector results. *)
Lemma data_after_vector (k : nat) (l : list chunk) (i : Z) :
  NoDup (ids l) ->
  forall (s : nat) (st : state),
    get Z.eqb (snd (fold_left (vector_step k) (enumerate_from s l) st)) i
    = match index_of i (ids l) with
      | Some n => option_map (with_vector_rank (s + n)) (nth_error l n)
      | None => get Z.eqb (snd st) i
      end.
Proof.
  induction l as [|c l IH]; intros Hnd s st; [reflexivity|].
  simpl in Hnd. inversion Hnd as [|? ? Hnotin Hnd']; subst.
  simpl enumerate_from. simpl fold_left. rewrite (IH Hnd').
  simpl ids. rewrite index_of_head.
  destruct st as [sc da].
  destruct (Z.eqb_spec (Chunks.id c) i) as [<-|Hne].
  - rewrite RrfFacts.index_of_absent by exact Hnotin.
    simpl. rewrite DictFacts.get_setitem_same by apply Z.eqb_eq.
    rewrite Nat.add_0_r. reflexivity.
  - destruct (index_of i (ids l)) as [n|].
    + simpl. now rewrite Nat.add_succ_r.
    + simpl. apply DictFacts.get_setitem_other; [apply Z.eqb_eq|exact Hne].
Qed.

(** [chunk_data] after the loop over the BM25 results. *)
Lemma data_after_bm25 (k : nat) (l : list chunk) (i : Z) :
  NoDup (ids l) ->
  forall (s : nat) (st : state),
    get Z.eqb (snd (fold_left (bm25_step k) (enumerate_from s l) st)) i
    = match index_of i (ids l) with
      | Some n =>
          option_map
            (fun c => set_bm25_rank
                        match get Z.eqb (snd st) i with
                        | Some c0 => c0
                        | None => c
                        end (s + n + 1))
            (nth_error l n)
      | None => get Z.eqb (snd st) i
      end.
Proof.
  induction l as [|c l IH]; intros Hnd s st; [reflexivity|].
  simpl in Hnd. inversion Hnd as [|? ? Hnotin Hnd']; subst.
  simpl enumerate_from. simpl fold_left. rewrite (IH Hnd').
  simpl ids. rewrite index_of_head.
  destruct st as [sc da].
  destruct (Z.eqb_spec (Chunks.id c) i) as [<-|Hne].
  - rewrite RrfFacts.index_of_absent by exact Hnotin.
    simpl. rewrite DictFacts.get_setitem_same by apply Z.eqb_eq.
    rewrite Nat.add_0_r. reflexivity.
  - assert (Hother : get Z.eqb (snd (bm25_step k (sc, da) (s, c))) i
                     = get Z.eqb da i)
      by (simpl; rewrite DictFacts.get_setitem_other;
          [reflexivity|apply Z.eqb_eq|exact Hne]).
    rewrite Hother.
    destruct (index_of i (ids l)) as [n|]; [|reflexivity].
    replace (s + S n + 1)%nat with (S s + n + 1)%nat by lia. reflexivity.
Qed.

Lemma build_members (da : dict Z chunk) (items : list (Z * Q)) (c : chunk) :
  In c (build da items) ->
  exists it c', In it items /\ get Z.eqb da (fst it) = Some c' /\
                c = set_score (set_rrf_score c' (snd it)) (snd it).
Proof.
  unfold build. intro H. apply in_flat_map in H.
  destruct H as (it & Hit & Hc).
  destruct (get Z.eqb da (fst it)) as [c'|] eqn:E; [|contradiction].
  destruct Hc as [<-|[]]. eauto.
Qed.

Lemma index_of_app (i : Z) (l1 l2 : list Z) :
  index_of i (l1 ++ l2)
  = match index_of i l1 with
    | Some n => Some n
    | None => match index_of i l2 with
              | Some m => Some (List.length l1 + m)%nat
              | None => None
              end
    end.
Proof.
  induction l1 as [|x l1 IH]; cbn [app].
  - cbn [index_of List.length]. now destruct (index_of i l2).
  - rewrite !index_of_head. destruct (Z.eqb x i); [reflexivity|].
    rewrite IH. destruct (index_of i l1); [reflexivity|].
    now destruct (index_of i l2).
Qed.

Lemma index_of_bound (i : Z) (l : list Z) (n : nat) :
  index_of i l = Some n -> (n < List.length l)%nat.
Proof.
  intro H. apply index_of_In in H. apply nth_error_Some. congruence.
Qed.

(** The first of two ids of a list is the first to be met. *)
Lemma first_seen_from_precedes (l : list Z) (a b : Z) :
  forall (seen : list Z) (n m : nat),
    index_of a l = Some n -> index_of b l = Some m -> (n < m)%nat ->
    ~ In a seen -> ~ In b seen ->
    precedes (first_seen_from seen l) a b.
Proof.
  induction l as [|x l IH]; intros seen n m Ha Hb Hnm Hsa Hsb;
    [discriminate|].
  rewrite index_of_head in Ha, Hb. cbn [first_seen_from].
  destruct (Z.eqb_spec x b) as [->|Hxb].
  { injection Hb as <-. lia. }
  destruct (index_of b l) as [m'|] eqn:Eb; [|discriminate].
  injection Hb as <-.
  destruct (Z.eqb_spec x a) as [->|Hxa].
  - assert (E : existsb (Z.eqb a) seen = false).
    { destruct (existsb (Z.eqb a) seen) eqn:E; [|reflexivity].
      apply RrfFacts.existsb_eqb_In in E. contradiction. }
    rewrite E.
    assert (Hin : In b (first_seen_from (a :: seen) l)).
    { apply RrfFacts.first_seen_from_spec. split.
      - apply index_of_In in Eb. eapply nth_error_In; exact Eb.
      - intros [H|H]; [congruence|contradiction]. }
    apply in_split in Hin. destruct Hin as (m1 & m2 & ->).
    exists [], m1, m2. reflexivity.
  - destruct (index_of a l) as [n'|] eqn:Ea; [|discriminate].
    injection Ha as <-.
    destruct (existsb (Z.eqb x) seen).
    + apply (IH seen n' m'); auto. lia.
    + destruct (IH (x :: seen) n' m') as (k1 & k2 & k3 & ->); auto; try lia.
      * intros [H|H]; [congruence|contradiction].
      * intros [H|H]; [congruence|contradiction].
      * exists (x :: k1), k2, k3. reflexivity.
Qed.

Lemma reciprocal_nonneg (n : nat) : 0 <= reciprocal n.
Proof.
  unfold reciprocal, Float.div. apply FloatFacts.round_nonneg.
  unfold Qdiv. rewrite Qmult_1_l. apply Qinv_le_0_compat.
  rewrite <- (Zle_Qle 0). lia.
Qed.

Lemma reciprocal_mono (n m : nat) :
  (0 < n <= m)%nat -> reciprocal m <= reciprocal n.
Proof.
  intro H. unfold reciprocal, Float.div. apply FloatFacts.round_mono.
  unfold Qdiv. rewrite !Qmult_1_l.
  assert (Hn : 0 < inject_Z (Z.of_nat n)) by (rewrite <- (Zlt_Qlt 0); lia).
  assert (Hm : 0 < inject_Z (Z.of_nat m)) by (rewrite <- (Zlt_Qlt 0); lia).
  apply Qle_shift_inv_r; [exact Hm|]. rewrite Qmult_comm.
  apply Qle_shift_div_l; [exact Hn|]. rewrite Qmult_1_l.
  rewrite <- Zle_Qle. lia.
Qed.

(** The id that both rankings put above another has a fused score that is
    not smaller: rounding keeps the order of the shares and of their sums. *)
Lemma rrf_above (k : nat) (lv lb : list Z) (a b : Z) :
  ranked_above lv a b -> ranked_above lb a b ->
  rrf k lv lb b <= rrf k lv lb a.
Proof.
  intros (n & Hn & Hvb) (n' & Hn' & Hbb).
  unfold rrf, rank_term. rewrite Hn, Hn'.
  pose proof (reciprocal_nonneg (k + n + 1)) as P1.
  pose proof (reciprocal_nonneg (k + n' + 1)) as P2.
  assert (PA : 0 <= Float.add 0 (reciprocal (k + n + 1))).
  { apply FloatFacts.round_nonneg. now rewrite Qplus_0_l. }
  destruct (index_of b lv) as [m|], (index_of b lb) as [m'|];
    cbv beta iota delta [add_share].
  - apply FloatFacts.add_mono.
    + apply FloatFacts.add_mono; [apply Qle_refl|apply reciprocal_mono; lia].
    + apply reciprocal_mono; lia.
  - eapply Qle_trans.
    + apply (@FloatFacts.add_mono 0 (reciprocal (k + m + 1))
                                  0 (reciprocal (k + n + 1)));
        [apply Qle_refl|apply reciprocal_mono; lia].
    + apply (@FloatFacts.add_above_l (0 + reciprocal (k + n + 1))
                                     (reciprocal (k + n' + 1))). exact P2.
  - apply FloatFacts.add_mono; [exact PA|apply reciprocal_mono; lia].
  - apply FloatFacts.round_nonneg.
    apply (Qle_trans _ (0 + 0)); [apply Qle_refl|now apply Qplus_le_compat].
Qed.

Section Fused.
Variable k : nat.
Variables V B : list chunk.
Hypothesis V_ranked : NoDup (ids V).
Hypothesis B_ranked : NoDup (ids B).

Local Abbreviation out := (reciprocal_rank_fusion k V B).

Lemma data_of_id (i : Z) :
  get Z.eqb (snd (accumulate k V B)) i
  = match index_of i (ids B) with
    | Some n =>
        option_map
          (fun cb => set_bm25_rank
                       match match index_of i (ids V) with
                             | Some m => option_map (with_vector_rank m)
                                                    (nth_error V m)
                             | None => None
                             end with
                       | Some c0 => c0
                       | None => cb
                       end (n + 1))
          (nth_error B n)
    | None =>
        match index_of i (ids V) with
        | Some m => option_map (with_vector_rank m) (nth_error V m)
        | None => None
        end
    end.
Proof.
  unfold accumulate, enumerate.
  rewrite (@data_after_bm25 k B i B_ranked), (@data_after_vector k V i V_ranked).
  reflexivity.
Qed.

Lemma out_members (c : chunk) :
  In c out ->
  exists s c', get Z.eqb (snd (accumulate k V B)) (Chunks.id c) = Some c' /\
               c = set_score (set_rrf_score c' s) s.
Proof.
  intro H. rewrite RrfFacts.fusion_output in H.
  apply build_members in H. destruct H as (it & c' & _ & Hget & ->).
  exists (snd it), c'. split; [|reflexivity].
  destruct (RrfFacts.data_ok_accumulate k V B) as [_ Hid].
  simpl. now rewrite (Hid _ _ Hget).
Qed.

Lemma stored_ranks (i : Z) (c' : chunk) :
  get Z.eqb (snd (accumulate k V B)) i = Some c' ->
  (forall n, index_of i (ids B) = Some n -> bm25_rank c' = Some (n + 1)%nat) /\
  (forall m cv, index_of i (ids V) = Some m ->
                nth_error V m = Some cv ->
                vector_rank c' = match vector_rank cv with
                                 | Some r => Some r
                                 | None => Some (m + 1)%nat
                                 end).
Proof.
  intro Hget. rewrite data_of_id in Hget. split.
  - intros n Hn. rewrite Hn in Hget.
    destruct (nth_error B n) as [cb|]; [|discriminate].
    simpl in Hget. injection Hget as <-. reflexivity.
  - intros m cv Hm Hcv. rewrite Hm, Hcv in Hget. simpl in Hget.
    assert (Hvr : vector_rank (with_vector_rank m cv)
                  = match vector_rank cv with
                    | Some r => Some r
                    | None => Some (m + 1)%nat
                    end).
    { unfold with_vector_rank. destruct (vector_rank cv) eqn:E; [exact E|reflexivity]. }
    destruct (index_of i (ids B)) as [n|].
    + destruct (nth_error B n) as [cb|]; [|discriminate].
      simpl in Hget. injection Hget as <-. exact Hvr.
    + injection Hget as <-. exact Hvr.
Qed.

(** X17.  The ranks that fusion records.  For lists without repeated ids,
    a result that is in the BM25 list carries its 1-based place there as
    [bm25_rank], whatever it carried before; a result that is in the vector
    list carries its 1-based place there as [vector_rank] unless the chunk
    came with a [vector_rank], which is then kept. *)
Theorem rrf_records_ranks :
  forall c, In c out ->
    (forall n, index_of (Chunks.id c) (ids B) = Some n ->
               bm25_rank c = Some (n + 1)%nat) /\
    (forall m cv, index_of (Chunks.id c) (ids V) = Some m ->
                  nth_error V m = Some cv ->
                  vector_rank c = match vector_rank cv with
                                  | Some r => Some r
                                  | None => Some (m + 1)%nat
                                  end).
Proof.
  intros c Hc. destruct (@out_members c Hc) as (s & c' & Hget & ->).
  simpl Chunks.id in *. simpl bm25_rank. simpl vector_rank.
  exact (@stored_ranks (Chunks.id c') c' Hget).
Qed.


Lemma out_sorted : StronglySorted (fun x y : chunk => fused y <= fused x) out.
Proof.
  apply (@RrfFacts.sorted_through_map chunk (Z * Q)
           (fun c : chunk => (Chunks.id c, fused c))
           (fun x y : Z * Q => snd y <= snd x)).
  rewrite (@RrfFacts.output_items k V B).
  apply SortedReverseFacts.sorted_reverse_ordered.
Qed.

Lemma out_score (c : chunk) :
  In c out -> fused c = rrf k (ids V) (ids B) (Chunks.id c).
Proof.
  intro Hc.
  assert (Hin : In (Chunks.id c, fused c)
                   (map (fun c : chunk => (Chunks.id c, fused c)) out))
    by (apply in_map_iff; exists c; auto).
  rewrite (@RrfFacts.output_items k V B) in Hin.
  apply (Permutation_in _ (Permutation_sym (@RrfFacts.items_perm k V B))) in Hin.
  exact (@RrfFacts.score_of_item k V B V_ranked B_ranked _ Hin).
Qed.

Lemma out_ids_perm :
  Permutation (ids out) (first_seen (ids V) (ids B)).
Proof.
  rewrite (@RrfFacts.output_ids k V B V_ranked B_ranked).
  rewrite <- (@RrfFacts.keys_scores k V B).
  apply Permutation_map, Permutation_sym, RrfFacts.items_perm.
Qed.

Lemma out_ids_spec (i : Z) : In i (ids out) <-> In i (ids V) \/ In i (ids B).
Proof.
  split.
  - intro Hi. apply (Permutation_in _ out_ids_perm) in Hi.
    apply RrfFacts.first_seen_from_spec in Hi. destruct Hi as [Hi _].
    now apply in_app_or.
  - intro Hi. apply (Permutation_in _ (Permutation_sym out_ids_perm)).
    apply RrfFacts.first_seen_from_spec. split; [now apply in_or_app|simpl; tauto].
Qed.

(** X18.  Fusion respects the agreement of the two rankings: when both
    lists put the chunk [a] above the chunk [b] ([b] further down or
    missing), [a] is in the fused list and [b], if it is there, comes after
    [a]. *)
Theorem rrf_respects_agreement :
  forall a b : Z,
    ranked_above (ids V) a b ->
    ranked_above (ids B) a b ->
    In a (ids out) /\ (In b (ids out) -> precedes (ids out) a b).
Proof.
  intros a b HV HB.
  pose proof (@rrf_above k (ids V) (ids B) a b HV HB) as Hle.
  destruct HV as (n & Hn & Hvb).
  assert (Ha : In a (ids out)).
  { apply out_ids_spec. left.
    apply index_of_In in Hn. eapply nth_error_In; exact Hn. }
  split; [exact Ha|]. intro Hb.
  (* [a] is met before [b] *)
  assert (Hseen : precedes (first_seen (ids V) (ids B)) a b).
  { unfold first_seen.
    assert (Hb' : In b (ids V ++ ids B))
      by (apply in_or_app; now apply out_ids_spec).
    destruct (index_of_present _ _ Hb') as (m & Hm).
    apply (@first_seen_from_precedes _ a b [] n m); auto.
    - rewrite index_of_app, Hn. reflexivity.
    - rewrite index_of_app in Hm.
      destruct (index_of b (ids V)) as [m0|].
      + injection Hm as <-. exact Hvb.
      + destruct (index_of b (ids B)) as [m1|]; [|discriminate].
        injection Hm as <-. apply index_of_bound in Hn. lia. }
  (* and so are their entries in [rrf_scores] *)
  rewrite <- (@RrfFacts.keys_scores k V B) in Hseen.
  destruct Hseen as (l1 & l2 & l3 & E).
  unfold Py.keys in E.
  apply map_eq_app in E. destruct E as (s1 & r1 & Esc & <- & E).
  apply map_eq_cons in E. destruct E as ([a' sa] & r2 & -> & Hfa & E).
  apply map_eq_app in E. destruct E as (s2 & r3 & -> & <- & E).
  apply map_eq_cons in E. destruct E as ([b' sb] & s3 & -> & Hfb & <-).
  cbn [fst] in Hfa, Hfb. subst a' b'.
  assert (Hsa : sa = rrf k (ids V) (ids B) a).
  { apply (@RrfFacts.score_of_item k V B V_ranked B_ranked (a, sa)).
    rewrite Esc. apply in_or_app. right. now left. }
  assert (Hsb : sb = rrf k (ids V) (ids B) b).
  { apply (@RrfFacts.score_of_item k V B V_ranked B_ranked (b, sb)).
    rewrite Esc. apply in_or_app. right. right. apply in_or_app. right. now left. }
  destruct (@SortedReverseFacts.sorted_reverse_keeps (Z * Q) (@snd Z Q)
              (a, sa) (b, sb) (fst (accumulate k V B)))
    as (t1 & t2 & t3 & Et).
  { now exists s1, s2, s3. }
  { cbn [snd]. now rewrite Hsa, Hsb. }
  rewrite (@RrfFacts.output_ids k V B V_ranked B_ranked), Et.
  exists (map fst t1), (map fst t2), (map fst t3).
  now rewrite map_app, (map_cons fst), map_app.
Qed.

End Fused.

Lemma rrf_records_ranks_witness :
  exists c,
    In c (reciprocal_rank_fusion 60 [chunk_A; chunk_B; chunk_C]
                                 [chunk_B; chunk_A; chunk_C]) /\
    Chunks.id c = 1%Z /\
    bm25_rank c = Some 2%nat /\ vector_rank c = Some 1%nat.
Proof.
  assert (HV : NoDup (ids [chunk_A; chunk_B; chunk_C]))
    by (simpl; repeat constructor; simpl; intuition discriminate).
  assert (HB : NoDup (ids [chunk_B; chunk_A; chunk_C]))
    by (simpl; repeat constructor; simpl; intuition discriminate).
  assert (E : exists c rest,
             reciprocal_rank_fusion 60 [chunk_A; chunk_B; chunk_C]
                                    [chunk_B; chunk_A; chunk_C] = c :: rest /\
             Chunks.id c = 1%Z)
    by (vm_compute; eexists; eexists; split; reflexivity).
  destruct E as (c & rest & E & Hid).
  assert (Hin : In c (reciprocal_rank_fusion 60 [chunk_A; chunk_B; chunk_C]
                                             [chunk_B; chunk_A; chunk_C]))
    by (rewrite E; now left).
  destruct (@rrf_records_ranks 60 [chunk_A; chunk_B; chunk_C]
              [chunk_B; chunk_A; chunk_C] HV HB c Hin) as [H1 H2].
  rewrite Hid in H1, H2.
  exists c. split; [exact Hin|]. split; [exact Hid|]. split.
  - exact (H1 1%nat eq_refl).
  - exact (H2 0%nat chunk_A eq_refl eq_refl).
Defined.

Lemma rrf_respects_agreement_witness :
  let out := reciprocal_rank_fusion 60 [chunk_A; chunk_B; chunk_C]
                                    [chunk_B; chunk_A; chunk_C] in
  In 1%Z (ids out) /\ (In 3%Z (ids out) -> precedes (ids out) 1%Z 3%Z).
Proof.
  intro out.
  apply (@rrf_respects_agreement 60 [chunk_A; chunk_B; chunk_C]
           [chunk_B; chunk_A; chunk_C]).
  - simpl; repeat constructor; simpl; intuition discriminate.
  - simpl; repeat constructor; simpl; intuition discriminate.
  - exists 0%nat. split; [reflexivity|]. simpl. lia.
  - exists 1%nat. split; [reflexivity|]. simpl. lia.
Defined.

End RrfMoreFacts.

(** ** Hybrid search as a whole *)

Module HybridFacts.
Import Py Chunks HybridSearch Hybrid RrfSpec.
Local Open Scope Q_scope.

Local Abbreviation ids := (map (@Chunks.id Q)).

Lemma pair_up_enough (S : Type) (chunks : list chunk) :
  forall scores : list S,
    List.length scores = List.length chunks ->
    exists l, pair_up chunks scores = Some l /\ map fst l = chunks.
Proof.
  induction chunks as [|c cs IH]; intros [|s ss] H; simpl in *;
    try discriminate; [eauto|].
  destruct (IH ss) as (l & -> & Hl); [congruence|].
  exists ((c, s) :: l). simpl. now rewrite Hl.
Qed.

Lemma traverse_total (A B : Type) (f : A -> option B) (l : list A) :
  Forall (fun x => f x <> None) l ->
  exists ys, Mmr.traverse f l = Some ys /\ List.length ys = List.length l.
Proof.
  induction 1 as [|x l Hx _ (ys & IH & Hl)]; simpl; [eauto|].
  destruct (f x) as [y|]; [|congruence]. rewrite IH.
  exists (y :: ys). simpl. now rewrite Hl.
Qed.

Lemma NoDup_firstn (A : Type) (n : nat) (l : list A) :
  NoDup l -> NoDup (firstn n l).
Proof.
  intro H. rewrite <- (firstn_skipn n l) in H.
  now apply NoDup_app_remove_r in H.
Qed.

Lemma In_firstn (A : Type) (n : nat) (l : list A) (x : A) :
  In x (firstn n l) -> In x l.
Proof.
  intro H. rewrite <- (firstn_skipn n l). apply in_or_app. now left.
Qed.

Lemma StronglySorted_firstn (A : Type) (R : A -> A -> Prop) (l : list A) :
  StronglySorted R l -> forall n, StronglySorted R (firstn n l).
Proof.
  induction 1 as [|x l Hs IH Hall]; intros [|n]; simpl; try constructor.
  - apply IH.
  - rewrite Forall_forall in *. intros y Hy. apply Hall.
    eapply In_firstn; exact Hy.
Qed.

(** The names of the chunk type, unfolded. *)
Ltac plain := unfold chunk, HybridSearch.chunk, Rrf.chunk in *.

Section HybridSearch.
Variable _fetch_all_chunks : option (list str) -> list chunk.
Variable get_scores : list (list str) -> list str -> list Q.
Variable embed_query : str -> option (list Q).
Variable py_sum : list Q -> Q.
Variable py_pow : Q -> Q -> Q.
Variable query : str.
Variable doc_ids : option (list str).

Local Abbreviation chunks := (_fetch_all_chunks doc_ids).
Local Abbreviation search :=
  (hybrid_search _fetch_all_chunks get_scores embed_query py_sum py_pow).

(** The rows of the database: distinct ids, an embedding each, no rank
    yet; the BM25 index gives one score per row; the embedding model
    answers; no similarity raises. *)
Hypothesis rows_distinct : NoDup (ids chunks).
Hypothesis rows_embedded : Forall (fun c : chunk => embedding c <> None) chunks.
Hypothesis rows_unranked : Forall (fun c : chunk => vector_rank c = None) chunks.
Hypothesis one_score_each :
  List.length (get_scores (map (fun c : chunk => split (lower (text c))) chunks)
                          (split (lower query)))
  = List.length chunks.
Hypothesis query_embedded : exists query_vec, embed_query query = Some query_vec.
Hypothesis rows_scored :
  forall query_vec,
    embed_query query = Some query_vec ->
    Forall (fun c : chunk =>
              forall chunk_vec,
                embedding c = Some chunk_vec ->
                _cosine_similarity py_sum py_pow query_vec chunk_vec <> None)
           chunks.

(** X19.  Hybrid search over [n] rows returns [min(k, n)] chunks for every
    [k >= 0], whatever the weights and [min_score]: no result is dropped for
    a low score.  The results have distinct ids of the rows, stand in
    descending order of their fused score, and each carries its place in the
    vector ranking and in the BM25 ranking; its [score] and [rrf_score] are
    the float sum [0.0 + 1/(60 + vector_rank) + 1/(60 + bm25_rank)], every
    quotient and sum rounded to binary64. *)
Theorem hybrid_search_returns_top_k :
  forall (k : Z) (vector_weight bm25_weight : Q) (min_score : option Q),
    (0 <= k)%Z ->
    exists results,
      search query k doc_ids vector_weight bm25_weight min_score = Some results /\
      List.length results = Nat.min (Z.to_nat k) (List.length chunks) /\
      NoDup (ids results) /\
      incl (ids results) (ids chunks) /\
      StronglySorted (fun a b : chunk => fused b <= fused a) results /\
      forall c, In c results ->
        exists (vr br : nat) (s : Q),
          vector_rank c = Some vr /\ bm25_rank c = Some br /\
          (1 <= vr <= List.length chunks)%nat /\
          (1 <= br <= List.length chunks)%nat /\
          score c = Some s /\ rrf_score c = Some s /\
          s = Float.add (Float.add 0 (Float.div 1 (inject_Z (Z.of_nat (60 + vr)))))
                        (Float.div 1 (inject_Z (Z.of_nat (60 + br)))).
Proof.
  intros k vector_weight bm25_weight min_score Hk.
  unfold hybrid_search, _compute_bm25_scores, _compute_vector_scores.
  plain.
  destruct chunks as [|c0 cs] eqn:Hrows.
  { exists []. split; [reflexivity|].
    split; [symmetry; apply Nat.min_0_r|].
    split; [constructor|]. split; [intros ? []|].
    split; [constructor|]. intros ? []. }
  rewrite <- Hrows in *.
  assert (Hpos : (0 < List.length chunks)%nat) by (rewrite Hrows; simpl; lia).
  (* BM25 ranking *)
  destruct (@Bm25Facts.py_max_nonempty
              (get_scores (map (fun c : Chunks.chunk Q => split (lower (text c))) chunks)
                          (split (lower query)))) as (m & Hmax).
  { intro E. rewrite E in one_score_each. simpl in one_score_each. lia. }
  rewrite Hmax.
  destruct (@pair_up_enough Q chunks
              (map (fun s => Float.div s (if Qltb 0 m then m else 1))
                   (get_scores (map (fun c : Chunks.chunk Q => split (lower (text c))) chunks)
                               (split (lower query)))))
    as (bl & -> & Hbl).
  { now rewrite length_map. }
  set (B := map fst (sorted_reverse (@snd chunk Q) bl)).
  assert (HB : Permutation B chunks).
  { unfold B. transitivity (map fst bl); [|now rewrite Hbl].
    apply Permutation_map, Permutation_sym.
    apply SortedReverseFacts.sorted_reverse_perm. }
  (* vector ranking *)
  destruct query_embedded as (query_vec & Hvec).
  rewrite Hvec.
  pose proof (rows_scored Hvec) as Hscored.
  destruct (@traverse_total (Chunks.chunk Q) Q
              (fun c : Chunks.chunk Q =>
                 match embedding c with
                 | Some chunk_vec =>
                     _cosine_similarity py_sum py_pow query_vec chunk_vec
                 | None => None
                 end) chunks) as (vs & -> & Hvs).
  { rewrite Forall_forall in *. intros c Hc.
    pose proof (rows_embedded c Hc) as He. pose proof (Hscored c Hc) as Hs.
    cbv beta in He, Hs.
    destruct (embedding c) as [chunk_vec|]; [now apply Hs|congruence]. }
  destruct (@pair_up_enough Q chunks vs Hvs) as (vl & -> & Hvl).
  set (V := map fst (sorted_reverse (@snd chunk Q) vl)).
  assert (HV : Permutation V chunks).
  { unfold V. transitivity (map fst vl); [|now rewrite Hvl].
    apply Permutation_map, Permutation_sym.
    apply SortedReverseFacts.sorted_reverse_perm. }
  assert (HVnd : NoDup (ids V)).
  { eapply Permutation_NoDup; [|exact rows_distinct].
    apply Permutation_map, Permutation_sym, HV. }
  assert (HBnd : NoDup (ids B)).
  { eapply Permutation_NoDup; [|exact rows_distinct].
    apply Permutation_map, Permutation_sym, HB. }
  set (out := Rrf.reciprocal_rank_fusion 60 V B).
  assert (Hmem : forall i, In i (ids out) <-> In i (ids chunks)).
  { intro i. unfold out.
    rewrite (@RrfMoreFacts.out_ids_spec 60 V B HVnd HBnd i). split.
    - intros [H|H].
      + eapply Permutation_in; [apply Permutation_map; exact HV|exact H].
      + eapply Permutation_in; [apply Permutation_map; exact HB|exact H].
    - intro H. left.
      eapply Permutation_in; [apply Permutation_map, Permutation_sym; exact HV|exact H]. }
  assert (Hout_nd : NoDup (ids out)).
  { eapply Permutation_NoDup;
      [apply Permutation_sym, (@RrfMoreFacts.out_ids_perm 60 V B HVnd HBnd)|].
    apply RrfFacts.first_seen_from_spec. }
  assert (Hout_len : List.length out = List.length chunks).
  { assert (Hp : Permutation (ids out) (ids chunks))
      by (apply NoDup_Permutation; assumption).
    apply Permutation_length in Hp. rewrite !length_map in Hp. exact Hp. }
  exists (firstn (Z.to_nat k) out).
  split; [now rewrite RerankerFacts.slice_to_firstn by exact Hk|].
  split; [now rewrite length_firstn, Hout_len|].
  split; [rewrite <- firstn_map; now apply NoDup_firstn|].
  split.
  { intros i Hi. apply Hmem. rewrite <- firstn_map in Hi.
    eapply In_firstn; exact Hi. }
  split.
  { apply StronglySorted_firstn. apply (@RrfMoreFacts.out_sorted 60 V B). }
  intros c Hc. apply In_firstn in Hc.
  assert (Hid : In (Chunks.id c) (ids chunks)) by (apply Hmem; now apply in_map).
  assert (HidV : In (Chunks.id c) (ids V)).
  { eapply Permutation_in; [apply Permutation_map, Permutation_sym; exact HV|exact Hid]. }
  assert (HidB : In (Chunks.id c) (ids B)).
  { eapply Permutation_in; [apply Permutation_map, Permutation_sym; exact HB|exact Hid]. }
  destruct (RrfMoreFacts.index_of_present _ _ HidV) as (mv & Hmv).
  destruct (RrfMoreFacts.index_of_present _ _ HidB) as (nb & Hnb).
  pose proof (RrfMoreFacts.index_of_In _ _ Hmv) as HnthV.
  pose proof (RrfMoreFacts.index_of_In _ _ Hnb) as HnthB.
  assert (HmvLt : (mv < List.length chunks)%nat).
  { pose proof (Permutation_length HV) as Hl.
    assert (Hlt : (mv < List.length (ids V))%nat)
      by (apply nth_error_Some; congruence).
    rewrite length_map in Hlt. plain. lia. }
  assert (HnbLt : (nb < List.length chunks)%nat).
  { pose proof (Permutation_length HB) as Hl.
    assert (Hlt : (nb < List.length (ids B))%nat)
      by (apply nth_error_Some; congruence).
    rewrite length_map in Hlt. plain. lia. }
  rewrite nth_error_map in HnthV. plain.
  destruct (nth_error V mv) as [cv|] eqn:Hcv; [|discriminate].
  assert (Hcv_fresh : vector_rank cv = None).
  { rewrite Forall_forall in rows_unranked. apply rows_unranked.
    eapply Permutation_in; [exact HV|]. eapply nth_error_In; exact Hcv. }
  destruct (@RrfMoreFacts.out_members 60 V B c Hc) as (s & c' & Hget & Ec).
  assert (Hidc : Chunks.id c = Chunks.id c') by (rewrite Ec; reflexivity).
  rewrite Hidc in Hget, Hmv, Hnb.
  destruct (@RrfMoreFacts.stored_ranks 60 V B HVnd HBnd (Chunks.id c') c' Hget)
    as [Hbr Hvr].
  specialize (Hbr nb Hnb). specialize (Hvr mv cv Hmv Hcv).
  rewrite Hcv_fresh in Hvr.
  assert (Hbr' : bm25_rank c = Some (nb + 1)%nat) by (rewrite Ec; exact Hbr).
  assert (Hvr' : vector_rank c = Some (mv + 1)%nat) by (rewrite Ec; exact Hvr).
  rewrite <- Hidc in Hmv, Hnb. clear Hbr Hvr.
  pose proof (@RrfMoreFacts.out_score 60 V B HVnd HBnd c Hc) as Hscore.
  exists (mv + 1)%nat, (nb + 1)%nat, s.
  split; [exact Hvr'|]. split; [exact Hbr'|].
  split; [lia|]. split; [lia|].
  split; [rewrite Ec; reflexivity|]. split; [rewrite Ec; reflexivity|].
  assert (Hf : fused c = s) by (rewrite Ec; reflexivity).
  rewrite Hf in Hscore. rewrite Hscore.
  unfold rrf, rank_term, Rrf.reciprocal. rewrite Hmv, Hnb.
  cbv beta iota delta [add_share].
  replace (60 + mv + 1)%nat with (60 + (mv + 1))%nat by lia.
  replace (60 + nb + 1)%nat with (60 + (nb + 1))%nat by lia.
  reflexivity.
Qed.

End HybridSearch.

Lemma hybrid_search_returns_top_k_witness :
  let rows := [@fresh Q 1 (lit "alpha beta") (Some [1; 0]);
               @fresh Q 2 (lit "gamma") (Some [0; 1])] in
  (* sum from left to right; [x ** 0.5] at 0.0 and 1.0, the only sums of
     squares here *)
  let py_sum := fun l : list Q => fold_left Float.add l 0 in
  let py_pow := fun x _ : Q => x in
  exists results,
    hybrid_search (fun _ => rows) (fun _ _ => [1; 2]) (fun _ => Some [1; 0])
                  py_sum py_pow
                  (lit "gamma") 1 None 0.7 0.3 None = Some results /\
    List.length results = 1%nat /\
    incl (ids results) [1; 2]%Z.
Proof.
  intros rows py_sum py_pow.
  destruct (@hybrid_search_returns_top_k (fun _ => rows) (fun _ _ => [1; 2])
              (fun _ => Some [1; 0]) py_sum py_pow (lit "gamma") None)
    with (k := 1%Z) (vector_weight := 0.7) (bm25_weight := 0.3)
         (min_score := @None Q)
    as (results & Hr & Hl & _ & Hi & _).
  - simpl. repeat constructor; simpl; intuition discriminate.
  - repeat constructor; discriminate.
  - repeat constructor.
  - reflexivity.
  - eexists. reflexivity.
  - intros query_vec E. injection E as <-.
    repeat constructor; intros chunk_vec E; injection E as <-;
      vm_compute; discriminate.
  - discriminate.
  - exists results. split; [exact Hr|]. split; [exact Hl|exact Hi].
Defined.

End HybridFacts.

(** ** BM25 normalization and the ranking *)

Module Bm25OrderFacts.
Import Py Chunks HybridSearch.
Local Open Scope Q_scope.

(** X20.  The normalization of the BM25 scores divides every raw score by
    one positive float (the greatest raw score when that is positive, 1.0
    otherwise) and rounds the quotient to binary64, so it never inverts two
    scores: a raw score that is not greater gets a normalized score that is
    not greater, also when raw scores are negative.  It can make two
    different raw scores equal: under the greatest raw score 15/8, the
    neighbouring floats 15/16 + 2^-53 and 15/16 + 2^-52 both become
    1/2 + 2^-53.  With no raw score at all, [max] raises. *)
Theorem bm25_normalization_keeps_order :
  forall (get_scores : list (list str) -> list str -> list Q)
         (query : str) (chunks : list chunk),
    let raw_scores := get_scores (map (fun c : chunk => split (lower (text c))) chunks)
                                 (split (lower query)) in
    (raw_scores = [] -> _compute_bm25_scores get_scores query chunks = None) /\
    (raw_scores <> [] ->
     exists m d,
       py_max raw_scores = Some m /\
       d = (if Qltb 0 m then m else 1) /\
       0 < d /\
       _compute_bm25_scores get_scores query chunks
       = Some (map (fun s => Float.div s d) raw_scores) /\
       forall r1 r2, r1 <= r2 -> Float.div r1 d <= Float.div r2 d) /\
    (_compute_bm25_scores
       (fun _ _ => [(15 # 16) + (1 # 2 ^ 53); (15 # 16) + (1 # 2 ^ 52); 15 # 8])
       query chunks
     = Some [Qred ((1 # 2) + (1 # 2 ^ 53)); Qred ((1 # 2) + (1 # 2 ^ 53)); 1]) /\
    (15 # 16) + (1 # 2 ^ 53) < (15 # 16) + (1 # 2 ^ 52).
Proof.
  intros get_scores query chunks raw_scores. unfold raw_scores.
  unfold _compute_bm25_scores, chunk in *. split; [|split; [|split]].
  - intro E. now rewrite E.
  - intro Hne. destruct (Bm25Facts.py_max_nonempty Hne) as (m & Hm).
    exists m, (if Qltb 0 m then m else 1).
    assert (Hd : 0 < (if Qltb 0 m then m else 1)).
    { destruct (Qltb 0 m) eqn:E; [now apply PyFacts.Qltb_lt|reflexivity]. }
    split; [exact Hm|]. split; [reflexivity|]. split; [exact Hd|]. split.
    + now rewrite Hm.
    + intros r1 r2 H. now apply FloatFacts.div_mono.
  - vm_compute. reflexivity.
  - reflexivity.
Qed.

End Bm25OrderFacts.
